(** * Threshold NM/EN ratio analyzer: numeric core

    A shallow embedding of the numeric routines of
    [19_Threshold_NM_EN_Ratio_Analyzer.py] (a Jython 2.7 macro for ImageJ):
    the top-percent mean of an intensity sample, the mapping of polyline
    anchors to profile indices, the closed-interval segment slice, the
    nucleus/cytoplasm ratio, the threshold validation and the standard error.

    Number model.  A Python [int] is a [Z]; a Python [float] is an IEEE 754
    binary64 number.  The development has two levels.

    - The exact level (modules [Py] and [Analyzer]) takes a float for the
      real number it denotes and every operation for exact; [float(n)] is
      [IZR n].  It carries the statements that say which formula the code
      computes, or that relate the code's own outputs in a way the rounding
      does not affect.
    - The double-precision level (modules [Binary64] and [Double]) writes
      out the rounding of every operation to the nearest double, ties to
      even.  It carries the statements whose truth depends on the rounding:
      which values a threshold selects, which index a boundary gets, how
      two returned means compare, and what the settings dialog accepts (the
      entered number can be a NaN).

    Exceptions are explicit: a computation that can raise returns a
    [Py.result]. *)

From Stdlib Require Import Reals ZArith List Lia Lra Psatz Bool.
From Stdlib Require Import Permutation Sorted.
Import ListNotations.
Local Open Scope R_scope.

(* ================================================================= *)
(** ** Python primitives used by the script

    The exact level: a float is the real number it denotes, and [/],
    [math.sqrt] and [sum] do not round.  [int] and [round] are applied to
    finite numbers only. *)

Module Py.

(** The built-in exceptions the modelled code can raise. *)
Inductive exn : Type :=
| ZeroDivisionError
| IndexError
| ValueError.

Inductive result (A : Type) : Type :=
| Ok (a : A)
| Raise (e : exn).

Arguments Ok {A} a.
Arguments Raise {A} e.

Definition bind {A B : Type} (m : result A) (k : A -> result B) : result B :=
  match m with
  | Ok a => k a
  | Raise e => Raise e
  end.

Notation "x <- m ;; k" := (bind m (fun x => k))
  (at level 61, m at next level, right associativity).

(** [len(l)], a Python int. *)
Definition len {A : Type} (l : list A) : Z := Z.of_nat (length l).

(** [a / b] on floats: raises [ZeroDivisionError] when [b] is zero. *)
Definition truediv (a b : R) : result R :=
  if Req_dec_T b 0 then Raise ZeroDivisionError else Ok (a / b).

(** [math.sqrt(x)]: raises [ValueError] on a negative argument. *)
Definition math_sqrt (x : R) : result R :=
  if Rlt_dec x 0 then Raise ValueError else Ok (sqrt x).

(** [int(x)] on a float: truncation toward zero. *)
Definition int (x : R) : Z :=
  if Rle_dec 0 x then Int_part x else (- Int_part (- x))%Z.

(** [round(x)] of Python 2: to the nearest integer, halves away from zero;
    the result is a float. *)
Definition round (x : R) : R :=
  if Rle_dec 0 x then IZR (Int_part (x + / 2))
  else - IZR (Int_part (- x + / 2)).

(** [sum(l)]: left-to-right accumulation from 0. *)
Definition sum (l : list R) : R := fold_left Rplus l 0.

(** [sorted(l)]: ascending order.  Python's sort is stable; on real numbers
    every ascending permutation of [l] is the same list (lemma
    [sorted_unique] below), so insertion sort is as good a model as any. *)
Fixpoint insert (x : R) (l : list R) : list R :=
  match l with
  | [] => [x]
  | y :: l' => if Rle_dec x y then x :: y :: l' else y :: insert x l'
  end.

Fixpoint sorted (l : list R) : list R :=
  match l with
  | [] => []
  | x :: l' => insert x (sorted l')
  end.

(** [l[i]]: a negative index counts from the end; out of range raises
    [IndexError]. *)
Definition getitem {A : Type} (l : list A) (i : Z) : result A :=
  let j := if (i <? 0)%Z then (i + len l)%Z else i in
  if (j <? 0)%Z then Raise IndexError
  else match nth_error l (Z.to_nat j) with
       | Some a => Ok a
       | None => Raise IndexError
       end.

(** Normalisation of a slice bound against a length [n]: a negative bound
    counts from the end, and the result is clamped to [0, n]. *)
Definition slice_index (n i : Z) : Z :=
  if (i <? 0)%Z then Z.max 0 (i + n) else Z.min i n.

(** [l[start:stop]]. *)
Definition slice {A : Type} (l : list A) (start stop : Z) : list A :=
  let s := slice_index (len l) start in
  let e := slice_index (len l) stop in
  firstn (Z.to_nat (e - s)) (skipn (Z.to_nat s) l).

(** [l[start:]]. *)
Definition slice_from {A : Type} (l : list A) (start : Z) : list A :=
  skipn (Z.to_nat (slice_index (len l) start)) l.

(** [range(a, b)] for natural bounds. *)
Definition range (a b : nat) : list nat := seq a (b - a).

End Py.

Import Py.

(* ================================================================= *)
(** ** The analyzer

    The routines at the exact level.  Those whose outcome depends on the
    rounding -- the cut index and the selection, the boundary indices, the
    check of the entered threshold -- are repeated in [Double] below with
    the rounding written out. *)

Module Analyzer.

(** The fields of [EnhancedNuclearAnalyzer] that the numeric code reads or
    writes. *)
Record EnhancedNuclearAnalyzer : Type := mkAnalyzer {
  threshold_percentage : R;
  cell_count : Z
}.

(** [__init__]: the default threshold is 50 percent. *)
Definition init : EnhancedNuclearAnalyzer :=
  {| threshold_percentage := 50; cell_count := 0 |}.

(** What the settings dialog hands back. *)
Record GenericDialog : Type := mkDialog {
  wasCanceled : bool;
  getNextNumber : R
}.

(** [get_analysis_settings] (lines 187-210).  The entered number is stored
    in [self] before it is checked. *)
Definition get_analysis_settings (self : EnhancedNuclearAnalyzer)
    (gd : GenericDialog) : bool * EnhancedNuclearAnalyzer :=
  if wasCanceled gd then (false, self)
  else
    let self := {| threshold_percentage := getNextNumber gd;
                   cell_count := cell_count self |} in
    if Rlt_dec (threshold_percentage self) 1 then (false, self)
    else if Rgt_dec (threshold_percentage self) 100 then (false, self)
    else (true, self).

(** Lines 359, 461, 740, 761:
    [int(len(sorted_values) * (1.0 - threshold / 100.0))]. *)
Definition threshold_idx (sorted_values : list R) (threshold : R) : Z :=
  int (IZR (len sorted_values) * (1 - threshold / 100)).

(** Lines 358-360: [sorted_values[threshold_idx:]]. *)
Definition top_values (values : list R) (threshold : R) : list R :=
  let sorted_values := sorted values in
  slice_from sorted_values (threshold_idx sorted_values threshold).

(** Lines 358-363 (and 460-466): the mean of the top values,
    [sum(top_values) / float(len(top_values))]. *)
Definition top_percent_mean (values : list R) (threshold : R) : result R :=
  let top := top_values values threshold in
  truediv (sum top) (IZR (len top)).

(** One entry of [stroke_data] (lines 369-378), without the display
    strings. *)
Record stroke_info : Type := mkStroke {
  segment_number : Z;
  start_index : Z;
  end_index : Z;
  raw_values : list R;
  stroke_top_values : list R;
  stroke_average : R
}.

(** The dictionary returned by [measure_nuclear_membrane_detailed]. *)
Record nuclear_data : Type := mkNuclear {
  full_profile : list R;
  segment_boundaries : list Z;
  stroke_data : list stroke_info;
  stroke_averages : list R;
  overall_mean : R;
  n_segments : Z
}.

(** The dictionary returned by [measure_cytoplasm_detailed]. *)
Record cytoplasm_data : Type := mkCytoplasm {
  raw_profile : list R;
  cyto_top_values : list R;
  threshold_value : R;
  mean : R
}.

(** The dictionary returned by [analyze_single_cell]. *)
Record cell_data : Type := mkCell {
  cell_number : Z;
  cell_nuclear_data : nuclear_data;
  cell_cytoplasm_data : cytoplasm_data;
  nuclear_mean : R;
  cytoplasm_mean : R;
  cell_ratio : R
}.

(** The selection the image host hands over: its type, the polygon of its
    anchors and the intensity profile sampled along it ([None] for a null
    profile). *)
Inductive roi_type : Type := POLYLINE | OTHER_ROI.

Record Roi : Type := mkRoi {
  getType : roi_type;
  xpoints : list Z;
  ypoints : list Z;
  npoints : nat;
  getProfile : option (list R)
}.

(** First loop of [calculate_segment_boundaries] (lines 492-497), over the
    indices still to visit; the state is [total_distance] and
    [anchor_distances]. *)
Fixpoint distances_loop (x_coords y_coords : list Z) (indices : list nat)
    (total_distance : R) (anchor_distances : list R)
    : result (R * list R) :=
  match indices with
  | [] => Ok (total_distance, anchor_distances)
  | i :: rest =>
      xi <- getitem x_coords (Z.of_nat i) ;;
      xp <- getitem x_coords (Z.of_nat i - 1) ;;
      let dx := (xi - xp)%Z in
      yi <- getitem y_coords (Z.of_nat i) ;;
      yp <- getitem y_coords (Z.of_nat i - 1) ;;
      let dy := (yi - yp)%Z in
      segment_distance <- math_sqrt (IZR (dx * dx + dy * dy)) ;;
      let total_distance := total_distance + segment_distance in
      distances_loop x_coords y_coords rest total_distance
        (anchor_distances ++ [total_distance])
  end.

(** Second loop (lines 500-505). *)
Fixpoint boundaries_loop (anchor_distances : list R) (total_distance : R)
    (profile_length : Z) (indices : list nat) (boundaries : list Z)
    : result (list Z) :=
  match indices with
  | [] => Ok boundaries
  | i :: rest =>
      d <- getitem anchor_distances (Z.of_nat i) ;;
      q <- truediv d total_distance ;;
      let idx := int (round (q * IZR (profile_length - 1))) in
      let idx := if (idx >=? profile_length)%Z
                 then (profile_length - 1)%Z else idx in
      boundaries_loop anchor_distances total_distance profile_length rest
        (boundaries ++ [idx])
  end.

(** [calculate_segment_boundaries] (lines 484-507). *)
Definition calculate_segment_boundaries (x_coords y_coords : list Z)
    (profile_length : Z) : result (list Z) :=
  let n_anchors := length x_coords in
  r <- distances_loop x_coords y_coords (range 1 n_anchors) 0 [0] ;;
  let '(total_distance, anchor_distances) := r in
  boundaries_loop anchor_distances total_distance profile_length
    (range 0 n_anchors) [].

(** Lines 347-351: the values of one segment,
    [full_profile[start_idx:end_idx + 1]]. *)
Definition segment_values (full_profile : list R) (segment_boundaries : list Z)
    (seg : nat) : result (list R) :=
  start_idx <- getitem segment_boundaries (Z.of_nat seg) ;;
  end_idx <- getitem segment_boundaries (Z.of_nat seg + 1) ;;
  Ok (slice full_profile start_idx (end_idx + 1)).

(** The loop over the segments (lines 346-379). *)
Fixpoint segments_loop (full_profile : list R) (segment_boundaries : list Z)
    (threshold : R) (segs : list nat)
    (stroke_data : list stroke_info) (stroke_averages : list R)
    : result (list stroke_info * list R) :=
  match segs with
  | [] => Ok (stroke_data, stroke_averages)
  | seg :: rest =>
      start_idx <- getitem segment_boundaries (Z.of_nat seg) ;;
      end_idx <- getitem segment_boundaries (Z.of_nat seg + 1) ;;
      let segment_values := slice full_profile start_idx (end_idx + 1) in
      if (len segment_values =? 0)%Z then
        segments_loop full_profile segment_boundaries threshold rest
          stroke_data stroke_averages
      else
        let top := top_values segment_values threshold in
        stroke_avg <- truediv (sum top) (IZR (len top)) ;;
        let stroke := {| segment_number := Z.of_nat seg + 1;
                         start_index := start_idx;
                         end_index := end_idx;
                         raw_values := segment_values;
                         stroke_top_values := top;
                         stroke_average := stroke_avg |} in
        segments_loop full_profile segment_boundaries threshold rest
          (stroke_data ++ [stroke]) (stroke_averages ++ [stroke_avg])
  end.

(** [measure_nuclear_membrane_detailed] (lines 267-400) from the selection
    on.  [Ok None] is the Python [return None] after an error message. *)
Definition measure_nuclear_membrane_detailed (self : EnhancedNuclearAnalyzer)
    (roi : option Roi) : result (option nuclear_data) :=
  match roi with
  | None => Ok None
  | Some roi =>
      match getType roi with
      | OTHER_ROI => Ok None
      | POLYLINE =>
          let x_coords := xpoints roi in
          let y_coords := ypoints roi in
          let n_anchors := npoints roi in
          if (n_anchors <? 2)%nat then Ok None
          else
            let n_segments := (n_anchors - 1)%nat in
            match getProfile roi with
            | None => Ok None
            | Some full_profile =>
                if (len full_profile =? 0)%Z then Ok None
                else
                  segment_boundaries <-
                    calculate_segment_boundaries x_coords y_coords
                      (len full_profile) ;;
                  r <- segments_loop full_profile segment_boundaries
                         (threshold_percentage self) (range 0 n_segments)
                         [] [] ;;
                  let '(stroke_data, stroke_averages) := r in
                  if (len stroke_averages =? 0)%Z then Ok None
                  else
                    overall_mean <- truediv (sum stroke_averages)
                                      (IZR (len stroke_averages)) ;;
                    Ok (Some {| full_profile := full_profile;
                                segment_boundaries := segment_boundaries;
                                stroke_data := stroke_data;
                                stroke_averages := stroke_averages;
                                overall_mean := overall_mean;
                                n_segments := len stroke_averages |})
            end
      end
  end.

(** [measure_cytoplasm_detailed] (lines 402-482) from the selection on. *)
Definition measure_cytoplasm_detailed (self : EnhancedNuclearAnalyzer)
    (roi : option Roi) : result (option cytoplasm_data) :=
  match roi with
  | None => Ok None
  | Some roi =>
      match getType roi with
      | OTHER_ROI => Ok None
      | POLYLINE =>
          match getProfile roi with
          | None => Ok None
          | Some profile =>
              if (len profile =? 0)%Z then Ok None
              else
                let sorted_profile := sorted profile in
                let idx := threshold_idx sorted_profile
                             (threshold_percentage self) in
                let top := slice_from sorted_profile idx in
                threshold_value <-
                  (if (idx <? len sorted_profile)%Z
                   then getitem sorted_profile idx else Ok 0) ;;
                cytoplasm_mean <- truediv (sum top) (IZR (len top)) ;;
                Ok (Some {| raw_profile := profile;
                            cyto_top_values := top;
                            threshold_value := threshold_value;
                            mean := cytoplasm_mean |})
          end
      end
  end.

(** Lines 262, 642 and 678:
    [nuclear_mean / cytoplasm_mean if cytoplasm_mean > 0 else 0]. *)
Definition ratio (nuclear_mean cytoplasm_mean : R) : result R :=
  if Rgt_dec cytoplasm_mean 0 then truediv nuclear_mean cytoplasm_mean
  else Ok 0.

(** [analyze_single_cell] (lines 243-265); the two selections are the ones
    the user draws for the nuclear membrane and for the cytoplasm. *)
Definition analyze_single_cell (self : EnhancedNuclearAnalyzer)
    (nuclear_roi cytoplasm_roi : option Roi) : result (option cell_data) :=
  nuclear <- measure_nuclear_membrane_detailed self nuclear_roi ;;
  match nuclear with
  | None => Ok None
  | Some nuclear_data =>
      cytoplasm <- measure_cytoplasm_detailed self cytoplasm_roi ;;
      match cytoplasm with
      | None => Ok None
      | Some cytoplasm_data =>
          r <- ratio (overall_mean nuclear_data) (mean cytoplasm_data) ;;
          Ok (Some {| cell_number := cell_count self;
                      cell_nuclear_data := nuclear_data;
                      cell_cytoplasm_data := cytoplasm_data;
                      nuclear_mean := overall_mean nuclear_data;
                      cytoplasm_mean := mean cytoplasm_data;
                      cell_ratio := r |})
      end
  end.

(** The loop of [recalculate_nuclear_mean_with_threshold] (lines 732-745). *)
Fixpoint recalculate_loop (strokes : list stroke_info) (threshold_percent : R)
    (stroke_averages : list R) : result (list R) :=
  match strokes with
  | [] => Ok stroke_averages
  | stroke :: rest =>
      let raw := raw_values stroke in
      if (len raw =? 0)%Z then
        recalculate_loop rest threshold_percent stroke_averages
      else
        let top := top_values raw threshold_percent in
        if (len top >? 0)%Z then
          stroke_avg <- truediv (sum top) (IZR (len top)) ;;
          recalculate_loop rest threshold_percent
            (stroke_averages ++ [stroke_avg])
        else recalculate_loop rest threshold_percent stroke_averages
  end.

(** [recalculate_nuclear_mean_with_threshold] (lines 728-750). *)
Definition recalculate_nuclear_mean_with_threshold (nuclear : nuclear_data)
    (threshold_percent : R) : result R :=
  stroke_averages <-
    recalculate_loop (stroke_data nuclear) threshold_percent [] ;;
  if (len stroke_averages >? 0)%Z then
    truediv (sum stroke_averages) (IZR (len stroke_averages))
  else Ok 0.

(** [recalculate_cytoplasm_mean_with_threshold] (lines 752-767). *)
Definition recalculate_cytoplasm_mean_with_threshold
    (cytoplasm : cytoplasm_data) (threshold_percent : R) : result R :=
  let raw := raw_profile cytoplasm in
  if (len raw =? 0)%Z then Ok 0
  else
    let top := top_values raw threshold_percent in
    if (len top >? 0)%Z then truediv (sum top) (IZR (len top)) else Ok 0.

(** [calculate_se] (lines 1265-1276). *)
Definition calculate_se (data : list R) : result R :=
  if (len data <=? 1)%Z then Ok 0
  else
    mean <- truediv (sum data) (IZR (len data)) ;;
    let sum_squared_diff := sum (map (fun x => (x - mean) ^ 2) data) in
    variance <- truediv sum_squared_diff (IZR (len data - 1)) ;;
    std_dev <- math_sqrt variance ;;
    root_n <- math_sqrt (IZR (len data)) ;;
    truediv std_dev root_n.

End Analyzer.

Import Analyzer.

(* ================================================================= *)
(** ** Auxiliary definitions for the proofs *)

(** One iteration of the second loop of [calculate_segment_boundaries]
    (lines 502-504), as a function of the anchor's distance. *)
Definition index_of (total_distance : R) (profile_length : Z) (d : R) : Z :=
  let idx := int (round (d / total_distance * IZR (profile_length - 1))) in
  if (idx >=? profile_length)%Z then (profile_length - 1)%Z else idx.

(** The test [len(l) == 0] of the segment loops, negated. *)
Definition nonempty {A : Type} (l : list A) : bool := negb (len l =? 0)%Z.

(* ================================================================= *)
(** ** Specification-side definitions

    These follow the words of the specification; the theorems below compare
    them with the code above. *)

Module Spec.

(** [floor] of a real number. *)
Definition floor (x : R) : Z := Int_part x.

(** [cut = floor(len(sample) * (1 - t/100))]. *)
Definition cut (sample : list R) (t : R) : Z :=
  floor (INR (length sample) * (1 - t / 100)).

(** The arithmetic mean [sum(l) / len(l)] of a list of reals. *)
Definition list_sum (l : list R) : R := fold_right Rplus 0 l.

Definition mean_of (l : list R) : R := list_sum l / INR (length l).

(** Ascending order. *)
Definition ascending (l : list R) : Prop := StronglySorted Rle l.

(** An anchor is a point of the pixel grid. *)
Definition Anchor : Type := (Z * Z)%type.

Definition x_of (anchors : list Anchor) : list Z := map fst anchors.
Definition y_of (anchors : list Anchor) : list Z := map snd anchors.

(** Euclidean distance between two anchors. *)
Definition dist (p q : Anchor) : R :=
  sqrt (IZR ((fst q - fst p) * (fst q - fst p)
             + (snd q - snd p) * (snd q - snd p))).

(** [D(i)]: the cumulative Euclidean distance from the first anchor to
    anchor [i], with [D(0) = 0]. *)
Fixpoint D (anchors : list Anchor) (i : nat) : R :=
  match i with
  | O => 0
  | S j => D anchors j
           + dist (nth j anchors (0, 0)%Z) (nth (S j) anchors (0, 0)%Z)
  end.

(** Clamping of an index to [lo, hi]. *)
Definition clamp (lo hi z : Z) : Z := Z.max lo (Z.min hi z).

(** The boundary index of anchor [i]:
    [round(D(i) / D(n-1) * (profile_length - 1))] clamped to
    [0, profile_length - 1]. *)
Definition boundary (anchors : list Anchor) (profile_length : Z) (i : nat)
    : Z :=
  clamp 0 (profile_length - 1)
    (int (round (D anchors i / D anchors (length anchors - 1)
                 * IZR (profile_length - 1)))).

(** The closed-interval slice [profile[a .. b]], both ends included: the
    elements at the positions [a, a+1, ..., b] that exist. *)
Definition closed_slice (profile : list R) (a b : nat) : list R :=
  firstn (S b - a) (skipn a profile).

(** Bessel-corrected sample variance (divisor [n - 1]). *)
Definition sample_variance (l : list R) : R :=
  list_sum (map (fun x => (x - mean_of l) ^ 2) l) / (INR (length l) - 1).

Definition standard_error (l : list R) : R :=
  sqrt (sample_variance l) / sqrt (INR (length l)).

End Spec.

(** A polyline selection with the given anchors and intensity profile. *)
Definition polyline_roi (anchors : list Spec.Anchor) (profile : list R)
    : Roi :=
  {| getType := POLYLINE;
     xpoints := Spec.x_of anchors;
     ypoints := Spec.y_of anchors;
     npoints := length anchors;
     getProfile := Some profile |}.

(** The sample and the polylines of the specification's worked examples. *)
Definition sample_1_to_10 : list R := [1; 2; 3; 4; 5; 6; 7; 8; 9; 10].

Definition colinear_anchors : list Spec.Anchor :=
  [(0, 0); (5, 0); (10, 0)]%Z.

Definition coinciding_anchors : list Spec.Anchor := [(3, 3); (3, 3)]%Z.

(** A polyline with a short and a long segment. *)
Definition uneven_anchors : list Spec.Anchor := [(0, 0); (2, 0); (10, 0)]%Z.

(* ================================================================= *)
(** ** The arithmetic in double precision

    The definitions above compute with exact real numbers.  The script
    computes with IEEE 754 binary64 numbers: every arithmetic operation
    returns the exact result rounded to the nearest representable number,
    ties to the one with an even significand.  This module repeats the
    routines whose outcome depends on that rounding, with the rounding
    written out.  A finite double is the real number it denotes.  On the
    inputs the theorems below admit -- fewer than [2^31] intensities
    within the range of a 32-bit float, 32-bit pixel coordinates,
    percentages of at most 100 -- every intermediate result stays far
    below the overflow threshold [2^1024], so the operations return finite
    numbers and [int] and [round] are applied to finite numbers only.  The
    one value that can be a NaN, the number typed into the settings dialog,
    has the type [double] below. *)

Module Binary64.

(** [2^e]. *)
Definition pow2 (e : Z) : R := powerRZ 2 e.

(** The magnitude of a non-zero [x]: the integer [k] with
    [2^(k-1) <= |x| < 2^k]. *)
Definition mag (x : R) : Z := (Int_part (ln (Rabs x) / ln 2) + 1)%Z.

(** The nearest integer, ties to even. *)
Definition nearest_even (x : R) : Z :=
  let f := Int_part x in
  if Rlt_dec (x - IZR f) (/ 2) then f
  else if Rlt_dec (/ 2) (x - IZR f) then (f + 1)%Z
  else if Z.even f then f else (f + 1)%Z.

(** The exponent of the unit in the last place of [x]: 53 significant
    bits, and never below the exponent [-1074] of the subnormal numbers. *)
Definition cexp (x : R) : Z := Z.max (mag x - 53) (-1074).

(** Rounding to the nearest double. *)
Definition rnd (x : R) : R :=
  IZR (nearest_even (x * pow2 (- cexp x))) * pow2 (cexp x).

(** The numbers [m * 2^e] with a significand of at most 53 bits and an
    exponent of at least [-1074]: below the overflow threshold [2^1024]
    these are the finite doubles. *)
Definition representable (x : R) : Prop :=
  exists m e : Z,
    x = IZR m * pow2 e /\ (Z.abs m <= 2 ^ 53)%Z /\ (-1074 <= e)%Z.

End Binary64.

Import Binary64.

Module Double.

(** The values the image host hands over.  An intensity is a double within
    the range of a 32-bit float, the widest pixel type of the host; a
    pixel coordinate is a 32-bit integer. *)
Definition intensity (x : R) : Prop :=
  representable x /\ Rabs x <= pow2 128.

Definition pixel (p : Spec.Anchor) : Prop :=
  (Z.abs (fst p) < 2 ^ 31)%Z /\ (Z.abs (snd p) < 2 ^ 31)%Z.

(** [x + y], [x - y], [x * y] and [x / y] on floats. *)
Definition add (x y : R) : R := rnd (x + y).
Definition sub (x y : R) : R := rnd (x - y).
Definition mul (x y : R) : R := rnd (x * y).
Definition div (x y : R) : R := rnd (x / y).

(** [x / y] where the divisor can be zero. *)
Definition truediv (x y : R) : result R :=
  if Req_dec_T y 0 then Raise ZeroDivisionError else Ok (div x y).

(** [math.sqrt(x)]. *)
Definition math_sqrt (x : R) : result R :=
  if Rlt_dec x 0 then Raise ValueError else Ok (rnd (sqrt x)).

(** [float(n)], also the implicit conversion of an int operand. *)
Definition float (n : Z) : R := rnd (IZR n).

(** [sum(l)]: left-to-right accumulation from 0. *)
Definition sum (l : list R) : R := fold_left add l 0.

(** Lines 359, 461, 740, 761:
    [int(len(sorted_values) * (1.0 - threshold / 100.0))]. *)
Definition threshold_idx (sorted_values : list R) (threshold : R) : Z :=
  int (mul (float (len sorted_values)) (sub 1 (div threshold 100))).

(** Lines 358-360: [sorted_values[threshold_idx:]].  Sorting only compares,
    so it is the [sorted] of the exact model. *)
Definition top_values (values : list R) (threshold : R) : list R :=
  let sorted_values := sorted values in
  slice_from sorted_values (threshold_idx sorted_values threshold).

(** Lines 358-363 (and 460-466):
    [sum(top_values) / float(len(top_values))]. *)
Definition top_percent_mean (values : list R) (threshold : R) : result R :=
  let top := top_values values threshold in
  truediv (sum top) (float (len top)).

(** First loop of [calculate_segment_boundaries] (lines 492-497). *)
Fixpoint distances_loop (x_coords y_coords : list Z) (indices : list nat)
    (total_distance : R) (anchor_distances : list R)
    : result (R * list R) :=
  match indices with
  | [] => Ok (total_distance, anchor_distances)
  | i :: rest =>
      xi <- getitem x_coords (Z.of_nat i) ;;
      xp <- getitem x_coords (Z.of_nat i - 1) ;;
      let dx := (xi - xp)%Z in
      yi <- getitem y_coords (Z.of_nat i) ;;
      yp <- getitem y_coords (Z.of_nat i - 1) ;;
      let dy := (yi - yp)%Z in
      segment_distance <- math_sqrt (float (dx * dx + dy * dy)) ;;
      let total_distance := add total_distance segment_distance in
      distances_loop x_coords y_coords rest total_distance
        (anchor_distances ++ [total_distance])
  end.

(** Second loop (lines 500-505).  [round] returns the nearest integer of
    the double it is given, halves away from zero, without further
    rounding error. *)
Fixpoint boundaries_loop (anchor_distances : list R) (total_distance : R)
    (profile_length : Z) (indices : list nat) (boundaries : list Z)
    : result (list Z) :=
  match indices with
  | [] => Ok boundaries
  | i :: rest =>
      d <- getitem anchor_distances (Z.of_nat i) ;;
      q <- truediv d total_distance ;;
      let idx := int (round (mul q (float (profile_length - 1)))) in
      let idx := if (idx >=? profile_length)%Z
                 then (profile_length - 1)%Z else idx in
      boundaries_loop anchor_distances total_distance profile_length rest
        (boundaries ++ [idx])
  end.

(** [calculate_segment_boundaries] (lines 484-507). *)
Definition calculate_segment_boundaries (x_coords y_coords : list Z)
    (profile_length : Z) : result (list Z) :=
  let n_anchors := length x_coords in
  r <- distances_loop x_coords y_coords (range 1 n_anchors) 0 [0] ;;
  let '(total_distance, anchor_distances) := r in
  boundaries_loop anchor_distances total_distance profile_length
    (range 0 n_anchors) [].

(** The values the two loops compute, in closed form: the length of a
    segment, the running sum [D] of the lengths and the index of anchor
    [i]. *)
Definition dist (p q : Spec.Anchor) : R :=
  rnd (sqrt (float ((fst q - fst p) * (fst q - fst p)
                    + (snd q - snd p) * (snd q - snd p)))).

Fixpoint D (anchors : list Spec.Anchor) (i : nat) : R :=
  match i with
  | O => 0
  | S j => add (D anchors j)
             (dist (nth j anchors (0, 0)%Z) (nth (S j) anchors (0, 0)%Z))
  end.

Definition boundary (anchors : list Spec.Anchor) (profile_length : Z)
    (i : nat)
    : Z :=
  int (round (mul (div (D anchors i) (D anchors (length anchors - 1)))
                (float (profile_length - 1)))).

(** One iteration of the second loop (lines 502-504), as a function of the
    anchor's distance. *)
Definition index_of (total_distance : R) (profile_length : Z) (d : R) : Z :=
  let idx :=
    int (round (mul (div d total_distance) (float (profile_length - 1)))) in
  if (idx >=? profile_length)%Z then (profile_length - 1)%Z else idx.

(** A Java [double] as the settings dialog returns it: a NaN (the entry
    is not a number), an infinity or a finite number. *)
Inductive double : Type :=
| NaN
| Infinity (negative : bool)
| Finite (x : R).

(** [a < b] and [a > b] for a number [b]: every comparison with a NaN is
    false. *)
Definition lt (a : double) (b : R) : bool :=
  match a with
  | NaN => false
  | Infinity negative => negative
  | Finite x => if Rlt_dec x b then true else false
  end.

Definition gt (a : double) (b : R) : bool :=
  match a with
  | NaN => false
  | Infinity negative => negb negative
  | Finite x => if Rgt_dec x b then true else false
  end.

Record EnhancedNuclearAnalyzer : Type := mkAnalyzer {
  threshold_percentage : double;
  cell_count : Z
}.

Record GenericDialog : Type := mkDialog {
  wasCanceled : bool;
  getNextNumber : double
}.

(** [__init__]: the default threshold is 50 percent. *)
Definition init : EnhancedNuclearAnalyzer :=
  {| threshold_percentage := Finite 50; cell_count := 0 |}.

(** [get_analysis_settings] (lines 187-210).  The entered number is stored
    in [self] before it is checked. *)
Definition get_analysis_settings (self : EnhancedNuclearAnalyzer)
    (gd : GenericDialog) : bool * EnhancedNuclearAnalyzer :=
  if wasCanceled gd then (false, self)
  else
    let self := {| threshold_percentage := getNextNumber gd;
                   cell_count := cell_count self |} in
    if lt (threshold_percentage self) 1 || gt (threshold_percentage self) 100
    then (false, self)
    else (true, self).

End Double.

(** The double nearest to 0.1, and a sample of three such values. *)
Definition tenth : R := 3602879701896397 / 36028797018963968.

Definition sample_tenths : list R := [tenth; tenth; tenth].

(** A threshold of [2^-60] percent. *)
Definition tiny_threshold : R := / 1152921504606846976.

(** A polyline whose middle anchor lies at seven tenths of its length. *)
Definition tie_anchors : list Spec.Anchor := [(0, 0); (7, 0); (10, 0)]%Z.

(* ================================================================= *)
(** ** The session loop *)

Module Session.

(** The answer of [ContinueDialog.show_dialog] (lines 69-89): the strings
    ["continue"], ["export"] and ["cancel"]. *)
Inductive choice : Type := choice_continue | choice_export | choice_cancel.

(** [show_dialog] maps the index of the pressed option: 0 is "Measure
    another cell", 1 is "Export data now", anything else (the dialog was
    closed) cancels. *)
Definition show_dialog (option_index : Z) : choice :=
  if (option_index =? 0)%Z then choice_continue
  else if (option_index =? 1)%Z then choice_export
  else choice_cancel.

(** The analyzer with the lists it accumulates ([__init__], lines 92-97). *)
Record session : Type := mkSession {
  self : EnhancedNuclearAnalyzer;
  cell_data_list : list cell_data;
  nuclear_membrane_averages : list R;
  cytoplasm_averages : list R;
  nucleus_cytoplasm_ratios : list R
}.

Definition new_session : session :=
  {| self := init;
     cell_data_list := [];
     nuclear_membrane_averages := [];
     cytoplasm_averages := [];
     nucleus_cytoplasm_ratios := [] |}.

Definition set_cell_count (a : EnhancedNuclearAnalyzer) (n : Z)
    : EnhancedNuclearAnalyzer :=
  {| threshold_percentage := threshold_percentage a; cell_count := n |}.

Definition set_self (s : session) (a : EnhancedNuclearAnalyzer) : session :=
  {| self := a;
     cell_data_list := cell_data_list s;
     nuclear_membrane_averages := nuclear_membrane_averages s;
     cytoplasm_averages := cytoplasm_averages s;
     nucleus_cytoplasm_ratios := nucleus_cytoplasm_ratios s |}.

(** Lines 156-159: the four appends after a completed cell. *)
Definition store_cell (s : session) (cd : cell_data) : session :=
  {| self := self s;
     cell_data_list := cell_data_list s ++ [cd];
     nuclear_membrane_averages :=
       nuclear_membrane_averages s ++ [nuclear_mean cd];
     cytoplasm_averages := cytoplasm_averages s ++ [cytoplasm_mean cd];
     nucleus_cytoplasm_ratios := nucleus_cytoplasm_ratios s ++ [cell_ratio cd]
  |}.

(** What the user does in one round of the loop: the two selections drawn
    and the option pressed in the dialog that follows a completed cell. *)
Record round : Type := mkRound {
  nuclear_roi : option Roi;
  cytoplasm_roi : option Roi;
  answer : Z
}.

(** How the loop was left: by "export" (the export follows), by "cancel"
    (the function returns), or not yet (the rounds given are used up and
    the loop waits for the next selection). *)
Inductive outcome : Type :=
| exporting (s : session)
| cancelled (s : session)
| waiting (s : session).

Definition final (o : outcome) : session :=
  match o with exporting s | cancelled s | waiting s => s end.

(** The [while True] loop of [run_analysis] (lines 143-176). *)
Fixpoint analysis_loop (s : session) (rounds : list round)
    : result outcome :=
  match rounds with
  | [] => Ok (waiting s)
  | r :: rest =>
      let s := set_self s (set_cell_count (self s) (cell_count (self s) + 1)) in
      cell <- analyze_single_cell (self s) (nuclear_roi r) (cytoplasm_roi r) ;;
      match cell with
      | None =>
          let s :=
            set_self s (set_cell_count (self s) (cell_count (self s) - 1)) in
          analysis_loop s rest
      | Some cd =>
          let s := store_cell s cd in
          match show_dialog (answer r) with
          | choice_continue => analysis_loop s rest
          | choice_export => Ok (exporting s)
          | choice_cancel => Ok (cancelled s)
          end
      end
  end.

(** [run_analysis] (lines 111-185) from the settings dialog on, with an
    image open; [None] is the return after rejected or cancelled settings. *)
Definition run_analysis (s : session) (gd : GenericDialog)
    (rounds : list round) : result (option outcome) :=
  let '(accepted, a) := get_analysis_settings (self s) gd in
  let s := set_self s a in
  if accepted then
    o <- analysis_loop s rounds ;;
    Ok (Some o)
  else Ok None.

End Session.

(* ================================================================= *)
(** ** The numbers written to the workbook *)

Module Workbook.




(** Lines 634-642 (and 676-678): the nuclear mean, the cytoplasm mean and
    their ratio of one cell at one threshold, before they are rounded for
    display. *)
Definition comparison_entry (cd : cell_data) (threshold : R)
    : result (R * R * R) :=
  nuclear <- recalculate_nuclear_mean_with_threshold
               (cell_nuclear_data cd) threshold ;;
  cytoplasm <- recalculate_cytoplasm_mean_with_threshold
                 (cell_cytoplasm_data cd) threshold ;;
  r <- ratio nuclear cytoplasm ;;
  Ok (nuclear, cytoplasm, r).


(** Lines 671-682: the three value lists of one threshold over the cells. *)
Fixpoint comparison_values (cells : list cell_data) (threshold : R)
    (nuclear_values cytoplasm_values ratio_values : list R)
    : result (list R * list R * list R) :=
  match cells with
  | [] => Ok (nuclear_values, cytoplasm_values, ratio_values)
  | cd :: rest =>
      e <- comparison_entry cd threshold ;;
      let '(nuclear, cytoplasm, r) := e in
      comparison_values rest threshold (nuclear_values ++ [nuclear])
        (cytoplasm_values ++ [cytoplasm]) (ratio_values ++ [r])
  end.

(** A mean with its standard error, the pair shown as "mean +/- SE". *)
Definition mean_and_se (values : list R) : result (R * R) :=
  avg <- truediv (sum values) (IZR (len values)) ;;
  se <- calculate_se values ;;
  Ok (avg, se).

(** Lines 670-692: the summary line of one threshold. *)
Definition comparison_summary (cells : list cell_data) (threshold : R)
    : result ((R * R) * (R * R) * (R * R)) :=
  v <- comparison_values cells threshold [] [] [] ;;
  let '(nuclear_values, cytoplasm_values, ratio_values) := v in
  n <- mean_and_se nuclear_values ;;
  c <- mean_and_se cytoplasm_values ;;
  r <- mean_and_se ratio_values ;;
  Ok (n, c, r).

(** Lines 1106-1114: the statistics of the summary sheet, [None] when the
    guard [len(self.nuclear_membrane_averages) > 0] fails. *)
Definition summary_statistics (s : Session.session)
    : result (option ((R * R) * (R * R) * (R * R))) :=
  if (len (Session.nuclear_membrane_averages s) >? 0)%Z then
    n <- mean_and_se (Session.nuclear_membrane_averages s) ;;
    c <- mean_and_se (Session.cytoplasm_averages s) ;;
    r <- mean_and_se (Session.nucleus_cytoplasm_ratios s) ;;
    Ok (Some (n, c, r))
  else Ok None.

(** Lines 808-812: the stroke a profile index is drawn in, the first one
    whose boundaries enclose it, [-1] when there is none.  The chained
    comparison reads the second boundary only when the first test holds. *)
Fixpoint find_stroke (boundaries : list Z) (j : Z) (segs : list nat)
    : result Z :=
  match segs with
  | [] => Ok (-1)%Z
  | seg :: rest =>
      lo <- getitem boundaries (Z.of_nat seg) ;;
      if (lo <=? j)%Z then
        hi <- getitem boundaries (Z.of_nat seg + 1) ;;
        if (j <=? hi)%Z then Ok (Z.of_nat seg)
        else find_stroke boundaries j rest
      else find_stroke boundaries j rest
  end.

Definition current_stroke (boundaries : list Z) (j : Z) : result Z :=
  find_stroke boundaries j (range 0 (Z.to_nat (len boundaries - 1))).







Definition top_count (stroke : stroke_info) : Z :=
  len (stroke_top_values stroke).

End Workbook.

(* ================================================================= *)
(** ** Further specification-side definitions *)

(** The records of a worked example: the polyline [uneven_anchors] over
    the profile 1..10 for the nuclear membrane, the profile [3, 1, 2] for
    the cytoplasm, at the default threshold of 50 percent. *)
Definition example_nuclear : nuclear_data :=
  {| full_profile := sample_1_to_10;
     segment_boundaries := [0; 2; 9]%Z;
     stroke_data :=
       [ {| segment_number := 1; start_index := 0; end_index := 2;
            raw_values := [1; 2; 3];
            stroke_top_values := [2; 3];
            stroke_average := 5 / 2 |};
         {| segment_number := 2; start_index := 2; end_index := 9;
            raw_values := [3; 4; 5; 6; 7; 8; 9; 10];
            stroke_top_values := [7; 8; 9; 10];
            stroke_average := 17 / 2 |} ];
     stroke_averages := [5 / 2; 17 / 2];
     overall_mean := 11 / 2;
     n_segments := 2 |}.

Definition example_cytoplasm : cytoplasm_data :=
  {| raw_profile := [3; 1; 2];
     cyto_top_values := [2; 3];
     threshold_value := 2;
     mean := 5 / 2 |}.

Definition example_cell : cell_data :=
  {| cell_number := 1;
     cell_nuclear_data := example_nuclear;
     cell_cytoplasm_data := example_cytoplasm;
     nuclear_mean := 11 / 2;
     cytoplasm_mean := 5 / 2;
     cell_ratio := 11 / 2 / (5 / 2) |}.

Definition example_round (answer : Z) : Session.round :=
  {| Session.nuclear_roi :=
       Some (polyline_roi uneven_anchors sample_1_to_10);
     Session.cytoplasm_roi := Some (polyline_roi colinear_anchors [3; 1; 2]);
     Session.answer := answer |}.

(** A translation of the polyline. *)
Definition translate (dx dy : Z) (anchors : list Spec.Anchor)
    : list Spec.Anchor :=
  map (fun p => (fst p + dx, snd p + dy)%Z) anchors.

(** The stroke the segment loop records for segment [seg] of a polyline
    measured over [profile] at threshold [t]. *)
Definition stroke_of (anchors : list Spec.Anchor) (profile : list R) (t : R)
    (seg : nat) : stroke_info :=
  let a := Spec.boundary anchors (len profile) seg in
  let b := Spec.boundary anchors (len profile) (S seg) in
  let vals := Spec.closed_slice profile (Z.to_nat a) (Z.to_nat b) in
  {| segment_number := Z.of_nat seg + 1;
     start_index := a;
     end_index := b;
     raw_values := vals;
     stroke_top_values := top_values vals t;
     stroke_average := Spec.mean_of (top_values vals t) |}.

(** What the session loop keeps true of the lists it accumulates. *)
Definition consistent (s : Session.session) : Prop :=
  cell_count (Session.self s) = len (Session.cell_data_list s)
  /\ Session.nuclear_membrane_averages s
     = map nuclear_mean (Session.cell_data_list s)
  /\ Session.cytoplasm_averages s
     = map cytoplasm_mean (Session.cell_data_list s)
  /\ Session.nucleus_cytoplasm_ratios s
     = map cell_ratio (Session.cell_data_list s)
  /\ map cell_number (Session.cell_data_list s)
     = map (fun i => Z.of_nat i + 1)%Z
         (seq 0 (length (Session.cell_data_list s))).


(** Ascending order of a list of numerals. *)
Ltac ascending_by_lra :=
  unfold Spec.ascending;
  repeat first [ apply SSorted_nil | apply SSorted_cons
               | apply Forall_nil | apply Forall_cons ];
  lra.

(* ================================================================= *)
(** ** Basic facts about the Python primitives *)

Section PyFacts.

Lemma len_nonneg {A : Type} (l : list A) : (0 <= len l)%Z.
Proof. unfold len; lia. Qed.

Lemma IZR_len {A : Type} (l : list A) : IZR (len l) = INR (length l).
Proof. unfold len; now rewrite <- INR_IZR_INZ. Qed.

Lemma len_zero_iff {A : Type} (l : list A) :
  (len l =? 0)%Z = true <-> l = [].
Proof.
  unfold len; rewrite Z.eqb_eq; destruct l; simpl; split; intros; try easy; lia.
Qed.

Lemma len_eqb_nonempty {A : Type} (l : list A) :
  l <> [] -> (len l =? 0)%Z = false.
Proof. intros H; destruct l; [easy|reflexivity]. Qed.

Lemma len_gtb_nonempty {A : Type} (l : list A) :
  l <> [] -> (len l >? 0)%Z = true.
Proof. intros H; destruct l; [easy|reflexivity]. Qed.

Lemma fold_left_Rplus_acc (l : list R) (a : R) :
  fold_left Rplus l a = a + fold_left Rplus l 0.
Proof.
  revert a; induction l as [|x l IH]; intros a; simpl.
  - lra.
  - rewrite (IH (a + x)), (IH (0 + x)); lra.
Qed.

Lemma sum_nil : sum [] = 0.
Proof. reflexivity. Qed.

Lemma sum_cons (x : R) (l : list R) : sum (x :: l) = x + sum l.
Proof. unfold sum; simpl; rewrite fold_left_Rplus_acc; lra. Qed.

Lemma sum_app (l1 l2 : list R) : sum (l1 ++ l2) = sum l1 + sum l2.
Proof.
  induction l1 as [|x l1 IH]; simpl.
  - rewrite sum_nil; lra.
  - rewrite !sum_cons, IH; lra.
Qed.

Lemma sum_list_sum (l : list R) : sum l = Spec.list_sum l.
Proof.
  induction l as [|x l IH]; [reflexivity|].
  rewrite sum_cons, IH; reflexivity.
Qed.

(** *** Truncation and rounding *)

Lemma Int_part_bounds (x : R) :
  IZR (Int_part x) <= x < IZR (Int_part x) + 1.
Proof. destruct (base_Int_part x); lra. Qed.

Lemma Int_part_unique (x : R) (z : Z) :
  IZR z <= x < IZR z + 1 -> Int_part x = z.
Proof. intros H; symmetry; apply Int_part_spec; lra. Qed.

Lemma Int_part_IZR (z : Z) : Int_part (IZR z) = z.
Proof. apply Int_part_unique; lra. Qed.

Lemma Int_part_mono (x y : R) : x <= y -> (Int_part x <= Int_part y)%Z.
Proof.
  intros H.
  destruct (Int_part_bounds x) as [Hx _], (Int_part_bounds y) as [_ Hy].
  apply Z.lt_succ_r, lt_IZR; rewrite succ_IZR; lra.
Qed.

Lemma Int_part_nonneg (x : R) : 0 <= x -> (0 <= Int_part x)%Z.
Proof. intros H; rewrite <- (Int_part_IZR 0); now apply Int_part_mono. Qed.

Lemma int_nonneg (x : R) : 0 <= x -> int x = Spec.floor x.
Proof. intros H; unfold int; destruct (Rle_dec 0 x); [reflexivity|lra]. Qed.

Lemma int_IZR (z : Z) : int (IZR z) = z.
Proof.
  unfold int; destruct (Rle_dec 0 (IZR z)).
  - apply Int_part_IZR.
  - rewrite <- opp_IZR, Int_part_IZR; lia.
Qed.

Lemma round_nonneg (x : R) : 0 <= x -> round x = IZR (Int_part (x + / 2)).
Proof. intros H; unfold round; destruct (Rle_dec 0 x); [reflexivity|lra]. Qed.

Lemma round_IZR (z : Z) : round (IZR z) = IZR z.
Proof.
  unfold round; destruct (Rle_dec 0 (IZR z)).
  - f_equal; apply Int_part_unique; lra.
  - replace (Int_part (- IZR z + / 2)) with (- z)%Z.
    + rewrite opp_IZR; lra.
    + symmetry; apply Int_part_unique; rewrite opp_IZR; lra.
Qed.

Lemma int_round_nonneg (x : R) :
  0 <= x -> int (round x) = Int_part (x + / 2).
Proof. intros H; rewrite round_nonneg by assumption; apply int_IZR. Qed.

Lemma int_round_mono (x y : R) :
  0 <= x -> x <= y -> (int (round x) <= int (round y))%Z.
Proof.
  intros Hx Hxy; rewrite !int_round_nonneg by lra; apply Int_part_mono; lra.
Qed.

(** *** Sorting *)

Lemma insert_perm (x : R) (l : list R) : Permutation (x :: l) (insert x l).
Proof.
  induction l as [|y l IH]; simpl; [reflexivity|].
  destruct (Rle_dec x y); [reflexivity|].
  rewrite perm_swap; now constructor.
Qed.

Lemma sorted_perm (l : list R) : Permutation l (sorted l).
Proof.
  induction l as [|x l IH]; simpl; [constructor|].
  rewrite <- insert_perm; now constructor.
Qed.

Lemma sorted_length (l : list R) : length (sorted l) = length l.
Proof. symmetry; apply Permutation_length, sorted_perm. Qed.

Lemma insert_ascending (x : R) (l : list R) :
  Spec.ascending l -> Spec.ascending (insert x l).
Proof.
  unfold Spec.ascending; induction 1 as [|y l Hl IH Hy]; simpl.
  - repeat constructor.
  - destruct (Rle_dec x y) as [Hxy|Hxy].
    + constructor; [now constructor|].
      constructor; [assumption|].
      eapply Forall_impl; [|exact Hy]; intros; simpl in *; lra.
    + constructor; [assumption|].
      apply (Permutation_Forall (insert_perm x l)).
      constructor; [lra|assumption].
Qed.

Lemma sorted_ascending (l : list R) : Spec.ascending (sorted l).
Proof.
  induction l as [|x l IH]; simpl; [constructor|now apply insert_ascending].
Qed.

(** An ascending list is determined by its elements: any ascending
    permutation of [l] is [sorted l], whatever algorithm produced it. *)
Lemma ascending_perm_eq (l1 l2 : list R) :
  Spec.ascending l1 -> Spec.ascending l2 -> Permutation l1 l2 -> l1 = l2.
Proof.
  unfold Spec.ascending; intros H1; revert l2.
  induction H1 as [|x l1 Hl1 IH Hx]; intros l2 H2 Hp.
  - now apply Permutation_nil in Hp.
  - destruct H2 as [|y l2 Hl2 Hy].
    + symmetry in Hp; now apply Permutation_nil in Hp.
    + assert (x = y) as ->.
      { assert (In x (y :: l2)) as Hin1
          by (eapply Permutation_in; [exact Hp|now left]).
        assert (In y (x :: l1)) as Hin2
          by (eapply Permutation_in; [symmetry; exact Hp|now left]).
        rewrite Forall_forall in Hx, Hy.
        destruct Hin1 as [->|Hin1]; [reflexivity|].
        destruct Hin2 as [->|Hin2]; [reflexivity|].
        specialize (Hx _ Hin2); specialize (Hy _ Hin1); lra. }
      f_equal; apply IH; [assumption|].
      now apply Permutation_cons_inv in Hp.
Qed.

Lemma sorted_unique (l s : list R) :
  Spec.ascending s -> Permutation l s -> sorted l = s.
Proof.
  intros Hs Hp; apply ascending_perm_eq;
    [apply sorted_ascending|assumption|].
  now rewrite <- sorted_perm.
Qed.

End PyFacts.

(* ================================================================= *)
(** ** Top-percent mean *)

Section TopPercent.

Lemma list_sum_app (l1 l2 : list R) :
  Spec.list_sum (l1 ++ l2) = Spec.list_sum l1 + Spec.list_sum l2.
Proof. rewrite <- !sum_list_sum; apply sum_app. Qed.

Lemma INR_length_pos {A : Type} (l : list A) : l <> [] -> 0 < INR (length l).
Proof.
  intros H; destruct l as [|a l]; [easy|].
  apply lt_0_INR; simpl; lia.
Qed.

(** For a non-empty sample and a threshold in (0, 100] the product
    [len * (1 - t/100)] lies in [0, len). *)
Lemma cut_arg_bounds (n t : R) :
  0 < n -> 0 < t <= 100 -> 0 <= n * (1 - t / 100) < n.
Proof. intros Hn Ht; split; nra. Qed.

Lemma cut_bounds (sample : list R) (t : R) :
  sample <> [] -> 0 < t <= 100 ->
  (0 <= Spec.cut sample t < len sample)%Z.
Proof.
  intros Hne Ht; unfold Spec.cut, Spec.floor.
  pose proof (INR_length_pos sample Hne) as Hn.
  destruct (cut_arg_bounds _ _ Hn Ht) as [H0 H1].
  split; [now apply Int_part_nonneg|].
  apply lt_IZR; rewrite IZR_len.
  destruct (Int_part_bounds (INR (length sample) * (1 - t / 100))); lra.
Qed.

(** The code's [threshold_idx] is the specification's [cut]. *)
Lemma threshold_idx_cut (sample : list R) (t : R) :
  sample <> [] -> 0 < t <= 100 ->
  threshold_idx (sorted sample) t = Spec.cut sample t.
Proof.
  intros Hne Ht; unfold threshold_idx, Spec.cut.
  rewrite IZR_len, sorted_length.
  apply int_nonneg.
  apply cut_arg_bounds; [now apply INR_length_pos|assumption].
Qed.

Lemma slice_from_nonneg {A : Type} (l : list A) (i : Z) :
  (0 <= i)%Z -> slice_from l i = skipn (Z.to_nat i) l.
Proof.
  intros Hi; unfold slice_from, slice_index.
  destruct (Z.ltb_spec i 0); [lia|].
  destruct (Z.le_gt_cases i (len l)).
  - now rewrite Z.min_l.
  - rewrite Z.min_r by lia.
    rewrite !skipn_all2; [reflexivity| |]; unfold len in *; lia.
Qed.

Lemma top_values_skipn (sample : list R) (t : R) :
  sample <> [] -> 0 < t <= 100 ->
  top_values sample t = skipn (Z.to_nat (Spec.cut sample t)) (sorted sample).
Proof.
  intros Hne Ht; unfold top_values.
  rewrite threshold_idx_cut by assumption.
  apply slice_from_nonneg, cut_bounds; assumption.
Qed.

Lemma top_values_length (sample : list R) (t : R) :
  sample <> [] -> 0 < t <= 100 ->
  length (top_values sample t)
  = (length sample - Z.to_nat (Spec.cut sample t))%nat.
Proof.
  intros Hne Ht; rewrite top_values_skipn by assumption.
  now rewrite length_skipn, sorted_length.
Qed.

Lemma top_values_nonempty (sample : list R) (t : R) :
  sample <> [] -> 0 < t <= 100 -> top_values sample t <> [].
Proof.
  intros Hne Ht Hnil.
  pose proof (top_values_length sample t Hne Ht) as Hlen.
  pose proof (cut_bounds sample t Hne Ht) as Hc.
  rewrite Hnil in Hlen; simpl in Hlen; unfold len in Hc; lia.
Qed.

Lemma truediv_len (s : R) (l : list R) :
  l <> [] -> truediv s (IZR (len l)) = Ok (s / INR (length l)).
Proof.
  intros Hne; unfold truediv; rewrite IZR_len.
  pose proof (INR_length_pos l Hne).
  destruct (Req_dec_T (INR (length l)) 0); [lra|reflexivity].
Qed.

Lemma truediv_len_nil (s : R) :
  truediv s (IZR (len (@nil R))) = Raise ZeroDivisionError.
Proof.
  unfold truediv, len; simpl.
  destruct (Req_dec_T 0 0); [reflexivity|lra].
Qed.

Lemma top_percent_mean_ok (sample : list R) (t : R) :
  sample <> [] -> 0 < t <= 100 ->
  top_percent_mean sample t = Ok (Spec.mean_of (top_values sample t)).
Proof.
  intros Hne Ht; unfold top_percent_mean, Spec.mean_of.
  rewrite truediv_len by now apply top_values_nonempty.
  now rewrite sum_list_sum.
Qed.

(** In an ascending list every element of a prefix is at most every element
    of the rest. *)
Lemma ascending_app_le (l1 l2 : list R) :
  Spec.ascending (l1 ++ l2) ->
  forall a b, In a l1 -> In b l2 -> a <= b.
Proof.
  unfold Spec.ascending; induction l1 as [|x l1 IH]; simpl; intros H a b Ha Hb.
  - contradiction.
  - inversion H as [|? ? Hs Hx]; subst.
    destruct Ha as [->|Ha].
    + rewrite Forall_forall in Hx; apply Hx, in_or_app; now right.
    + now apply IH.
Qed.

Lemma ascending_app_r (l1 l2 : list R) :
  Spec.ascending (l1 ++ l2) -> Spec.ascending l2.
Proof.
  unfold Spec.ascending; induction l1 as [|x l1 IH]; simpl; intros H.
  - assumption.
  - inversion H; subst; now apply IH.
Qed.

Lemma ascending_skipn (n : nat) (l : list R) :
  Spec.ascending l -> Spec.ascending (skipn n l).
Proof.
  intros H; rewrite <- (firstn_skipn n l) in H.
  now apply ascending_app_r in H.
Qed.

(** A value below every element of [l] is below its mean, in product form. *)
Lemma lower_bound_sum (a : R) (l : list R) :
  (forall b, In b l -> a <= b) -> a * INR (length l) <= Spec.list_sum l.
Proof.
  induction l as [|b l IH]; intros H.
  - simpl; lra.
  - change (length (b :: l)) with (S (length l)); rewrite S_INR.
    change (Spec.list_sum (b :: l)) with (b + Spec.list_sum l).
    assert (a <= b) by (apply H; now left).
    assert (a * INR (length l) <= Spec.list_sum l)
      by (apply IH; intros; apply H; now right).
    lra.
Qed.

Lemma sums_cross (l1 l2 : list R) :
  (forall a b, In a l1 -> In b l2 -> a <= b) ->
  Spec.list_sum l1 * INR (length l2) <= INR (length l1) * Spec.list_sum l2.
Proof.
  induction l1 as [|a l1 IH]; intros H.
  - simpl; lra.
  - change (length (a :: l1)) with (S (length l1)); rewrite S_INR.
    change (Spec.list_sum (a :: l1)) with (a + Spec.list_sum l1).
    assert (a * INR (length l2) <= Spec.list_sum l2)
      by (apply lower_bound_sum; intros; apply H; [now left|assumption]).
    assert (Spec.list_sum l1 * INR (length l2)
            <= INR (length l1) * Spec.list_sum l2)
      by (apply IH; intros; apply H; [now right|assumption]).
    lra.
Qed.

Lemma Rdiv_le_cross (a b c d : R) :
  0 < b -> 0 < d -> a * d <= c * b -> a / b <= c / d.
Proof.
  intros Hb Hd H.
  apply (Rmult_le_reg_r (b * d)); [nra|].
  replace (a / b * (b * d)) with (a * d) by (field; lra).
  replace (c / d * (b * d)) with (c * b) by (field; lra).
  assumption.
Qed.

(** Dropping a lower part of the values cannot lower the mean. *)
Lemma mean_app_le (l1 l2 : list R) :
  l2 <> [] ->
  (forall a b, In a l1 -> In b l2 -> a <= b) ->
  Spec.mean_of (l1 ++ l2) <= Spec.mean_of l2.
Proof.
  intros Hne H; unfold Spec.mean_of.
  pose proof (INR_length_pos l2 Hne) as Hpos.
  pose proof (pos_INR (length l1)) as Hpos1.
  pose proof (sums_cross l1 l2 H) as Hc.
  rewrite list_sum_app, length_app, plus_INR.
  apply Rdiv_le_cross; lra.
Qed.

Lemma cut_antitone (sample : list R) (t1 t2 : R) :
  t1 <= t2 -> (Spec.cut sample t2 <= Spec.cut sample t1)%Z.
Proof.
  intros H; unfold Spec.cut, Spec.floor; apply Int_part_mono.
  pose proof (pos_INR (length sample)); nra.
Qed.

Lemma skipn_split {A : Type} (i j : nat) (l : list A) :
  (i <= j)%nat -> skipn i l = firstn (j - i) (skipn i l) ++ skipn j l.
Proof.
  intros Hij.
  rewrite <- (firstn_skipn (j - i) (skipn i l)) at 1.
  f_equal; rewrite skipn_skipn; f_equal; lia.
Qed.

End TopPercent.

(* ================================================================= *)
(** ** Polyline to profile mapping *)

Section Polyline.

Lemma getitem_nat {A : Type} (l : list A) (i : nat) :
  getitem l (Z.of_nat i)
  = match nth_error l i with Some a => Ok a | None => Raise IndexError end.
Proof.
  unfold getitem.
  destruct (Z.ltb_spec (Z.of_nat i) 0); [lia|].
  destruct (Z.ltb_spec (Z.of_nat i) 0); [lia|].
  now rewrite Nat2Z.id.
Qed.

Lemma getitem_nth {A : Type} (l : list A) (i : nat) (d : A) :
  (i < length l)%nat -> getitem l (Z.of_nat i) = Ok (nth i l d).
Proof.
  intros Hi; rewrite getitem_nat.
  now rewrite (nth_error_nth' l d Hi).
Qed.

Lemma getitem_pred {A : Type} (l : list A) (i : nat) (d : A) :
  (i < length l)%nat -> getitem l (Z.of_nat (S i) - 1) = Ok (nth i l d).
Proof.
  intros Hi; replace (Z.of_nat (S i) - 1)%Z with (Z.of_nat i) by lia.
  now apply getitem_nth.
Qed.

Lemma getitem_succ {A : Type} (l : list A) (i : nat) (d : A) :
  (S i < length l)%nat -> getitem l (Z.of_nat i + 1) = Ok (nth (S i) l d).
Proof.
  intros Hi; replace (Z.of_nat i + 1)%Z with (Z.of_nat (S i)) by lia.
  now apply getitem_nth.
Qed.

Lemma getitem_nonneg {A : Type} (l : list A) (i : Z) (d : A) :
  (0 <= i < len l)%Z -> getitem l i = Ok (nth (Z.to_nat i) l d).
Proof.
  intros Hi; rewrite <- (Z2Nat.id i) at 1 by lia.
  apply getitem_nth; unfold len in Hi; lia.
Qed.

Lemma x_of_nth (anchors : list Spec.Anchor) (i : nat) :
  nth i (Spec.x_of anchors) 0%Z = fst (nth i anchors (0, 0)%Z).
Proof. unfold Spec.x_of; apply (map_nth fst anchors (0, 0)%Z). Qed.

Lemma y_of_nth (anchors : list Spec.Anchor) (i : nat) :
  nth i (Spec.y_of anchors) 0%Z = snd (nth i anchors (0, 0)%Z).
Proof. unfold Spec.y_of; apply (map_nth snd anchors (0, 0)%Z). Qed.

Lemma math_sqrt_squares (dx dy : Z) :
  math_sqrt (IZR (dx * dx + dy * dy)) = Ok (sqrt (IZR (dx * dx + dy * dy))).
Proof.
  unfold math_sqrt.
  assert (0 <= IZR (dx * dx + dy * dy)) by (apply IZR_le; nia).
  destruct (Rlt_dec (IZR (dx * dx + dy * dy)) 0); [lra|reflexivity].
Qed.

Lemma dist_nonneg (p q : Spec.Anchor) : 0 <= Spec.dist p q.
Proof. apply sqrt_pos. Qed.

Lemma dist_same (p : Spec.Anchor) : Spec.dist p p = 0.
Proof.
  unfold Spec.dist.
  replace ((fst p - fst p) * (fst p - fst p)
           + (snd p - snd p) * (snd p - snd p))%Z with 0%Z by lia.
  apply sqrt_0.
Qed.

Lemma D_step_le (anchors : list Spec.Anchor) (i : nat) :
  Spec.D anchors i <= Spec.D anchors (S i).
Proof. simpl; pose proof (dist_nonneg (nth i anchors (0, 0)%Z)
                            (nth (S i) anchors (0, 0)%Z)); lra. Qed.

Lemma D_mono (anchors : list Spec.Anchor) (i j : nat) :
  (i <= j)%nat -> Spec.D anchors i <= Spec.D anchors j.
Proof.
  induction 1 as [|j Hij IH]; [lra|].
  pose proof (D_step_le anchors j); lra.
Qed.

Lemma D_nonneg (anchors : list Spec.Anchor) (i : nat) : 0 <= Spec.D anchors i.
Proof. apply (D_mono anchors 0 i); lia. Qed.

(** The first loop computes the cumulative distances [D]. *)
Lemma distances_loop_D (anchors : list Spec.Anchor) (m j : nat)
    (acc : list R) :
  (S j + m <= length anchors)%nat ->
  distances_loop (Spec.x_of anchors) (Spec.y_of anchors) (seq (S j) m)
    (Spec.D anchors j) acc
  = Ok (Spec.D anchors (j + m),
        acc ++ map (Spec.D anchors) (seq (S j) m)).
Proof.
  revert j acc; induction m as [|m IH]; intros j acc Hlen.
  - simpl; now rewrite Nat.add_0_r, app_nil_r.
  - assert (Hx : length (Spec.x_of anchors) = length anchors)
      by apply length_map.
    assert (Hy : length (Spec.y_of anchors) = length anchors)
      by apply length_map.
    cbn [seq distances_loop].
    rewrite (getitem_nth _ (S j) 0%Z), (getitem_pred _ j 0%Z) by lia.
    rewrite (getitem_nth _ (S j) 0%Z), (getitem_pred _ j 0%Z) by lia.
    cbn [bind].
    rewrite math_sqrt_squares; cbn [bind].
    rewrite !x_of_nth, !y_of_nth.
    change (Spec.D anchors j + _) with (Spec.D anchors (S j)).
    rewrite IH by lia.
    rewrite <- app_assoc; cbn [app map].
    do 3 f_equal; lia.
Qed.

Lemma truediv_nonzero (a b : R) : b <> 0 -> truediv a b = Ok (a / b).
Proof. intros H; unfold truediv; destruct (Req_dec_T b 0); easy. Qed.

Lemma truediv_zero (a : R) : truediv a 0 = Raise ZeroDivisionError.
Proof. unfold truediv; destruct (Req_dec_T 0 0); easy. Qed.

Lemma boundaries_loop_map (ds : list R) (total : R) (L : Z) (m k : nat)
    (acc : list Z) :
  total <> 0 -> (k + m <= length ds)%nat ->
  boundaries_loop ds total L (seq k m) acc
  = Ok (acc ++ map (fun i => index_of total L (nth i ds 0)) (seq k m)).
Proof.
  intros Ht; revert k acc; induction m as [|m IH]; intros k acc Hlen.
  - simpl; now rewrite app_nil_r.
  - cbn [seq boundaries_loop].
    rewrite (getitem_nth _ k 0) by lia; cbn [bind].
    rewrite truediv_nonzero by assumption; cbn [bind].
    rewrite IH by lia.
    rewrite <- app_assoc; reflexivity.
Qed.

(** With a zero total distance the very first division raises. *)
Lemma boundaries_loop_zero (ds : list R) (L : Z) (m k : nat) (acc : list Z) :
  (k < length ds)%nat ->
  boundaries_loop ds 0 L (seq k (S m)) acc = Raise ZeroDivisionError.
Proof.
  intros Hk; cbn [seq boundaries_loop].
  rewrite (getitem_nth _ k 0) by assumption; cbn [bind].
  now rewrite truediv_zero.
Qed.

Lemma map_D_seq (anchors : list Spec.Anchor) (n : nat) :
  [0] ++ map (Spec.D anchors) (seq 1 n) = map (Spec.D anchors) (seq 0 (S n)).
Proof. reflexivity. Qed.

(** The run of the first loop on a non-empty anchor sequence. *)
Lemma distances_run (anchors : list Spec.Anchor) :
  anchors <> [] ->
  distances_loop (Spec.x_of anchors) (Spec.y_of anchors)
    (range 1 (length (Spec.x_of anchors))) 0 [0]
  = Ok (Spec.D anchors (length anchors - 1),
        map (Spec.D anchors) (seq 0 (length anchors))).
Proof.
  intros Hne; unfold range, Spec.x_of at 2; rewrite length_map.
  destruct anchors as [|p rest]; [easy|].
  set (a := p :: rest).
  change (length a) with (S (length rest)).
  change 0 with (Spec.D a 0) at 1.
  rewrite (distances_loop_D a (S (length rest) - 1) 0) by (subst a; simpl; lia).
  rewrite map_D_seq.
  repeat f_equal; lia.
Qed.

Lemma calculate_segment_boundaries_ok (anchors : list Spec.Anchor) (L : Z) :
  anchors <> [] -> Spec.D anchors (length anchors - 1) <> 0 ->
  calculate_segment_boundaries (Spec.x_of anchors) (Spec.y_of anchors) L
  = Ok (map (fun i => index_of (Spec.D anchors (length anchors - 1)) L
                        (Spec.D anchors i))
          (seq 0 (length anchors))).
Proof.
  intros Hne Ht; unfold calculate_segment_boundaries.
  rewrite distances_run by assumption; cbn [bind].
  unfold range, Spec.x_of; rewrite length_map, Nat.sub_0_r.
  rewrite boundaries_loop_map by (rewrite ?length_map, ?length_seq; auto).
  cbn [app]; f_equal.
  apply map_ext_in; intros i Hi; apply in_seq in Hi.
  f_equal.
  rewrite (nth_indep _ 0 (Spec.D anchors 0))
    by (rewrite length_map, length_seq; lia).
  rewrite map_nth, seq_nth by lia; reflexivity.
Qed.

Lemma calculate_segment_boundaries_degenerate (anchors : list Spec.Anchor)
    (L : Z) :
  anchors <> [] -> Spec.D anchors (length anchors - 1) = 0 ->
  calculate_segment_boundaries (Spec.x_of anchors) (Spec.y_of anchors) L
  = Raise ZeroDivisionError.
Proof.
  intros Hne Ht; unfold calculate_segment_boundaries.
  rewrite distances_run by assumption; cbn [bind]; rewrite Ht.
  unfold range, Spec.x_of; rewrite length_map, Nat.sub_0_r.
  destruct anchors as [|p rest]; [easy|].
  change (length (p :: rest)) with (S (length rest)).
  apply boundaries_loop_zero.
  rewrite length_map, length_seq; lia.
Qed.

(** Coinciding anchors have zero path length. *)
Lemma D_coincide (p : Spec.Anchor) (anchors : list Spec.Anchor) (i : nat) :
  Forall (eq p) anchors -> (i < length anchors)%nat -> Spec.D anchors i = 0.
Proof.
  intros Hall; rewrite Forall_forall in Hall.
  induction i as [|i IH]; intros Hi; [reflexivity|].
  simpl; rewrite IH by lia.
  rewrite <- (Hall (nth i anchors (0, 0)%Z)) by (apply nth_In; lia).
  rewrite <- (Hall (nth (S i) anchors (0, 0)%Z)) by (apply nth_In; lia).
  rewrite dist_same; lra.
Qed.

(** Under the input constraints the index computed by the code needs no
    clamping and is the specification's boundary. *)
Lemma index_of_range (total : R) (L : Z) (d : R) :
  0 < total -> (0 < L)%Z -> 0 <= d <= total ->
  (0 <= int (round (d / total * IZR (L - 1))) <= L - 1)%Z.
Proof.
  intros Ht HL Hd.
  assert (Hq : 0 <= d / total <= 1).
  { split; [apply Rdiv_le_cross with (a := 0) (b := 1) (c := d) (d := total)
            in Ht as H'; lra|].
    apply (Rmult_le_reg_r total); [lra|].
    replace (d / total * total) with d by (field; lra); lra. }
  assert (HL1 : 0 <= IZR (L - 1)) by (apply IZR_le; lia).
  assert (Hx : 0 <= d / total * IZR (L - 1) <= IZR (L - 1)) by nra.
  rewrite int_round_nonneg by lra.
  split; [apply Int_part_nonneg; lra|].
  rewrite <- (Int_part_IZR (L - 1)) at 2.
  etransitivity; [apply Int_part_mono|].
  - apply Rplus_le_compat_r, (proj2 Hx).
  - apply Z.eq_le_incl.
    rewrite Int_part_IZR; apply Int_part_unique; lra.
Qed.

Lemma index_of_boundary (anchors : list Spec.Anchor) (L : Z) (i : nat) :
  0 < Spec.D anchors (length anchors - 1) -> (0 < L)%Z ->
  (i < length anchors)%nat ->
  index_of (Spec.D anchors (length anchors - 1)) L (Spec.D anchors i)
  = Spec.boundary anchors L i.
Proof.
  intros Ht HL Hi.
  assert (Hd : 0 <= Spec.D anchors i <= Spec.D anchors (length anchors - 1))
    by (split; [apply D_nonneg|apply D_mono; lia]).
  pose proof (index_of_range _ L _ Ht HL Hd) as Hr.
  unfold index_of, Spec.boundary, Spec.clamp.
  destruct (Z.geb_spec
              (int (round (Spec.D anchors i
                           / Spec.D anchors (length anchors - 1)
                           * IZR (L - 1)))) L); lia.
Qed.

Lemma boundary_range (anchors : list Spec.Anchor) (L : Z) (i : nat) :
  (0 < L)%Z -> (0 <= Spec.boundary anchors L i <= L - 1)%Z.
Proof. intros HL; unfold Spec.boundary, Spec.clamp; lia. Qed.

Lemma boundary_mono (anchors : list Spec.Anchor) (L : Z) (i j : nat) :
  0 < Spec.D anchors (length anchors - 1) -> (0 < L)%Z ->
  (i <= j)%nat ->
  (Spec.boundary anchors L i <= Spec.boundary anchors L j)%Z.
Proof.
  intros Ht HL Hij; unfold Spec.boundary, Spec.clamp.
  apply Z.max_le_compat_l, Z.min_le_compat_l.
  pose proof (D_nonneg anchors i) as Hi.
  pose proof (D_mono anchors i j Hij) as Hm.
  assert (HL1 : 0 <= IZR (L - 1)) by (apply IZR_le; lia).
  assert (Hinv : 0 < / Spec.D anchors (length anchors - 1))
    by now apply Rinv_0_lt_compat.
  assert (H0 : 0 <= Spec.D anchors i / Spec.D anchors (length anchors - 1))
    by (unfold Rdiv; nra).
  assert (H1 : Spec.D anchors i / Spec.D anchors (length anchors - 1)
               <= Spec.D anchors j / Spec.D anchors (length anchors - 1))
    by (unfold Rdiv; nra).
  apply int_round_mono; nra.
Qed.



End Polyline.

(* ================================================================= *)
(** ** Segment slices and the segment loop *)

Section Segments.

Lemma slice_closed (profile : list R) (a b : Z) :
  (0 <= a)%Z -> (0 <= b)%Z ->
  slice profile a (b + 1)
  = Spec.closed_slice profile (Z.to_nat a) (Z.to_nat b).
Proof.
  intros Ha Hb; unfold slice, slice_index, Spec.closed_slice.
  destruct (Z.ltb_spec a 0); [lia|].
  destruct (Z.ltb_spec (b + 1) 0); [lia|].
  pose proof (len_nonneg profile) as Hl.
  destruct (Z.le_gt_cases (len profile) a) as [Hout|Hin].
  - rewrite (Z.min_r a) by lia.
    rewrite !skipn_all2 by (unfold len in *; lia).
    now rewrite !firstn_nil.
  - rewrite (Z.min_l a) by lia.
    destruct (Z.le_gt_cases (b + 1) (len profile)).
    + rewrite Z.min_l by lia; f_equal; lia.
    + rewrite Z.min_r by lia.
      rewrite !firstn_all2; try reflexivity;
        rewrite length_skipn; unfold len in *; lia.
Qed.

Lemma closed_slice_nth_error (profile : list R) (a b k : nat) :
  nth_error (Spec.closed_slice profile a b) k
  = if (a + k <=? b)%nat then nth_error profile (a + k) else None.
Proof.
  unfold Spec.closed_slice.
  rewrite nth_error_firstn, nth_error_skipn.
  destruct (Nat.ltb_spec k (S b - a)), (Nat.leb_spec (a + k) b);
    try reflexivity; lia.
Qed.

Lemma closed_slice_length (profile : list R) (a b : nat) :
  (a <= b < length profile)%nat ->
  length (Spec.closed_slice profile a b) = (b - a + 1)%nat.
Proof.
  intros H; unfold Spec.closed_slice.
  rewrite length_firstn, length_skipn; lia.
Qed.

Lemma getitem_some {A : Type} (l : list A) (i : nat) (a : A) :
  nth_error l i = Some a -> getitem l (Z.of_nat i) = Ok a.
Proof. intros H; now rewrite getitem_nat, H. Qed.

Lemma getitem_some_succ {A : Type} (l : list A) (i : nat) (a : A) :
  nth_error l (S i) = Some a -> getitem l (Z.of_nat i + 1) = Ok a.
Proof.
  intros H; replace (Z.of_nat i + 1)%Z with (Z.of_nat (S i)) by lia.
  now apply getitem_some.
Qed.

Lemma segment_values_closed (profile : list R) (boundaries : list Z)
    (i : nat) (a b : Z) :
  nth_error boundaries i = Some a -> nth_error boundaries (S i) = Some b ->
  (0 <= a)%Z -> (0 <= b)%Z ->
  segment_values profile boundaries i
  = Ok (Spec.closed_slice profile (Z.to_nat a) (Z.to_nat b)).
Proof.
  intros Hi Hsi Ha Hb; unfold segment_values.
  rewrite (getitem_some _ _ _ Hi); cbn [bind].
  rewrite (getitem_some_succ _ _ _ Hsi); cbn [bind].
  now rewrite slice_closed.
Qed.

Lemma nonempty_true_iff {A : Type} (l : list A) :
  nonempty l = true <-> l <> [].
Proof.
  unfold nonempty; rewrite negb_true_iff, <- not_true_iff_false.
  now rewrite len_zero_iff.
Qed.

(** What a completed run of the segment loop has computed: the values of
    every segment, and one mean per non-empty segment, in order. *)
Lemma segments_loop_inv (fp : list R) (sb : list Z) (t : R)
    (segs : list nat) :
  forall sd sa sd' sa',
    segments_loop fp sb t segs sd sa = Ok (sd', sa') ->
    exists vals avgs,
      Forall2 (fun seg v => segment_values fp sb seg = Ok v) segs vals /\
      Forall2 (fun v avg => top_percent_mean v t = Ok avg)
        (filter nonempty vals) avgs /\
      sa' = sa ++ avgs /\
      map raw_values sd' = map raw_values sd ++ filter nonempty vals /\
      map stroke_average sd' = map stroke_average sd ++ avgs.
Proof.
  induction segs as [|seg rest IH]; intros sd sa sd' sa' H.
  - simpl in H; injection H as <- <-.
    exists [], []; repeat split; try constructor; now rewrite app_nil_r.
  - cbn [segments_loop] in H.
    destruct (getitem sb (Z.of_nat seg)) as [a|e] eqn:Ha;
      cbn [bind] in H; [|discriminate].
    destruct (getitem sb (Z.of_nat seg + 1)) as [b|e] eqn:Hb;
      cbn [bind] in H; [|discriminate].
    assert (Hsv : segment_values fp sb seg = Ok (slice fp a (b + 1)))
      by (unfold segment_values; now rewrite Ha, Hb).
    destruct (len (slice fp a (b + 1)) =? 0)%Z eqn:Hlen.
    + apply IH in H as (vals & avgs & Hv & Hm & Hsa & Hr & Hs).
      exists (slice fp a (b + 1) :: vals), avgs.
      split; [now constructor|].
      assert (Hn : nonempty (slice fp a (b + 1)) = false)
        by (unfold nonempty; now rewrite Hlen).
      cbn [filter]; rewrite Hn; auto.
    + destruct (truediv (sum (top_values (slice fp a (b + 1)) t))
                  (IZR (len (top_values (slice fp a (b + 1)) t))))
        as [avg|e] eqn:Hd; cbn [bind] in H; [|discriminate].
      apply IH in H as (vals & avgs & Hv & Hm & Hsa & Hr & Hs).
      exists (slice fp a (b + 1) :: vals), (avg :: avgs).
      split; [now constructor|].
      assert (Hn : nonempty (slice fp a (b + 1)) = true)
        by (unfold nonempty; now rewrite Hlen).
      cbn [filter]; rewrite Hn.
      rewrite !map_app in Hr, Hs; cbn [map raw_values stroke_average] in Hr, Hs.
      rewrite <- !app_assoc in Hr, Hs, Hsa.
      repeat split; try assumption.
      constructor; assumption.
Qed.

(** On boundaries that lie in the profile and do not decrease the loop
    completes, with one mean per segment. *)
Lemma segments_loop_total (fp : list R) (sb : list Z) (t : R)
    (segs : list nat) :
  0 < t <= 100 ->
  (forall seg, In seg segs ->
     exists a b, nth_error sb seg = Some a /\ nth_error sb (S seg) = Some b
                 /\ (0 <= a <= b)%Z /\ (b < len fp)%Z) ->
  forall sd sa,
    exists sd' sa',
      segments_loop fp sb t segs sd sa = Ok (sd', sa')
      /\ length sa' = (length sa + length segs)%nat.
Proof.
  intros Ht; induction segs as [|seg rest IH]; intros Hsegs sd sa.
  - exists sd, sa; simpl; split; [reflexivity|lia].
  - destruct (Hsegs seg (or_introl eq_refl)) as (a & b & Ha & Hb & Hab & Hbl).
    cbn [segments_loop].
    rewrite (getitem_some _ _ _ Ha); cbn [bind].
    rewrite (getitem_some_succ _ _ _ Hb); cbn [bind].
    assert (Hne : slice fp a (b + 1) <> []).
    { rewrite slice_closed by lia; intros Hnil.
      pose proof (closed_slice_length fp (Z.to_nat a) (Z.to_nat b)) as Hl.
      rewrite Hnil in Hl; unfold len in Hbl; simpl in Hl; lia. }
    destruct (len (slice fp a (b + 1)) =? 0)%Z eqn:Hlen;
      [now apply len_zero_iff in Hlen|].
    pose proof (top_percent_mean_ok _ t Hne Ht) as Hm.
    unfold top_percent_mean in Hm; cbv zeta in Hm; rewrite Hm; cbn [bind].
    edestruct IH as (sd' & sa' & Hrun & Hlen');
      [intros; apply Hsegs; now right|].
    exists sd', sa'; split; [exact Hrun|].
    rewrite Hlen', length_app; simpl; lia.
Qed.

End Segments.

(* ================================================================= *)
(** ** The measurements *)

Section Measurements.

(** What a completed nuclear-membrane measurement returns. *)
Lemma measure_nuclear_inv (self : EnhancedNuclearAnalyzer)
    (roi : option Roi) (d : nuclear_data) :
  measure_nuclear_membrane_detailed self roi = Ok (Some d) ->
  exists r vals,
    roi = Some r /\ getType r = POLYLINE
    /\ getProfile r = Some (full_profile d)
    /\ calculate_segment_boundaries (xpoints r) (ypoints r)
         (len (full_profile d)) = Ok (segment_boundaries d)
    /\ Forall2 (fun seg v =>
                  segment_values (full_profile d) (segment_boundaries d) seg
                  = Ok v)
         (range 0 (npoints r - 1)) vals
    /\ Forall2 (fun v avg =>
                  top_percent_mean v (threshold_percentage self) = Ok avg)
         (filter nonempty vals) (stroke_averages d)
    /\ map raw_values (stroke_data d) = filter nonempty vals
    /\ stroke_averages d <> []
    /\ overall_mean d = Spec.mean_of (stroke_averages d).
Proof.
  unfold measure_nuclear_membrane_detailed; intros H.
  destruct roi as [r|]; [|discriminate].
  destruct (getType r) eqn:Hty; [|discriminate].
  destruct (npoints r <? 2)%nat; [discriminate|].
  destruct (getProfile r) as [fp|] eqn:Hfp; [|discriminate].
  destruct (len fp =? 0)%Z; [discriminate|].
  destruct (calculate_segment_boundaries (xpoints r) (ypoints r) (len fp))
    as [sb|e] eqn:Hsb; cbn [bind] in H; [|discriminate].
  destruct (segments_loop fp sb (threshold_percentage self)
              (range 0 (npoints r - 1)) [] []) as [[sd sa]|e] eqn:Hloop;
    cbn [bind] in H; [|discriminate].
  destruct (len sa =? 0)%Z eqn:Hsa; [discriminate|].
  assert (Hne : sa <> [])
    by (intros ->; unfold len in Hsa; simpl in Hsa; discriminate).
  rewrite truediv_len in H by assumption; cbn [bind] in H.
  injection H as <-; cbn.
  apply segments_loop_inv in Hloop as (vals & avgs & Hv & Hm & -> & Hr & _).
  exists r, vals; cbn [app] in *.
  rewrite sum_list_sum; repeat split; assumption.
Qed.

(** A polyline of at least two anchors with positive length over a
    non-empty profile is always measured. *)
Lemma measure_nuclear_completes (self : EnhancedNuclearAnalyzer)
    (anchors : list Spec.Anchor) (profile : list R) :
  (2 <= length anchors)%nat ->
  0 < Spec.D anchors (length anchors - 1) ->
  profile <> [] ->
  0 < threshold_percentage self <= 100 ->
  exists d,
    measure_nuclear_membrane_detailed self
      (Some (polyline_roi anchors profile)) = Ok (Some d)
    /\ length (stroke_averages d) = (length anchors - 1)%nat.
Proof.
  intros Hn HD Hp Ht.
  assert (Hne : anchors <> []) by (intros ->; simpl in Hn; lia).
  assert (HL : (0 < len profile)%Z)
    by (destruct profile; [easy|unfold len; simpl; lia]).
  unfold measure_nuclear_membrane_detailed, polyline_roi.
  cbn [getType xpoints ypoints npoints getProfile].
  destruct (Nat.ltb_spec (length anchors) 2); [lia|].
  destruct (len profile =? 0)%Z eqn:Hlen; [apply len_zero_iff in Hlen; easy|].
  rewrite calculate_segment_boundaries_ok by (try assumption; lra).
  cbn [bind].
  set (sb := map _ (seq 0 (length anchors))).
  assert (Hsb : forall i, (i < length anchors)%nat ->
                  nth_error sb i
                  = Some (Spec.boundary anchors (len profile) i)).
  { intros i Hi; unfold sb.
    rewrite nth_error_map, nth_error_nth' with (d := O)
      by (rewrite length_seq; lia).
    rewrite seq_nth by lia; cbn [option_map]; f_equal.
    now apply index_of_boundary. }
  destruct (segments_loop_total profile sb (threshold_percentage self)
              (range 0 (length anchors - 1)) Ht) with (sd := @nil stroke_info)
    (sa := @nil R) as (sd' & sa' & Hrun & Hlen').
  { intros seg Hseg; apply in_seq in Hseg.
    exists (Spec.boundary anchors (len profile) seg),
           (Spec.boundary anchors (len profile) (S seg)).
    rewrite !Hsb by lia.
    pose proof (boundary_range anchors (len profile) seg HL).
    pose proof (boundary_range anchors (len profile) (S seg) HL).
    pose proof (boundary_mono anchors (len profile) seg (S seg) HD HL).
    repeat split; try reflexivity; lia. }
  rewrite Hrun; cbn [bind].
  unfold range in Hlen'; rewrite length_seq in Hlen'; simpl in Hlen'.
  assert (Hsa : sa' <> []) by (intros ->; simpl in Hlen'; lia).
  destruct (len sa' =? 0)%Z eqn:Hz; [now apply len_zero_iff in Hz|].
  rewrite truediv_len by assumption; cbn [bind].
  eexists; split; [reflexivity|]; cbn; lia.
Qed.

(** The recalculation loop never raises: a stroke without values, or
    without top values, is skipped. *)
Lemma recalculate_loop_spec (strokes : list stroke_info) (t : R)
    (acc : list R) :
  recalculate_loop strokes t acc
  = Ok (acc ++ map (fun v => Spec.mean_of (top_values v t))
                 (filter (fun v => nonempty v && nonempty (top_values v t))
                    (map raw_values strokes))).
Proof.
  revert acc; induction strokes as [|s rest IH]; intros acc.
  - simpl; now rewrite app_nil_r.
  - cbn [recalculate_loop map filter]; unfold nonempty at 1 2.
    destruct (len (raw_values s) =? 0)%Z; cbn [negb andb]; [apply IH|].
    destruct (top_values (raw_values s) t) as [|x top] eqn:Htop.
    + cbn; apply IH.
    + rewrite <- Htop.
      assert (Hne : top_values (raw_values s) t <> [])
        by (rewrite Htop; discriminate).
      pose proof (len_gtb_nonempty _ Hne) as Hpos.
      pose proof (len_eqb_nonempty _ Hne) as Hz.
      rewrite Hpos, Hz, truediv_len by assumption; cbn [bind negb map].
      rewrite IH, <- app_assoc, sum_list_sum; reflexivity.
Qed.




End Measurements.

(* ================================================================= *)
(** ** Standard error *)

Section StandardError.

Lemma squares_sum_nonneg (m : R) (l : list R) :
  0 <= Spec.list_sum (map (fun x => (x - m) ^ 2) l).
Proof.
  induction l as [|x l IH]; simpl; [lra|].
  pose proof (pow2_ge_0 (x - m)); simpl in *; lra.
Qed.

Lemma sample_variance_nonneg (l : list R) :
  (2 <= length l)%nat -> 0 <= Spec.sample_variance l.
Proof.
  intros Hn; unfold Spec.sample_variance.
  assert (1 < INR (length l)) by (apply (lt_INR 1); lia).
  apply Rmult_le_pos; [apply squares_sum_nonneg|].
  apply Rlt_le, Rinv_0_lt_compat; lra.
Qed.

Lemma calculate_se_small (data : list R) :
  (length data <= 1)%nat -> calculate_se data = Ok 0.
Proof.
  intros Hn; unfold calculate_se.
  destruct (Z.leb_spec (len data) 1); [reflexivity|unfold len in *; lia].
Qed.

Lemma calculate_se_large (data : list R) :
  (2 <= length data)%nat ->
  calculate_se data = Ok (Spec.standard_error data).
Proof.
  intros Hn; unfold calculate_se.
  destruct (Z.leb_spec (len data) 1); [unfold len in *; lia|].
  assert (Hne : data <> []) by (intros ->; simpl in Hn; lia).
  assert (Hgt : 1 < INR (length data)) by (apply (lt_INR 1); lia).
  rewrite truediv_len by assumption; cbn [bind].
  rewrite minus_IZR, IZR_len.
  rewrite truediv_nonzero by lra; cbn [bind].
  rewrite !sum_list_sum.
  change (Spec.list_sum data / INR (length data)) with (Spec.mean_of data).
  change (Spec.list_sum _ / (INR (length data) - 1))
    with (Spec.sample_variance data).
  pose proof (sample_variance_nonneg data Hn) as Hv.
  unfold math_sqrt.
  destruct (Rlt_dec (Spec.sample_variance data) 0); [lra|]; cbn [bind].
  destruct (Rlt_dec (INR (length data)) 0); [lra|]; cbn [bind].
  assert (0 < sqrt (INR (length data))) by (apply sqrt_lt_R0; lra).
  rewrite truediv_nonzero by lra; reflexivity.
Qed.

Lemma sqrt_IZR_square (z : Z) : (0 <= z)%Z -> sqrt (IZR (z * z)) = IZR z.
Proof. intros Hz; rewrite mult_IZR; apply sqrt_square, IZR_le, Hz. Qed.

Lemma standard_error_2_4_6 : Spec.standard_error [2; 4; 6] = 2 / sqrt 3.
Proof.
  unfold Spec.standard_error.
  assert (Hv : Spec.sample_variance [2; 4; 6] = IZR (2 * 2)).
  { unfold Spec.sample_variance, Spec.mean_of; simpl; field. }
  rewrite Hv, sqrt_IZR_square by lia.
  f_equal; f_equal; simpl; ring.
Qed.

End StandardError.

(* ================================================================= *)
(** ** Worked examples: evaluation helpers *)

Section Examples.

Lemma cut_eval (sample : list R) (t : R) (z : Z) :
  IZR z <= INR (length sample) * (1 - t / 100) < IZR z + 1 ->
  Spec.cut sample t = z.
Proof. intros H; unfold Spec.cut, Spec.floor; now apply Int_part_unique. Qed.

Lemma sorted_sample_1_to_10 : sorted sample_1_to_10 = sample_1_to_10.
Proof.
  apply sorted_unique; [|reflexivity].
  unfold sample_1_to_10; ascending_by_lra.
Qed.

Lemma sorted_3_1_2 : sorted [3; 1; 2] = [1; 2; 3].
Proof.
  apply sorted_unique; [ascending_by_lra|].
  eapply perm_trans; [apply perm_swap|apply perm_skip, perm_swap].
Qed.

Lemma top_percent_mean_eval (sample top : list R) (t m : R) (z : Z) :
  sample <> [] -> 0 < t <= 100 ->
  IZR z <= INR (length sample) * (1 - t / 100) < IZR z + 1 ->
  skipn (Z.to_nat z) (sorted sample) = top ->
  Spec.mean_of top = m ->
  top_values sample t = top /\ top_percent_mean sample t = Ok m.
Proof.
  intros Hne Ht Hz Htop Hm.
  assert (Hv : top_values sample t = top)
    by (rewrite top_values_skipn, (cut_eval _ _ _ Hz) by assumption;
        exact Htop).
  split; [assumption|].
  rewrite top_percent_mean_ok, Hv, Hm by assumption; reflexivity.
Qed.

Lemma top_percent_mean_1_to_10_50 :
  top_values sample_1_to_10 50 = [6; 7; 8; 9; 10]
  /\ top_percent_mean sample_1_to_10 50 = Ok 8.
Proof.
  apply (top_percent_mean_eval sample_1_to_10 _ 50 _ 5);
    [discriminate|lra|simpl; lra|now rewrite sorted_sample_1_to_10|].
  unfold Spec.mean_of; simpl; field.
Qed.

Lemma top_percent_mean_1_to_10_10 :
  top_values sample_1_to_10 10 = [10]
  /\ top_percent_mean sample_1_to_10 10 = Ok 10.
Proof.
  apply (top_percent_mean_eval sample_1_to_10 _ 10 _ 9);
    [discriminate|lra|simpl; lra|now rewrite sorted_sample_1_to_10|].
  unfold Spec.mean_of; simpl; field.
Qed.

(** Outside the input constraint the selection can be empty: with a zero
    threshold the code divides by zero. *)
Lemma top_percent_mean_zero_threshold :
  top_percent_mean [1] 0 = Raise ZeroDivisionError.
Proof.
  unfold top_percent_mean, top_values, threshold_idx; cbn [sorted insert].
  replace (IZR (len [1]) * (1 - 0 / 100)) with (IZR 1)
    by (unfold len; simpl; lra).
  rewrite int_IZR; cbn.
  apply truediv_len_nil.
Qed.

Lemma dist_horizontal (x1 x2 y : Z) :
  (x1 <= x2)%Z -> Spec.dist (x1, y) (x2, y) = IZR (x2 - x1).
Proof.
  intros H; unfold Spec.dist; cbn [fst snd].
  replace ((x2 - x1) * (x2 - x1) + (y - y) * (y - y))%Z
    with ((x2 - x1) * (x2 - x1))%Z by ring.
  apply sqrt_IZR_square; lia.
Qed.

Lemma D_colinear :
  Spec.D colinear_anchors 1 = 5 /\ Spec.D colinear_anchors 2 = 10.
Proof.
  unfold colinear_anchors; cbn [Spec.D nth].
  rewrite !dist_horizontal by lia; simpl; split; lra.
Qed.

Lemma index_of_bounds (total : R) (L z : Z) (d : R) :
  0 <= d / total * IZR (L - 1) ->
  IZR z <= d / total * IZR (L - 1) + / 2 < IZR z + 1 ->
  (z < L)%Z ->
  index_of total L d = z.
Proof.
  intros H0 Hz HL; unfold index_of.
  rewrite int_round_nonneg by assumption.
  rewrite (Int_part_unique _ z Hz).
  destruct (Z.geb_spec z L); [lia|reflexivity].
Qed.

(** *** A complete nuclear-membrane measurement

    Anchors (0,0), (2,0), (10,0) over the profile 1..10 at the default
    threshold of 50 percent: the boundaries are 0, 2 and 9, the segments are
    [1,2,3] and [3,...,10] (the pixel at index 2 is in both), the
    per-segment means are 2.5 and 8.5. *)

Lemma D_uneven : Spec.D uneven_anchors 1 = 2 /\ Spec.D uneven_anchors 2 = 10.
Proof.
  unfold uneven_anchors; cbn [Spec.D nth].
  rewrite !dist_horizontal by lia; simpl; split; lra.
Qed.

Lemma segment_boundaries_uneven :
  calculate_segment_boundaries (Spec.x_of uneven_anchors)
    (Spec.y_of uneven_anchors) 10 = Ok [0; 2; 9]%Z.
Proof.
  destruct D_uneven as [H1 H2].
  assert (HD : Spec.D uneven_anchors (length uneven_anchors - 1) = 10)
    by exact H2.
  rewrite calculate_segment_boundaries_ok; [|discriminate|rewrite HD; lra].
  rewrite HD.
  change (seq 0 (length uneven_anchors)) with [0; 1; 2]%nat.
  cbn [map]; rewrite H1, H2; change (Spec.D uneven_anchors 0) with 0.
  rewrite (index_of_bounds 10 10 0 0), (index_of_bounds 10 10 2 2),
    (index_of_bounds 10 10 9 10); try reflexivity; try lia;
    simpl; lra.
Qed.

Lemma segments_loop_step (fp : list R) (sb : list Z) (t : R) (seg : nat)
    (rest : list nat) (sd : list stroke_info) (sa : list R) (a b : Z)
    (vals : list R) (avg : R) :
  nth_error sb seg = Some a -> nth_error sb (S seg) = Some b ->
  slice fp a (b + 1) = vals -> vals <> [] ->
  top_percent_mean vals t = Ok avg ->
  segments_loop fp sb t (seg :: rest) sd sa
  = segments_loop fp sb t rest
      (sd ++ [{| segment_number := Z.of_nat seg + 1;
                 start_index := a;
                 end_index := b;
                 raw_values := vals;
                 stroke_top_values := top_values vals t;
                 stroke_average := avg |}])
      (sa ++ [avg]).
Proof.
  intros Ha Hb Hv Hne Hm; cbn [segments_loop].
  rewrite (getitem_some _ _ _ Ha); cbn [bind].
  rewrite (getitem_some_succ _ _ _ Hb); cbn [bind].
  rewrite Hv, (len_eqb_nonempty _ Hne).
  unfold top_percent_mean in Hm; cbv zeta in Hm; rewrite Hm; reflexivity.
Qed.

Lemma top_percent_mean_1_2_3 :
  top_values [1; 2; 3] 50 = [2; 3]
  /\ top_percent_mean [1; 2; 3] 50 = Ok (5 / 2).
Proof.
  apply (top_percent_mean_eval [1; 2; 3] _ 50 _ 1);
    [discriminate|lra|simpl; lra| |unfold Spec.mean_of; simpl; field].
  rewrite (sorted_unique [1; 2; 3] [1; 2; 3]);
    [reflexivity|ascending_by_lra|reflexivity].
Qed.

Lemma top_percent_mean_3_to_10 :
  top_values [3; 4; 5; 6; 7; 8; 9; 10] 50 = [7; 8; 9; 10]
  /\ top_percent_mean [3; 4; 5; 6; 7; 8; 9; 10] 50 = Ok (17 / 2).
Proof.
  apply (top_percent_mean_eval [3; 4; 5; 6; 7; 8; 9; 10] _ 50 _ 4);
    [discriminate|lra|simpl; lra| |unfold Spec.mean_of; simpl; field].
  rewrite (sorted_unique [3; 4; 5; 6; 7; 8; 9; 10]
             [3; 4; 5; 6; 7; 8; 9; 10]);
    [reflexivity|ascending_by_lra|reflexivity].
Qed.

Lemma measure_nuclear_uneven :
  exists d,
    measure_nuclear_membrane_detailed init
      (Some (polyline_roi uneven_anchors sample_1_to_10)) = Ok (Some d)
    /\ segment_boundaries d = [0; 2; 9]%Z
    /\ map raw_values (stroke_data d)
       = [[1; 2; 3]; [3; 4; 5; 6; 7; 8; 9; 10]]
    /\ map stroke_top_values (stroke_data d) = [[2; 3]; [7; 8; 9; 10]]
    /\ stroke_averages d = [5 / 2; 17 / 2]
    /\ overall_mean d = 11 / 2.
Proof.
  destruct top_percent_mean_1_2_3 as [Ht1 Hm1].
  destruct top_percent_mean_3_to_10 as [Ht2 Hm2].
  unfold measure_nuclear_membrane_detailed, polyline_roi.
  cbn [getType xpoints ypoints npoints getProfile].
  change (length uneven_anchors <? 2)%nat with false.
  change (len sample_1_to_10 =? 0)%Z with false.
  change (len sample_1_to_10) with 10%Z.
  rewrite segment_boundaries_uneven; cbn [bind threshold_percentage init].
  change (range 0 (length uneven_anchors - 1)) with [0; 1]%nat.
  rewrite (segments_loop_step _ _ _ 0 _ _ _ 0 2 [1; 2; 3] (5 / 2));
    [|reflexivity|reflexivity|reflexivity|discriminate|exact Hm1].
  rewrite (segments_loop_step _ _ _ 1 _ _ _ 2 9
             [3; 4; 5; 6; 7; 8; 9; 10] (17 / 2));
    [|reflexivity|reflexivity|reflexivity|discriminate|exact Hm2].
  cbn [segments_loop bind app].
  change (len [5 / 2; 17 / 2] =? 0)%Z with false.
  rewrite truediv_len by discriminate; cbn [bind].
  eexists; split; [reflexivity|].
  cbn [segment_boundaries stroke_data stroke_averages overall_mean map
       raw_values stroke_top_values].
  rewrite Ht1, Ht2; repeat split.
  rewrite sum_list_sum; simpl; field.
Qed.

End Examples.

(* ================================================================= *)
(** ** The claims

    The claims that do not depend on the rounding follow; those that do
    (C1, C2, C4, C6 and C9) are settled at the double-precision level, at
    the end of the file. *)

(** C3: the degenerate polyline is not guarded.  When all anchors of a
    non-empty sequence coincide, that is when the total distance [D(n-1)]
    is zero, [calculate_segment_boundaries] divides by zero at the first
    anchor and Python's [ZeroDivisionError] escapes; no dedicated error is
    raised in its place. *)
Theorem C3_degenerate_polyline_raises (anchors : list Spec.Anchor)
    (profile_length : Z) :
  anchors <> [] ->
  (exists p, Forall (eq p) anchors)
  \/ Spec.D anchors (length anchors - 1) = 0 ->
  Spec.D anchors (length anchors - 1) = 0
  /\ calculate_segment_boundaries (Spec.x_of anchors) (Spec.y_of anchors)
       profile_length = Raise ZeroDivisionError.
Proof.
  intros Hne H.
  assert (HD : Spec.D anchors (length anchors - 1) = 0).
  { destruct H as [[p Hp]|H]; [|assumption].
    apply (D_coincide p); [assumption|].
    destruct anchors; [easy|simpl; lia]. }
  split; [assumption|now apply calculate_segment_boundaries_degenerate].
Qed.

(** The specification's own example, the anchors [(3,3),(3,3)]. *)
Lemma C3_degenerate_polyline_witness :
  coinciding_anchors <> []
  /\ Forall (eq (3, 3)%Z) coinciding_anchors
  /\ calculate_segment_boundaries [3; 3]%Z [3; 3]%Z 11
     = Raise ZeroDivisionError.
Proof.
  assert (Hne : coinciding_anchors <> []) by discriminate.
  assert (Hall : Forall (eq (3, 3)%Z) coinciding_anchors)
    by (repeat constructor).
  split; [assumption|]; split; [assumption|].
  exact (proj2 (C3_degenerate_polyline_raises coinciding_anchors 11 Hne
                  (or_introl (ex_intro _ (3, 3)%Z Hall)))).
Defined.

(** C5 (as the code has it): the nucleus/cytoplasm ratio is the nuclear
    mean divided by the cytoplasm mean when the cytoplasm mean is positive,
    and 0 when it is zero or negative; no exception is raised; in
    particular the ratio of 5.0 and 0.0 is 0. *)
Theorem C5_ratio_policy (nuclear_mean cytoplasm_mean : R) :
  (0 < cytoplasm_mean ->
   ratio nuclear_mean cytoplasm_mean = Ok (nuclear_mean / cytoplasm_mean))
  /\ (cytoplasm_mean <= 0 -> ratio nuclear_mean cytoplasm_mean = Ok 0)
  /\ ratio 5 0 = Ok 0.
Proof.
  unfold ratio; repeat split.
  - intros H; destruct (Rgt_dec cytoplasm_mean 0); [|lra].
    apply truediv_nonzero; lra.
  - intros H; destruct (Rgt_dec cytoplasm_mean 0); [lra|reflexivity].
  - destruct (Rgt_dec 0 0); [lra|reflexivity].
Qed.

Lemma C5_ratio_policy_witness :
  0 < 2 /\ ratio 5 2 = Ok (5 / 2) /\ -1 <= 0 /\ ratio 5 (-1) = Ok 0.
Proof.
  assert (H2 : 0 < 2) by lra.
  assert (H1 : -1 <= 0) by lra.
  split; [assumption|].
  split; [exact (proj1 (C5_ratio_policy 5 2) H2)|].
  split; [assumption|].
  exact (proj1 (proj2 (C5_ratio_policy 5 (-1))) H1).
Defined.

(** The claim as written fails for a negative cytoplasm mean: the mean is
    not zero, yet the ratio is 0 and not the quotient. *)
Lemma C5_ratio_policy_counterexample :
  -1 <> 0 /\ ratio 5 (-1) = Ok 0 /\ ratio 5 (-1) <> Ok (5 / -1).
Proof.
  assert (H : ratio 5 (-1) = Ok 0)
    by (unfold ratio; destruct (Rgt_dec (-1) 0); [lra|reflexivity]).
  split; [lra|]; split; [assumption|].
  rewrite H; intros Heq; injection Heq as Heq; lra.
Qed.

(** The ratio stored in the cell record is the one of [ratio], and the
    ratio step never makes [analyze_single_cell] fail. *)
Lemma analyze_single_cell_ratio (self : EnhancedNuclearAnalyzer)
    (nuclear_roi cytoplasm_roi : option Roi) (nd : nuclear_data)
    (cd : cytoplasm_data) :
  measure_nuclear_membrane_detailed self nuclear_roi = Ok (Some nd) ->
  measure_cytoplasm_detailed self cytoplasm_roi = Ok (Some cd) ->
  exists cell,
    analyze_single_cell self nuclear_roi cytoplasm_roi = Ok (Some cell)
    /\ nuclear_mean cell = overall_mean nd
    /\ cytoplasm_mean cell = mean cd
    /\ cell_ratio cell
       = (if Rgt_dec (mean cd) 0 then overall_mean nd / mean cd else 0).
Proof.
  intros Hn Hc; unfold analyze_single_cell.
  rewrite Hn; cbn [bind]; rewrite Hc; cbn [bind].
  unfold ratio; destruct (Rgt_dec (mean cd) 0).
  - rewrite truediv_nonzero by lra; cbn [bind].
    eexists; repeat split; reflexivity.
  - cbn [bind]; eexists; repeat split; reflexivity.
Qed.

(** C7: for every profile and every pair of consecutive boundaries [a], [b]
    of segment [i], the values of the segment are the closed-interval slice
    [profile[a .. b]], both ends included: its [k]-th value is
    [profile[a + k]] for [a + k <= b] and there is none beyond.  The pixel
    at an interior boundary therefore belongs to both adjacent segments: it
    is the last value of segment [i] and the first value of segment
    [i + 1]. *)
Theorem C7_segment_closed_slice (profile : list R) (boundaries : list Z)
    (i : nat) (a b : Z) :
  nth_error boundaries i = Some a ->
  nth_error boundaries (S i) = Some b ->
  (0 <= a)%Z -> (0 <= b)%Z ->
  exists vals,
    segment_values profile boundaries i = Ok vals
    /\ vals = Spec.closed_slice profile (Z.to_nat a) (Z.to_nat b)
    /\ (forall k,
          nth_error vals k
          = if (Z.to_nat a + k <=? Z.to_nat b)%nat
            then nth_error profile (Z.to_nat a + k) else None)
    /\ (forall c v,
          nth_error boundaries (S (S i)) = Some c ->
          (a <= b <= c)%Z ->
          nth_error profile (Z.to_nat b) = Some v ->
          exists next,
            segment_values profile boundaries (S i) = Ok next
            /\ nth_error vals (Z.to_nat b - Z.to_nat a) = Some v
            /\ length vals = S (Z.to_nat b - Z.to_nat a)
            /\ nth_error next 0 = Some v).
Proof.
  intros Hi Hsi Ha Hb.
  exists (Spec.closed_slice profile (Z.to_nat a) (Z.to_nat b)).
  split; [now apply segment_values_closed|].
  split; [reflexivity|].
  split; [intros k; apply closed_slice_nth_error|].
  intros c v Hc Habc Hv.
  exists (Spec.closed_slice profile (Z.to_nat b) (Z.to_nat c)).
  split; [apply segment_values_closed; try assumption; lia|].
  assert (Hlt : (Z.to_nat b < length profile)%nat)
    by (apply nth_error_Some; rewrite Hv; discriminate).
  split; [|split].
  - rewrite closed_slice_nth_error.
    destruct (Nat.leb_spec (Z.to_nat a + (Z.to_nat b - Z.to_nat a))
                (Z.to_nat b)); [|lia].
    rewrite <- Hv; f_equal; lia.
  - rewrite closed_slice_length by lia; lia.
  - rewrite closed_slice_nth_error, Nat.add_0_r.
    destruct (Nat.leb_spec (Z.to_nat b) (Z.to_nat c)); [assumption|lia].
Qed.

Lemma C7_segment_closed_slice_witness :
  segment_values [10; 20; 30; 40; 50] [0; 2; 4]%Z 0 = Ok [10; 20; 30]
  /\ segment_values [10; 20; 30; 40; 50] [0; 2; 4]%Z 1 = Ok [30; 40; 50].
Proof.
  assert (H0 : nth_error [0; 2; 4]%Z 0 = Some 0%Z) by reflexivity.
  assert (H1 : nth_error [0; 2; 4]%Z 1 = Some 2%Z) by reflexivity.
  assert (H2 : nth_error [0; 2; 4]%Z 2 = Some 4%Z) by reflexivity.
  destruct (C7_segment_closed_slice [10; 20; 30; 40; 50] [0; 2; 4]%Z 0 0 2
              H0 H1 ltac:(lia) ltac:(lia)) as (v0 & Hr0 & Hv0 & _).
  destruct (C7_segment_closed_slice [10; 20; 30; 40; 50] [0; 2; 4]%Z 1 2 4
              H1 H2 ltac:(lia) ltac:(lia)) as (v1 & Hr1 & Hv1 & _).
  rewrite Hr0, Hr1, Hv0, Hv1; split; reflexivity.
Defined.

(** C8: [calculate_se] returns 0 for a sequence of at most one value (the
    empty one included) and, from two values on, the Bessel-corrected
    sample standard deviation (divisor [n - 1]) divided by [sqrt(n)]; it
    never raises; in particular the standard error of [2, 4, 6] is
    [2 / sqrt(3)]. *)
Theorem C8_standard_error :
  (forall data,
     calculate_se data
     = Ok (if (length data <=? 1)%nat then 0
           else sqrt (Spec.sample_variance data) / sqrt (INR (length data))))
  /\ calculate_se [] = Ok 0
  /\ (forall x, calculate_se [x] = Ok 0)
  /\ calculate_se [2; 4; 6] = Ok (2 / sqrt 3).
Proof.
  split; [|split; [|split]].
  - intros data; destruct (Nat.leb_spec (length data) 1).
    + now apply calculate_se_small.
    + now apply calculate_se_large.
  - apply calculate_se_small; simpl; lia.
  - intros x; apply calculate_se_small; simpl; lia.
  - rewrite calculate_se_large by (simpl; lia).
    now rewrite standard_error_2_4_6.
Qed.



(* ================================================================= *)
(** ** Further properties of the top-percent selection *)

Section SelectionFacts.

Lemma list_sum_perm (l1 l2 : list R) :
  Permutation l1 l2 -> Spec.list_sum l1 = Spec.list_sum l2.
Proof.
  induction 1 as [|x l1 l2 _ IH|x y l|l1 l2 l3 _ IH1 _ IH2]; simpl.
  - reflexivity.
  - now rewrite IH.
  - lra.
  - now rewrite IH1.
Qed.

Lemma mean_of_perm (l1 l2 : list R) :
  Permutation l1 l2 -> Spec.mean_of l1 = Spec.mean_of l2.
Proof.
  intros H; unfold Spec.mean_of.
  now rewrite (list_sum_perm _ _ H), (Permutation_length H).
Qed.

Lemma sorted_perm_eq (l1 l2 : list R) :
  Permutation l1 l2 -> sorted l1 = sorted l2.
Proof.
  intros H; apply sorted_unique; [apply sorted_ascending|].
  now rewrite H, <- sorted_perm.
Qed.

(** The top values are values of the sample, whatever the threshold. *)
Lemma top_values_incl (sample : list R) (t : R) (x : R) :
  In x (top_values sample t) -> In x sample.
Proof.
  unfold top_values, slice_from; intros H.
  apply (Permutation_in x (Permutation_sym (sorted_perm sample))).
  rewrite <- (firstn_skipn
                (Z.to_nat (slice_index (len (sorted sample))
                             (threshold_idx (sorted sample) t)))
                (sorted sample)).
  apply in_or_app; now right.
Qed.

Lemma cut_100 (sample : list R) : Spec.cut sample 100 = 0%Z.
Proof. apply cut_eval; lra. Qed.

(** X1: with a threshold of 100 percent the whole sample is selected and
    the top-percent mean is the plain mean of the sample. *)
Theorem top_percent_mean_full (sample : list R) :
  sample <> [] ->
  top_values sample 100 = sorted sample
  /\ top_percent_mean sample 100 = Ok (Spec.mean_of sample).
Proof.
  intros Hne.
  assert (Ht : 0 < 100 <= 100) by lra.
  assert (Htop : top_values sample 100 = sorted sample)
    by (rewrite top_values_skipn, cut_100 by assumption; reflexivity).
  split; [assumption|].
  rewrite top_percent_mean_ok, Htop by assumption.
  f_equal; symmetry; apply mean_of_perm, sorted_perm.
Qed.

Lemma top_percent_mean_full_witness :
  [3; 1; 2] <> [] /\ top_percent_mean [3; 1; 2] 100 = Ok 2.
Proof.
  assert (Hne : [3; 1; 2] <> []) by discriminate.
  split; [assumption|].
  rewrite (proj2 (top_percent_mean_full [3; 1; 2] Hne)).
  f_equal; unfold Spec.mean_of; simpl; field.
Defined.

(** X2: the selection and its mean depend on the values of the sample
    only, not on their positions: two samples that are permutations of each
    other give the same top values and the same result, for every
    threshold, the failing ones included. *)
Theorem top_percent_mean_by_value (s1 s2 : list R) (t : R) :
  Permutation s1 s2 ->
  top_values s1 t = top_values s2 t
  /\ top_percent_mean s1 t = top_percent_mean s2 t.
Proof.
  intros H; unfold top_percent_mean, top_values.
  now rewrite (sorted_perm_eq _ _ H).
Qed.

Lemma top_percent_mean_by_value_witness :
  top_percent_mean [2; 3; 1] 50 = Ok (5 / 2).
Proof.
  assert (Hp : Permutation [2; 3; 1] [3; 1; 2])
    by (eapply perm_trans; [apply perm_swap|apply perm_skip, perm_swap]).
  rewrite (proj2 (top_percent_mean_by_value [2; 3; 1] [3; 1; 2] 50 Hp)).
  apply (top_percent_mean_eval [3; 1; 2] [2; 3] 50 _ 1);
    [discriminate|lra|simpl; lra|now rewrite sorted_3_1_2|].
  unfold Spec.mean_of; simpl; field.
Defined.

(** X5: the selections are nested: the top values of a smaller threshold
    are the last ones of the top values of a larger threshold, so a smaller
    threshold never selects more values. *)
Theorem top_values_nested (sample : list R) (t1 t2 : R) :
  sample <> [] -> 0 < t1 -> t1 <= t2 -> t2 <= 100 ->
  (exists lower,
     top_values sample t2 = lower ++ top_values sample t1
     /\ forall a b, In a lower -> In b (top_values sample t1) -> a <= b)
  /\ (length (top_values sample t1) <= length (top_values sample t2))%nat.
Proof.
  intros Hne H1 H12 H2.
  pose proof (cut_antitone sample t1 t2 H12) as Hc.
  pose proof (cut_bounds sample t2 Hne ltac:(lra)) as Hb2.
  assert (Hle : (Z.to_nat (Spec.cut sample t2)
                 <= Z.to_nat (Spec.cut sample t1))%nat) by lia.
  rewrite !top_values_skipn by (try assumption; lra).
  pose proof (skipn_split _ _ (sorted sample) Hle) as Hs.
  split.
  - eexists; split; [exact Hs|].
    apply ascending_app_le; rewrite <- Hs.
    apply ascending_skipn, sorted_ascending.
  - rewrite !length_skipn; lia.
Qed.

Lemma top_values_nested_witness :
  exists lower,
    top_values sample_1_to_10 50 = lower ++ top_values sample_1_to_10 10
    /\ lower = [6; 7; 8; 9].
Proof.
  assert (Hne : sample_1_to_10 <> []) by discriminate.
  destruct (top_values_nested sample_1_to_10 10 50 Hne) as [(lower & Hl & _) _];
    try lra.
  exists lower; split; [assumption|].
  rewrite (proj1 top_percent_mean_1_to_10_50),
    (proj1 top_percent_mean_1_to_10_10) in Hl.
  change [6; 7; 8; 9; 10] with ([6; 7; 8; 9] ++ [10]) in Hl.
  now apply app_inv_tail in Hl.
Defined.

End SelectionFacts.

(* ================================================================= *)
(** ** The cytoplasm measurement and its chart *)

Section CytoplasmFacts.




(** The cytoplasm measurement of a non-empty profile, in full. *)
Lemma measure_cytoplasm_full (self : EnhancedNuclearAnalyzer) (r : Roi)
    (sample : list R) :
  getType r = POLYLINE -> getProfile r = Some sample -> sample <> [] ->
  0 < threshold_percentage self <= 100 ->
  measure_cytoplasm_detailed self (Some r)
  = Ok (Some {| raw_profile := sample;
                cyto_top_values :=
                  top_values sample (threshold_percentage self);
                threshold_value :=
                  nth (Z.to_nat (Spec.cut sample (threshold_percentage self)))
                    (sorted sample) 0;
                mean := Spec.mean_of
                          (top_values sample (threshold_percentage self)) |}).
Proof.
  intros Hty Hp Hne Ht; unfold measure_cytoplasm_detailed.
  rewrite Hty, Hp, (len_eqb_nonempty _ Hne).
  pose proof (cut_bounds sample _ Hne Ht) as Hc.
  pose proof (threshold_idx_cut sample _ Hne Ht) as Hidx.
  change (slice_from (sorted sample)
            (threshold_idx (sorted sample) (threshold_percentage self)))
    with (top_values sample (threshold_percentage self)).
  rewrite Hidx.
  assert (Hls : len (sorted sample) = len sample)
    by (unfold len; now rewrite sorted_length).
  destruct (Z.ltb_spec (Spec.cut sample (threshold_percentage self))
              (len (sorted sample))); [|lia].
  rewrite (getitem_nonneg _ _ 0) by lia; cbn [bind].
  rewrite truediv_len by now apply top_values_nonempty.
  cbn [bind]; now rewrite sum_list_sum.
Qed.



End CytoplasmFacts.

(* ================================================================= *)
(** ** The recalculation with another threshold *)

Section RecalculationFacts.

Lemma top_percent_mean_inv (v : list R) (t avg : R) :
  top_percent_mean v t = Ok avg ->
  top_values v t <> [] /\ avg = Spec.mean_of (top_values v t).
Proof.
  unfold top_percent_mean; intros H.
  destruct (top_values v t) as [|x top] eqn:Htop.
  - rewrite truediv_len_nil in H; discriminate.
  - rewrite truediv_len in H by discriminate.
    injection H as <-; split; [discriminate|].
    now rewrite sum_list_sum.
Qed.

Lemma recalculate_loop_same (vals : list (list R)) (t : R)
    (avgs : list R) :
  Forall2 (fun v avg => top_percent_mean v t = Ok avg)
    (filter nonempty vals) avgs ->
  map (fun v => Spec.mean_of (top_values v t))
    (filter (fun v => nonempty v && nonempty (top_values v t))
       (filter nonempty vals)) = avgs.
Proof.
  induction 1 as [|v avg l avgs Hv _ IH]; [reflexivity|].
  apply top_percent_mean_inv in Hv as [Hne ->].
  cbn [filter].
  assert (Hn : nonempty v && nonempty (top_values v t) = true).
  { apply andb_true_intro; split; [|now apply nonempty_true_iff].
    destruct (nonempty v) eqn:Hv; [reflexivity|].
    exfalso; apply Hne.
    assert (v = []) as ->
      by (unfold nonempty in Hv; apply negb_false_iff in Hv;
          now apply len_zero_iff in Hv).
    unfold top_values, slice_from; apply skipn_nil. }
  rewrite Hn; cbn [map]; now rewrite IH.
Qed.

(** X7: recalculating with the threshold of the analysis gives back the
    stored means: the overall nuclear mean of a completed nuclear
    measurement and the mean of a completed cytoplasm measurement. *)
Theorem recalculation_reproduces (self : EnhancedNuclearAnalyzer) :
  (forall roi nd,
     measure_nuclear_membrane_detailed self roi = Ok (Some nd) ->
     recalculate_nuclear_mean_with_threshold nd (threshold_percentage self)
     = Ok (overall_mean nd))
  /\ (forall roi cd,
        measure_cytoplasm_detailed self roi = Ok (Some cd) ->
        recalculate_cytoplasm_mean_with_threshold cd
          (threshold_percentage self) = Ok (mean cd)).
Proof.
  split.
  - intros roi nd H.
    destruct (measure_nuclear_inv self roi nd H)
      as (r & vals & _ & _ & _ & _ & _ & Hm & Hraw & Hne & Hmean).
    unfold recalculate_nuclear_mean_with_threshold.
    rewrite recalculate_loop_spec, Hraw; cbn [bind app].
    rewrite (recalculate_loop_same vals _ _ Hm).
    rewrite (len_gtb_nonempty _ Hne), truediv_len by assumption.
    now rewrite sum_list_sum, Hmean.
  - intros roi cd; unfold measure_cytoplasm_detailed.
    destruct roi as [r|]; [|discriminate].
    destruct (getType r); [|discriminate].
    destruct (getProfile r) as [profile|]; [|discriminate].
    destruct (len profile =? 0)%Z eqn:Hlen; [discriminate|].
    change (slice_from (sorted profile)
              (threshold_idx (sorted profile) (threshold_percentage self)))
      with (top_values profile (threshold_percentage self)).
    destruct (if (threshold_idx (sorted profile) (threshold_percentage self)
                  <? len (sorted profile))%Z
              then getitem (sorted profile)
                     (threshold_idx (sorted profile)
                        (threshold_percentage self))
              else Ok 0) as [tv|e]; cbn [bind]; [|discriminate].
    destruct (top_values profile (threshold_percentage self))
      as [|x top] eqn:Htop.
    + rewrite truediv_len_nil; discriminate.
    + rewrite truediv_len by discriminate; cbn [bind].
      intros H; injection H as <-.
      unfold recalculate_cytoplasm_mean_with_threshold.
      cbn [raw_profile mean]; rewrite Hlen, Htop.
      rewrite (len_gtb_nonempty (x :: top)) by discriminate.
      now rewrite truediv_len by discriminate.
Qed.

Lemma recalculation_reproduces_witness :
  exists nd,
    measure_nuclear_membrane_detailed init
      (Some (polyline_roi uneven_anchors sample_1_to_10)) = Ok (Some nd)
    /\ recalculate_nuclear_mean_with_threshold nd 50 = Ok (11 / 2).
Proof.
  destruct measure_nuclear_uneven as (nd & Hd & _ & _ & _ & _ & Hmean).
  exists nd; split; [assumption|].
  rewrite <- Hmean.
  exact (proj1 (recalculation_reproduces init) _ nd Hd).
Defined.

End RecalculationFacts.

(* ================================================================= *)
(** ** The threshold comparison *)

Section ComparisonFacts.

Lemma recalculate_nuclear_total (nd : nuclear_data) (t : R) :
  exists m, recalculate_nuclear_mean_with_threshold nd t = Ok m.
Proof.
  unfold recalculate_nuclear_mean_with_threshold.
  rewrite recalculate_loop_spec; cbn [bind app].
  destruct (map _ _) as [|a avgs].
  - exists 0; reflexivity.
  - rewrite (len_gtb_nonempty (a :: avgs)), truediv_len by discriminate.
    eexists; reflexivity.
Qed.

Lemma recalculate_cytoplasm_total (cd : cytoplasm_data) (t : R) :
  exists m, recalculate_cytoplasm_mean_with_threshold cd t = Ok m.
Proof.
  unfold recalculate_cytoplasm_mean_with_threshold.
  destruct (len (raw_profile cd) =? 0)%Z; [now exists 0|].
  destruct (top_values (raw_profile cd) t) as [|x top] eqn:Htop.
  - now exists 0.
  - rewrite (len_gtb_nonempty (x :: top)), truediv_len by discriminate.
    eexists; reflexivity.
Qed.

Lemma ratio_value (n c : R) :
  ratio n c = Ok (if Rgt_dec c 0 then n / c else 0).
Proof.
  unfold ratio; destruct (Rgt_dec c 0); [|reflexivity].
  apply truediv_nonzero; lra.
Qed.

Lemma comparison_entry_total (cd : cell_data) (t : R) :
  exists n c,
    recalculate_nuclear_mean_with_threshold (cell_nuclear_data cd) t = Ok n
    /\ recalculate_cytoplasm_mean_with_threshold (cell_cytoplasm_data cd) t
       = Ok c
    /\ Workbook.comparison_entry cd t
       = Ok (n, c, if Rgt_dec c 0 then n / c else 0).
Proof.
  destruct (recalculate_nuclear_total (cell_nuclear_data cd) t) as [n Hn].
  destruct (recalculate_cytoplasm_total (cell_cytoplasm_data cd) t)
    as [c Hc].
  exists n, c; repeat split; try assumption.
  unfold Workbook.comparison_entry.
  rewrite Hn, Hc; cbn [bind]; now rewrite ratio_value.
Qed.





Lemma calculate_se_total (data : list R) :
  exists se, calculate_se data = Ok se.
Proof.
  destruct (Nat.leb_spec (length data) 1).
  - exists 0; now apply calculate_se_small.
  - eexists; now apply calculate_se_large.
Qed.

Lemma mean_and_se_ok (values : list R) :
  values <> [] ->
  exists se,
    Workbook.mean_and_se values = Ok (Spec.mean_of values, se)
    /\ calculate_se values = Ok se.
Proof.
  intros Hne; destruct (calculate_se_total values) as [se Hse].
  exists se; split; [|assumption].
  unfold Workbook.mean_and_se.
  rewrite truediv_len, Hse by assumption; cbn [bind].
  now rewrite sum_list_sum.
Qed.

Lemma mean_and_se_nil :
  Workbook.mean_and_se [] = Raise ZeroDivisionError.
Proof.
  unfold Workbook.mean_and_se; now rewrite truediv_len_nil.
Qed.

Lemma comparison_values_spec (cells : list cell_data) (t : R) :
  forall nv cv rv,
  exists nv' cv' rv',
    Workbook.comparison_values cells t nv cv rv
    = Ok (nv ++ nv', cv ++ cv', rv ++ rv')
    /\ length nv' = length cells /\ length cv' = length cells
    /\ length rv' = length cells.
Proof.
  induction cells as [|cd rest IH]; intros nv cv rv.
  - exists [], [], []; rewrite !app_nil_r; repeat split.
  - destruct (comparison_entry_total cd t) as (n & c & _ & _ & He).
    cbn [Workbook.comparison_values]; rewrite He; cbn [bind].
    destruct (IH (nv ++ [n]) (cv ++ [c])
                (rv ++ [if Rgt_dec c 0 then n / c else 0]))
      as (nv' & cv' & rv' & Hrun & Hn & Hc & Hr).
    exists (n :: nv'), (c :: cv'),
           ((if Rgt_dec c 0 then n / c else 0) :: rv').
    rewrite Hrun, <- !app_assoc; cbn [app length].
    repeat split; congruence.
Qed.

(** X10: the summary line of the threshold comparison divides by the
    number of cells without a guard: with no cell it raises
    [ZeroDivisionError], with at least one cell it is computed for every
    threshold. *)
Theorem comparison_summary_guard (cells : list cell_data) (t : R) :
  (cells = [] ->
   Workbook.comparison_summary cells t = Raise ZeroDivisionError)
  /\ (cells <> [] ->
      exists res, Workbook.comparison_summary cells t = Ok res).
Proof.
  split.
  - intros ->; unfold Workbook.comparison_summary.
    cbn [Workbook.comparison_values bind]; now rewrite mean_and_se_nil.
  - intros Hne; unfold Workbook.comparison_summary.
    destruct (comparison_values_spec cells t [] [] [])
      as (nv & cv & rv & Hrun & Hn & Hc & Hr).
    rewrite Hrun; cbn [bind app].
    assert (Hpos : (0 < length cells)%nat)
      by (destruct cells; [easy|simpl; lia]).
    destruct (mean_and_se_ok nv) as (sn & Hsn & _);
      [intros ->; simpl in Hn; lia|].
    destruct (mean_and_se_ok cv) as (sc & Hsc & _);
      [intros ->; simpl in Hc; lia|].
    destruct (mean_and_se_ok rv) as (sr & Hsr & _);
      [intros ->; simpl in Hr; lia|].
    rewrite Hsn, Hsc, Hsr; cbn [bind]; eexists; reflexivity.
Qed.

End ComparisonFacts.

(* ================================================================= *)
(** ** The worked example, in full *)

Section ExampleCell.

Lemma measure_nuclear_example (self : EnhancedNuclearAnalyzer) :
  threshold_percentage self = 50 ->
  measure_nuclear_membrane_detailed self
    (Some (polyline_roi uneven_anchors sample_1_to_10))
  = Ok (Some example_nuclear).
Proof.
  intros Hself.
  destruct top_percent_mean_1_2_3 as [Ht1 Hm1].
  destruct top_percent_mean_3_to_10 as [Ht2 Hm2].
  unfold measure_nuclear_membrane_detailed, polyline_roi.
  cbn [getType xpoints ypoints npoints getProfile].
  change (length uneven_anchors <? 2)%nat with false.
  change (len sample_1_to_10 =? 0)%Z with false.
  change (len sample_1_to_10) with 10%Z.
  rewrite segment_boundaries_uneven, Hself; cbn [bind].
  change (range 0 (length uneven_anchors - 1)) with [0; 1]%nat.
  rewrite (segments_loop_step _ _ _ 0 _ _ _ 0 2 [1; 2; 3] (5 / 2));
    [|reflexivity|reflexivity|reflexivity|discriminate|exact Hm1].
  rewrite (segments_loop_step _ _ _ 1 _ _ _ 2 9
             [3; 4; 5; 6; 7; 8; 9; 10] (17 / 2));
    [|reflexivity|reflexivity|reflexivity|discriminate|exact Hm2].
  cbn [segments_loop bind app].
  change (len [5 / 2; 17 / 2] =? 0)%Z with false.
  rewrite truediv_len by discriminate; cbn [bind].
  rewrite Ht1, Ht2.
  replace (sum [5 / 2; 17 / 2] / INR (length [5 / 2; 17 / 2]))
    with (11 / 2) by (rewrite sum_list_sum; simpl; field).
  reflexivity.
Qed.

Lemma measure_cytoplasm_example (self : EnhancedNuclearAnalyzer) :
  threshold_percentage self = 50 ->
  measure_cytoplasm_detailed self
    (Some (polyline_roi colinear_anchors [3; 1; 2]))
  = Ok (Some example_cytoplasm).
Proof.
  intros Hself.
  rewrite (measure_cytoplasm_full self
             (polyline_roi colinear_anchors [3; 1; 2]) [3; 1; 2]
             eq_refl eq_refl)
    by (try discriminate; rewrite Hself; lra).
  rewrite Hself.
  assert (Hcut : Spec.cut [3; 1; 2] 50 = 1%Z) by (apply cut_eval; simpl; lra).
  assert (Htop : top_values [3; 1; 2] 50 = [2; 3]).
  { rewrite top_values_skipn by (try discriminate; lra).
    now rewrite Hcut, sorted_3_1_2. }
  rewrite Hcut, Htop, sorted_3_1_2.
  replace (Spec.mean_of [2; 3]) with (5 / 2)
    by (unfold Spec.mean_of; simpl; field).
  reflexivity.
Qed.

Lemma analyze_single_cell_example (self : EnhancedNuclearAnalyzer) :
  threshold_percentage self = 50 -> cell_count self = 1%Z ->
  analyze_single_cell self
    (Some (polyline_roi uneven_anchors sample_1_to_10))
    (Some (polyline_roi colinear_anchors [3; 1; 2]))
  = Ok (Some example_cell).
Proof.
  intros Hself Hcount; unfold analyze_single_cell.
  rewrite (measure_nuclear_example self Hself); cbn [bind].
  rewrite (measure_cytoplasm_example self Hself); cbn [bind].
  rewrite ratio_value, Hcount; cbn [bind mean example_cytoplasm
    overall_mean example_nuclear].
  destruct (Rgt_dec (5 / 2) 0); [reflexivity|lra].
Qed.

End ExampleCell.

(* ================================================================= *)
(** ** The session loop *)

Section SessionFacts.

Import Session.

Lemma analyze_single_cell_inv (a : EnhancedNuclearAnalyzer)
    (r1 r2 : option Roi) (cd : cell_data) :
  analyze_single_cell a r1 r2 = Ok (Some cd) ->
  cell_number cd = cell_count a
  /\ measure_nuclear_membrane_detailed a r1 = Ok (Some (cell_nuclear_data cd))
  /\ measure_cytoplasm_detailed a r2 = Ok (Some (cell_cytoplasm_data cd))
  /\ nuclear_mean cd = overall_mean (cell_nuclear_data cd)
  /\ cytoplasm_mean cd = mean (cell_cytoplasm_data cd)
  /\ cell_ratio cd
     = (if Rgt_dec (cytoplasm_mean cd) 0
        then nuclear_mean cd / cytoplasm_mean cd else 0).
Proof.
  unfold analyze_single_cell; intros H.
  destruct (measure_nuclear_membrane_detailed a r1) as [[nd|]|e];
    cbn [bind] in H; try discriminate.
  destruct (measure_cytoplasm_detailed a r2) as [[cyd|]|e];
    cbn [bind] in H; try discriminate.
  rewrite ratio_value in H; cbn [bind] in H.
  injection H as <-; cbn; repeat split; reflexivity.
Qed.

Lemma consistent_new : consistent new_session.
Proof. repeat split. Qed.

Lemma consistent_skip (s : session) :
  consistent s ->
  consistent
    (set_self
       (set_self s (set_cell_count (self s) (cell_count (self s) + 1)))
       (set_cell_count
          (set_cell_count (self s) (cell_count (self s) + 1))
          (cell_count (set_cell_count (self s) (cell_count (self s) + 1))
           - 1))).
Proof.
  intros (Hc & Hn & Hy & Hr & Hnum); unfold consistent; cbn.
  repeat split; try assumption; lia.
Qed.

Lemma consistent_store (s : session) (cd : cell_data) :
  consistent s ->
  cell_number cd = (cell_count (self s) + 1)%Z ->
  consistent
    (store_cell
       (set_self s (set_cell_count (self s) (cell_count (self s) + 1))) cd).
Proof.
  intros (Hc & Hn & Hy & Hr & Hnum) Hcd; unfold consistent; cbn.
  rewrite !map_app, Hn, Hy, Hr, Hnum, length_app; cbn [map length].
  rewrite Nat.add_1_r, seq_S, map_app; cbn [map Nat.add].
  repeat split; try reflexivity.
  - unfold len in *; rewrite length_app; cbn [length]; lia.
  - rewrite Hcd, Hc; reflexivity.
Qed.

(** X11: the session loop keeps its lists consistent.  From a consistent
    session, however the loop is left (export, cancel, or still waiting),
    the cell count is the number of stored cells; the three lists of
    means and ratios are those of the stored cells, in order; the stored
    cell numbers are 1, 2, 3, ... (a skipped cell uses up no number), so they
    agree with the sheet names, which are made from the position; the
    threshold is unchanged; cells are only appended, at most one per
    round; and the export is reached with at least one cell stored. *)
Theorem analysis_loop_consistent (s : session) (rounds : list round)
    (o : outcome) :
  consistent s ->
  analysis_loop s rounds = Ok o ->
  consistent (final o)
  /\ threshold_percentage (self (final o)) = threshold_percentage (self s)
  /\ (exists added,
        cell_data_list (final o) = cell_data_list s ++ added
        /\ (length added <= length rounds)%nat)
  /\ (forall s', o = exporting s' -> cell_data_list s' <> []).
Proof.
  revert s; induction rounds as [|r rest IH]; intros s Hs Hrun.
  - injection Hrun as <-; cbn [final].
    split; [assumption|]; split; [reflexivity|]; split.
    + exists []; now rewrite app_nil_r.
    + intros s' Hs'; discriminate Hs'.
  - cbn [analysis_loop] in Hrun.
    set (s1 := set_self s (set_cell_count (self s) (cell_count (self s) + 1)))
      in *.
    destruct (analyze_single_cell (self s1) (nuclear_roi r) (cytoplasm_roi r))
      as [[cd|]|e] eqn:Hcell; cbn [bind] in Hrun; [| |discriminate].
    + apply analyze_single_cell_inv in Hcell as (Hnum & _).
      assert (Hs2 : consistent (store_cell s1 cd))
        by (apply consistent_store; assumption).
      assert (Happ : cell_data_list (store_cell s1 cd)
                     = cell_data_list s ++ [cd]) by reflexivity.
      assert (Hne : cell_data_list (store_cell s1 cd) <> [])
        by (rewrite Happ; intros Hnil; now apply app_eq_nil in Hnil as [_ ?]).
      destruct (show_dialog (answer r)).
      * apply IH in Hrun as (Hc & Ht & (added & Hadd & Hlen) & Hex);
          [|assumption].
        split; [assumption|]; split; [exact Ht|]; split; [|assumption].
        exists (cd :: added); rewrite Hadd, Happ, <- app_assoc.
        split; [reflexivity|simpl; lia].
      * injection Hrun as <-; cbn [final].
        split; [assumption|]; split; [reflexivity|]; split.
        -- exists [cd]; split; [assumption|simpl; lia].
        -- intros s' Hs'; injection Hs' as <-; assumption.
      * injection Hrun as <-; cbn [final].
        split; [assumption|]; split; [reflexivity|]; split.
        -- exists [cd]; split; [assumption|simpl; lia].
        -- intros s' Hs'; discriminate Hs'.
    + apply IH in Hrun as (Hc & Ht & (added & Hadd & Hlen) & Hex);
        [|now apply consistent_skip].
      split; [assumption|]; split; [exact Ht|]; split; [|assumption].
      exists added; split; [assumption|simpl; lia].
Qed.

(** A session of two rounds: the first selection is not a polyline and
    the cell is skipped, the second cell is measured and the export is
    chosen. *)
Lemma analysis_loop_example :
  analysis_loop new_session
    [ {| nuclear_roi := None; cytoplasm_roi := None; answer := 0 |};
      example_round 1 ]
  = Ok (exporting
          {| self := {| threshold_percentage := 50; cell_count := 1 |};
             cell_data_list := [example_cell];
             nuclear_membrane_averages := [11 / 2];
             cytoplasm_averages := [5 / 2];
             nucleus_cytoplasm_ratios := [11 / 2 / (5 / 2)] |}).
Proof.
  cbn [analysis_loop new_session nuclear_roi cytoplasm_roi self set_self
       analyze_single_cell measure_nuclear_membrane_detailed bind].
  cbn [example_round nuclear_roi cytoplasm_roi answer].
  rewrite analyze_single_cell_example by reflexivity.
  reflexivity.
Qed.

Lemma analysis_loop_consistent_witness :
  exists s',
    analysis_loop new_session
      [ {| nuclear_roi := None; cytoplasm_roi := None; answer := 0 |};
        example_round 1 ] = Ok (exporting s')
    /\ consistent s'
    /\ cell_data_list s' = [example_cell]
    /\ cell_count (self s') = 1%Z.
Proof.
  pose proof analysis_loop_example as Hrun.
  destruct (analysis_loop_consistent _ _ _ consistent_new Hrun)
    as (Hc & _).
  eexists; split; [exact Hrun|].
  split; [exact Hc|]; split; reflexivity.
Defined.

Lemma summary_statistics_ok (s : session) :
  consistent s -> cell_data_list s <> [] ->
  exists st, Workbook.summary_statistics s = Ok (Some st).
Proof.
  intros (_ & Hn & Hy & Hr & _) Hne; unfold Workbook.summary_statistics.
  assert (Hmap : forall f : cell_data -> R, map f (cell_data_list s) <> [])
    by (intros f Hnil; now apply map_eq_nil in Hnil).
  rewrite Hn, Hy, Hr, (len_gtb_nonempty _ (Hmap nuclear_mean)).
  destruct (mean_and_se_ok _ (Hmap nuclear_mean)) as (sn & -> & _).
  destruct (mean_and_se_ok _ (Hmap cytoplasm_mean)) as (sc & -> & _).
  destruct (mean_and_se_ok _ (Hmap cell_ratio)) as (sr & -> & _).
  cbn [bind]; eexists; reflexivity.
Qed.

(** X12: when a run started from the settings dialog reaches the export,
    the threshold in use is the entered one and lies in [1, 100], at least
    one cell is stored, and the statistics of the summary sheet and of the
    threshold comparison are computed without exception (their divisions
    by the number of cells are safe, although the comparison has no guard
    of its own). *)
Theorem run_analysis_export (gd : GenericDialog) (rounds : list round)
    (s' : session) :
  run_analysis new_session gd rounds = Ok (Some (exporting s')) ->
  threshold_percentage (self s') = getNextNumber gd
  /\ 1 <= threshold_percentage (self s') <= 100
  /\ consistent s'
  /\ cell_data_list s' <> []
  /\ (exists st, Workbook.summary_statistics s' = Ok (Some st))
  /\ (forall t, exists res,
        Workbook.comparison_summary (cell_data_list s') t = Ok res).
Proof.
  unfold run_analysis, get_analysis_settings; intros H.
  destruct (wasCanceled gd); [discriminate|].
  cbn [threshold_percentage] in H.
  destruct (Rlt_dec (getNextNumber gd) 1); [discriminate|].
  destruct (Rgt_dec (getNextNumber gd) 100); [discriminate|].
  destruct (analysis_loop _ rounds) as [o|e] eqn:Hrun; [|discriminate].
  cbn [bind] in H; injection H as ->.
  apply analysis_loop_consistent in Hrun as (Hc & Ht & _ & Hex);
    [|repeat split].
  cbn [final] in Hc, Ht; cbn in Ht.
  specialize (Hex s' eq_refl).
  rewrite Ht.
  split; [reflexivity|]; split; [lra|]; split; [assumption|].
  split; [assumption|]; split.
  - now apply summary_statistics_ok.
  - intros t; now apply comparison_summary_guard.
Qed.

Lemma run_analysis_export_witness :
  exists s',
    run_analysis new_session {| wasCanceled := false; getNextNumber := 50 |}
      [example_round 1] = Ok (Some (exporting s'))
    /\ threshold_percentage (self s') = 50
    /\ cell_data_list s' = [example_cell].
Proof.
  assert (Hrun : run_analysis new_session
                   {| wasCanceled := false; getNextNumber := 50 |}
                   [example_round 1]
                 = Ok (Some (exporting
                     {| self := {| threshold_percentage := 50;
                                   cell_count := 1 |};
                        cell_data_list := [example_cell];
                        nuclear_membrane_averages := [11 / 2];
                        cytoplasm_averages := [5 / 2];
                        nucleus_cytoplasm_ratios := [11 / 2 / (5 / 2)] |}))).
  { unfold run_analysis, get_analysis_settings.
    cbn [wasCanceled getNextNumber threshold_percentage].
    destruct (Rlt_dec 50 1); [lra|].
    destruct (Rgt_dec 50 100); [lra|].
    cbn [analysis_loop new_session self set_self example_round nuclear_roi
         cytoplasm_roi answer].
    rewrite analyze_single_cell_example by reflexivity.
    reflexivity. }
  destruct (run_analysis_export _ _ _ Hrun) as (Ht & _).
  eexists; split; [exact Hrun|]; split; [|reflexivity].
  rewrite Ht; reflexivity.
Defined.

End SessionFacts.

(* ================================================================= *)
(** ** The strokes of a measured polyline *)

Section StrokeFacts.

Variable anchors : list Spec.Anchor.
Variable profile : list R.
Variable t : R.

Hypothesis anchors_two : (2 <= length anchors)%nat.
Hypothesis length_positive : 0 < Spec.D anchors (length anchors - 1).
Hypothesis profile_nonempty : profile <> [].
Hypothesis threshold_valid : 0 < t <= 100.

Let L := len profile.
Let b := Spec.boundary anchors L.

Lemma profile_length_positive : (0 < L)%Z.
Proof.
  unfold L, len; destruct profile; [contradiction|simpl; lia].
Qed.

Lemma boundaries_valid (seg : nat) :
  (S seg < length anchors)%nat ->
  (0 <= b seg <= b (S seg))%Z /\ (b (S seg) < L)%Z.
Proof.
  intros Hseg; unfold b.
  pose proof profile_length_positive as HL.
  pose proof (boundary_range anchors L seg HL).
  pose proof (boundary_range anchors L (S seg) HL).
  pose proof (boundary_mono anchors L seg (S seg) length_positive HL).
  lia.
Qed.

Lemma calculate_segment_boundaries_valid :
  calculate_segment_boundaries (Spec.x_of anchors) (Spec.y_of anchors) L
  = Ok (map b (seq 0 (length anchors))).
Proof.
  assert (Hne : anchors <> []) by (intros Hnil; rewrite Hnil in anchors_two;
                                    simpl in anchors_two; lia).
  rewrite calculate_segment_boundaries_ok by (try assumption; lra).
  f_equal; apply map_ext_in; intros i Hi; apply in_seq in Hi.
  apply index_of_boundary; try assumption; [apply profile_length_positive|lia].
Qed.

Lemma boundaries_nth_error (i : nat) :
  (i < length anchors)%nat ->
  nth_error (map b (seq 0 (length anchors))) i = Some (b i).
Proof.
  intros Hi; rewrite nth_error_map, nth_error_nth' with (d := O)
    by (rewrite length_seq; lia).
  now rewrite seq_nth by lia.
Qed.

Lemma stroke_values_nonempty (seg : nat) :
  (S seg < length anchors)%nat ->
  Spec.closed_slice profile (Z.to_nat (b seg)) (Z.to_nat (b (S seg))) <> []
  /\ len (Spec.closed_slice profile (Z.to_nat (b seg))
            (Z.to_nat (b (S seg))))
     = (b (S seg) - b seg + 1)%Z.
Proof.
  intros Hseg; destruct (boundaries_valid seg Hseg) as [Hab Hlt].
  assert (Hlen : length (Spec.closed_slice profile (Z.to_nat (b seg))
                          (Z.to_nat (b (S seg))))
                 = (Z.to_nat (b (S seg)) - Z.to_nat (b seg) + 1)%nat)
    by (apply closed_slice_length; unfold L, len in Hlt; lia).
  split.
  - intros Hnil; rewrite Hnil in Hlen; simpl in Hlen; lia.
  - unfold len; rewrite Hlen; lia.
Qed.

Lemma segments_loop_strokes (m k : nat) (sd : list stroke_info)
    (sa : list R) :
  (k + m < length anchors)%nat ->
  segments_loop profile (map b (seq 0 (length anchors))) t (seq k m) sd sa
  = Ok (sd ++ map (stroke_of anchors profile t) (seq k m),
        sa ++ map (fun seg => stroke_average (stroke_of anchors profile t seg))
                (seq k m)).
Proof.
  revert k sd sa; induction m as [|m IH]; intros k sd sa Hk.
  - simpl; now rewrite !app_nil_r.
  - destruct (boundaries_valid k ltac:(lia)) as [Hab Hlt].
    destruct (stroke_values_nonempty k ltac:(lia)) as [Hne _].
    cbn [seq].
    rewrite (segments_loop_step _ _ _ k _ _ _ (b k) (b (S k))
               (Spec.closed_slice profile (Z.to_nat (b k))
                  (Z.to_nat (b (S k))))
               (Spec.mean_of
                  (top_values
                     (Spec.closed_slice profile (Z.to_nat (b k))
                        (Z.to_nat (b (S k)))) t)));
      [|apply boundaries_nth_error; lia|apply boundaries_nth_error; lia
       |apply slice_closed; lia|assumption
       |now apply top_percent_mean_ok].
    rewrite IH by lia.
    rewrite <- !app_assoc; reflexivity.
Qed.

(** The measurement of a valid polyline, in full. *)
Lemma measure_nuclear_valid (self : EnhancedNuclearAnalyzer) :
  threshold_percentage self = t ->
  measure_nuclear_membrane_detailed self
    (Some (polyline_roi anchors profile))
  = Ok (Some
      {| full_profile := profile;
         segment_boundaries := map b (seq 0 (length anchors));
         stroke_data :=
           map (stroke_of anchors profile t) (seq 0 (length anchors - 1));
         stroke_averages :=
           map (fun seg => stroke_average (stroke_of anchors profile t seg))
             (seq 0 (length anchors - 1));
         overall_mean :=
           Spec.mean_of
             (map (fun seg =>
                     stroke_average (stroke_of anchors profile t seg))
                (seq 0 (length anchors - 1)));
         n_segments := Z.of_nat (length anchors - 1) |}).
Proof.
  intros Hself.
  unfold measure_nuclear_membrane_detailed, polyline_roi.
  cbn [getType xpoints ypoints npoints getProfile].
  destruct (Nat.ltb_spec (length anchors) 2); [lia|].
  rewrite (len_eqb_nonempty _ profile_nonempty).
  fold L; rewrite calculate_segment_boundaries_valid; cbn [bind].
  unfold range; rewrite Nat.sub_0_r, Hself.
  rewrite segments_loop_strokes by lia; cbn [bind app].
  set (avgs := map _ (seq 0 (length anchors - 1))).
  assert (Hav : avgs <> []).
  { unfold avgs; intros Hnil; apply map_eq_nil in Hnil.
    apply (f_equal (@length nat)) in Hnil.
    rewrite length_seq in Hnil; simpl in Hnil; lia. }
  rewrite (len_eqb_nonempty _ Hav), truediv_len by assumption; cbn [bind].
  rewrite sum_list_sum.
  replace (len avgs) with (Z.of_nat (length anchors - 1))
    by (unfold len, avgs; now rewrite length_map, length_seq).
  reflexivity.
Qed.


End StrokeFacts.



(* ================================================================= *)
(** ** The rows of the nuclear-membrane chart *)

Section ChartFacts.

Lemma last_as_nth {A : Type} (l : list A) (d : A) :
  last l d = nth (length l - 1) l d.
Proof.
  induction l as [|x l IH]; [reflexivity|].
  destruct l as [|y l]; [reflexivity|].
  change (last (x :: y :: l) d) with (last (y :: l) d).
  rewrite IH; simpl; now rewrite Nat.sub_0_r.
Qed.

(** What the search loop returns on the strokes [k, ..., k + m - 1]. *)
Lemma find_stroke_spec (b : list Z) (j : Z) (m k : nat) :
  (k + m < length b)%nat ->
  (exists s,
     (k <= s < k + m)%nat
     /\ Workbook.find_stroke b j (seq k m) = Ok (Z.of_nat s)
     /\ (nth s b 0 <= j <= nth (S s) b 0)%Z
     /\ forall s', (k <= s' < s)%nat ->
                   ~ (nth s' b 0 <= j <= nth (S s') b 0)%Z)
  \/ (Workbook.find_stroke b j (seq k m) = Ok (-1)%Z
      /\ forall s', (k <= s' < k + m)%nat ->
                    ~ (nth s' b 0 <= j <= nth (S s') b 0)%Z).
Proof.
  revert k; induction m as [|m IH]; intros k Hk.
  - right; split; [reflexivity|intros; lia].
  - cbn [seq Workbook.find_stroke].
    rewrite (getitem_nth b k 0%Z) by lia; cbn [bind].
    destruct (Z.leb_spec (nth k b 0%Z) j) as [Hlo|Hlo].
    + rewrite (getitem_succ b k 0%Z) by lia; cbn [bind].
      destruct (Z.leb_spec j (nth (S k) b 0%Z)) as [Hhi|Hhi].
      * left; exists k; repeat split; try lia.
      * destruct (IH (S k) ltac:(lia))
          as [(s & Hs & Hrun & HP & Hmin)|[Hrun Hnone]].
        -- left; exists s; repeat split; try assumption; try lia.
           intros s' Hs'; destruct (Nat.eq_dec s' k) as [->|Hne];
             [lia|apply Hmin; lia].
        -- right; split; [assumption|].
           intros s' Hs'; destruct (Nat.eq_dec s' k) as [->|Hne];
             [lia|apply Hnone; lia].
    + destruct (IH (S k) ltac:(lia))
        as [(s & Hs & Hrun & HP & Hmin)|[Hrun Hnone]].
      * left; exists s; repeat split; try assumption; try lia.
        intros s' Hs'; destruct (Nat.eq_dec s' k) as [->|Hne];
          [lia|apply Hmin; lia].
      * right; split; [assumption|].
        intros s' Hs'; destruct (Nat.eq_dec s' k) as [->|Hne];
          [lia|apply Hnone; lia].
Qed.

(** When no stroke encloses [j], every boundary after the first lies
    below [j]. *)
Lemma no_stroke_below (b : list Z) (j : Z) (m : nat) :
  (nth 0 b 0 <= j)%Z ->
  (forall s', (s' < m)%nat -> ~ (nth s' b 0 <= j <= nth (S s') b 0)%Z) ->
  forall s, (1 <= s <= m)%nat -> (nth s b 0 < j)%Z.
Proof.
  intros H0 Hnone s [H1 Hm]; induction s as [|s IH]; [lia|].
  destruct s as [|s].
  - specialize (Hnone O ltac:(lia)); lia.
  - specialize (IH ltac:(lia) ltac:(lia)).
    specialize (Hnone (S s) ltac:(lia)); lia.
Qed.

(** X14: the stroke a profile index is drawn in.  For a boundary list of
    at least two entries and an index between the first and the last
    boundary, the search finds a stroke whose boundaries enclose the index,
    and it is the first such stroke: a pixel on the boundary between two
    strokes is drawn in the earlier one.  An index that no stroke encloses
    gets [-1]. *)
Theorem current_stroke_first (boundaries : list Z) (j : Z) :
  (2 <= length boundaries)%nat ->
  (nth 0 boundaries 0 <= j <= last boundaries 0)%Z ->
  (exists s,
     (S s < length boundaries)%nat
     /\ Workbook.current_stroke boundaries j = Ok (Z.of_nat s)
     /\ (nth s boundaries 0 <= j <= nth (S s) boundaries 0)%Z
     /\ forall s', (s' < s)%nat ->
          ~ (nth s' boundaries 0 <= j <= nth (S s') boundaries 0)%Z)
  /\ forall j',
       (forall s', (S s' < length boundaries)%nat ->
          ~ (nth s' boundaries 0 <= j' <= nth (S s') boundaries 0)%Z) ->
       Workbook.current_stroke boundaries j' = Ok (-1)%Z.
Proof.
  intros Hlen [H0 Hlast].
  assert (Hrange : range 0 (Z.to_nat (len boundaries - 1))
                   = seq 0 (length boundaries - 1))
    by (unfold range, len; f_equal; lia).
  unfold Workbook.current_stroke; rewrite Hrange; split.
  - destruct (find_stroke_spec boundaries j (length boundaries - 1) 0
                ltac:(lia)) as [(s & Hs & Hrun & HP & Hmin)|[_ Hnone]].
    + exists s; repeat split; try assumption; try lia.
      intros s' Hs'; apply Hmin; lia.
    + exfalso.
      pose proof (no_stroke_below boundaries j (length boundaries - 1) H0)
        as Hbelow.
      rewrite last_as_nth in Hlast.
      assert ((nth (length boundaries - 1) boundaries 0 < j)%Z); [|lia].
      apply Hbelow; [|lia].
      intros s' Hs'; apply Hnone; lia.
  - intros j' Hnone.
    destruct (find_stroke_spec boundaries j' (length boundaries - 1) 0
                ltac:(lia)) as [(s & Hs & _ & HP & _)|[Hrun _]];
      [|assumption].
    exfalso; apply (Hnone s); [lia|assumption].
Qed.

Lemma current_stroke_first_witness :
  Workbook.current_stroke [0; 2; 9]%Z 2 = Ok 0%Z
  /\ Workbook.current_stroke [0; 2; 9]%Z 3 = Ok 1%Z.
Proof.
  assert (Hlen : (2 <= length [0; 2; 9]%Z)%nat) by (simpl; lia).
  assert (H2 : (nth 0 [0; 2; 9] 0 <= 2 <= last [0; 2; 9] 0)%Z)
    by (simpl; lia).
  destruct (current_stroke_first [0; 2; 9]%Z 2 Hlen H2)
    as [(s & Hs & Hrun & HP & Hmin) _].
  split; [|reflexivity].
  rewrite Hrun; f_equal.
  destruct s as [|[|s]]; [reflexivity| |simpl in Hs; lia].
  exfalso; apply (Hmin O); [lia|simpl; lia].
Defined.





End ChartFacts.

(* ================================================================= *)
(** ** Further properties of the boundary computation *)

Section BoundaryFacts.

Lemma translate_length (dx dy : Z) (anchors : list Spec.Anchor) :
  length (translate dx dy anchors) = length anchors.
Proof. apply length_map. Qed.

Lemma translate_nth (dx dy : Z) (anchors : list Spec.Anchor) (i : nat) :
  (i < length anchors)%nat ->
  nth i (translate dx dy anchors) (0, 0)%Z
  = ((fst (nth i anchors (0, 0)%Z) + dx)%Z,
     (snd (nth i anchors (0, 0)%Z) + dy)%Z).
Proof.
  intros Hi; unfold translate.
  rewrite (nth_indep _ (0, 0)%Z (0 + dx, 0 + dy)%Z)
    by (now rewrite length_map).
  exact (map_nth (fun p : Spec.Anchor => (fst p + dx, snd p + dy)%Z)
           anchors (0, 0)%Z i).
Qed.

Lemma D_translate (dx dy : Z) (anchors : list Spec.Anchor) (i : nat) :
  (i < length anchors)%nat ->
  Spec.D (translate dx dy anchors) i = Spec.D anchors i.
Proof.
  induction i as [|i IH]; intros Hi; [reflexivity|].
  cbn [Spec.D]; rewrite IH by lia.
  rewrite !translate_nth by lia.
  unfold Spec.dist; cbn [fst snd].
  do 3 f_equal; ring.
Qed.

(** X16: the boundaries depend on the shape of the polyline only, not on
    where it lies in the image: translating all anchors by the same offset
    leaves the result unchanged, the failure on a degenerate polyline
    included. *)
Theorem segment_boundaries_translate (dx dy : Z)
    (anchors : list Spec.Anchor) (profile_length : Z) :
  calculate_segment_boundaries (Spec.x_of (translate dx dy anchors))
    (Spec.y_of (translate dx dy anchors)) profile_length
  = calculate_segment_boundaries (Spec.x_of anchors) (Spec.y_of anchors)
      profile_length.
Proof.
  destruct anchors as [|p rest] eqn:Ha; [reflexivity|]; rewrite <- Ha.
  assert (Hne : anchors <> []) by (rewrite Ha; discriminate).
  assert (Hne' : translate dx dy anchors <> [])
    by (rewrite Ha; discriminate).
  assert (Hpos : (0 < length anchors)%nat)
    by (rewrite Ha; simpl; lia).
  assert (HD : Spec.D (translate dx dy anchors)
                 (length (translate dx dy anchors) - 1)
               = Spec.D anchors (length anchors - 1))
    by (rewrite translate_length; apply D_translate; lia).
  destruct (Req_dec_T (Spec.D anchors (length anchors - 1)) 0) as [H0|H0].
  - rewrite !calculate_segment_boundaries_degenerate;
      try assumption; [reflexivity|now rewrite HD].
  - rewrite !calculate_segment_boundaries_ok;
      try assumption; [|now rewrite HD].
    rewrite HD, translate_length; f_equal.
    apply map_ext_in; intros i Hi; apply in_seq in Hi.
    now rewrite D_translate by lia.
Qed.

Lemma getitem_out_of_range {A : Type} (l : list A) (i : nat) :
  (length l <= i)%nat -> getitem l (Z.of_nat i) = Raise IndexError.
Proof.
  intros Hi; rewrite getitem_nat.
  now apply nth_error_None in Hi as ->.
Qed.

Lemma distances_loop_short (xs ys : list Z) (m k : nat) (total : R)
    (acc : list R) :
  (1 <= k)%nat -> (1 <= m)%nat -> (k + m <= length xs)%nat ->
  (length ys < k + m)%nat ->
  distances_loop xs ys (seq k m) total acc = Raise IndexError.
Proof.
  revert k total acc; induction m as [|m IH];
    intros k total acc Hk Hm Hx Hy; [lia|].
  cbn [seq distances_loop].
  destruct k as [|k]; [lia|].
  rewrite (getitem_nth xs (S k) 0%Z), (getitem_pred xs k 0%Z) by lia.
  cbn [bind].
  destruct (Nat.le_gt_cases (length ys) (S k)) as [Hout|Hin].
  - now rewrite getitem_out_of_range.
  - rewrite (getitem_nth ys (S k) 0%Z), (getitem_pred ys k 0%Z) by lia.
    cbn [bind]; rewrite math_sqrt_squares; cbn [bind].
    apply IH; lia.
Qed.

End BoundaryFacts.

(** X17: coordinate lists that are not a polyline.  Without anchors the
    result is the empty list; with a single anchor the total distance is
    zero and the division raises [ZeroDivisionError] (the caller checks the
    number of anchors first); with at least two x coordinates and fewer y
    coordinates the first loop runs off the y list and raises
    [IndexError]. *)
Theorem segment_boundaries_malformed :
  (forall ys L, calculate_segment_boundaries [] ys L = Ok [])
  /\ (forall x ys L,
        calculate_segment_boundaries [x] ys L = Raise ZeroDivisionError)
  /\ (forall xs ys L,
        (2 <= length xs)%nat -> (length ys < length xs)%nat ->
        calculate_segment_boundaries xs ys L = Raise IndexError).
Proof.
  split; [reflexivity|]; split.
  - intros x ys L; unfold calculate_segment_boundaries.
    cbn [length range Nat.sub seq distances_loop bind boundaries_loop].
    change (Z.of_nat 0) with 0%Z; cbn [getitem].
    change (getitem [0] 0%Z) with (Ok 0); cbn [bind].
    now rewrite truediv_zero.
  - intros xs ys L Hx Hy; unfold calculate_segment_boundaries, range.
    rewrite distances_loop_short by lia; reflexivity.
Qed.

Lemma segment_boundaries_malformed_witness :
  calculate_segment_boundaries [0; 5; 10]%Z [0; 0]%Z 11 = Raise IndexError.
Proof.
  apply (proj2 (proj2 segment_boundaries_malformed)); simpl; lia.
Defined.

(* ================================================================= *)
(** ** The range of the means and of the ratio *)

Section RangeFacts.

Lemma Forall2_In_r {A B : Type} (P : A -> B -> Prop) (l1 : list A)
    (l2 : list B) (y : B) :
  Forall2 P l1 l2 -> In y l2 -> exists x, In x l1 /\ P x y.
Proof.
  induction 1 as [|x y' l1 l2 HP _ IH]; intros Hin; [contradiction|].
  destruct Hin as [->|Hin].
  - exists x; split; [now left|assumption].
  - destruct (IH Hin) as (x' & Hx' & HP'); exists x'; split;
      [now right|assumption].
Qed.

Lemma slice_incl {A : Type} (l : list A) (a b : Z) (x : A) :
  In x (slice l a b) -> In x l.
Proof.
  unfold slice; intros H.
  set (n := Z.to_nat (slice_index (len l) a)) in *.
  set (m := Z.to_nat (slice_index (len l) b - slice_index (len l) a)) in *.
  rewrite <- (firstn_skipn n l); apply in_or_app; right.
  rewrite <- (firstn_skipn m (skipn n l)); apply in_or_app; now left.
Qed.

Lemma segment_values_incl (fp : list R) (sb : list Z) (seg : nat)
    (v : list R) (x : R) :
  segment_values fp sb seg = Ok v -> In x v -> In x fp.
Proof.
  unfold segment_values; intros H Hx.
  destruct (getitem sb (Z.of_nat seg)) as [a|e]; cbn [bind] in H;
    [|discriminate].
  destruct (getitem sb (Z.of_nat seg + 1)) as [b|e]; cbn [bind] in H;
    [|discriminate].
  injection H as <-; now apply slice_incl in Hx.
Qed.

Lemma measure_cytoplasm_inv (self : EnhancedNuclearAnalyzer)
    (roi : option Roi) (cd : cytoplasm_data) :
  measure_cytoplasm_detailed self roi = Ok (Some cd) ->
  cyto_top_values cd
  = top_values (raw_profile cd) (threshold_percentage self)
  /\ cyto_top_values cd <> []
  /\ mean cd = Spec.mean_of (cyto_top_values cd).
Proof.
  unfold measure_cytoplasm_detailed.
  destruct roi as [r|]; [|discriminate].
  destruct (getType r); [|discriminate].
  destruct (getProfile r) as [profile|]; [|discriminate].
  destruct (len profile =? 0)%Z; [discriminate|].
  change (slice_from (sorted profile)
            (threshold_idx (sorted profile) (threshold_percentage self)))
    with (top_values profile (threshold_percentage self)).
  destruct (if (threshold_idx (sorted profile) (threshold_percentage self)
                <? len (sorted profile))%Z
            then getitem (sorted profile)
                   (threshold_idx (sorted profile)
                      (threshold_percentage self))
            else Ok 0) as [tv|e]; cbn [bind]; [|discriminate].
  destruct (top_values profile (threshold_percentage self))
    as [|x top] eqn:Htop.
  - rewrite truediv_len_nil; discriminate.
  - rewrite truediv_len by discriminate; cbn [bind].
    intros H; injection H as <-.
    cbn [cyto_top_values raw_profile mean].
    rewrite Htop, sum_list_sum; repeat split; discriminate.
Qed.

Lemma mean_of_pos (l : list R) :
  l <> [] -> (forall x, In x l -> 0 < x) -> 0 < Spec.mean_of l.
Proof.
  intros Hne H; unfold Spec.mean_of.
  pose proof (INR_length_pos l Hne) as Hpos.
  apply Rmult_lt_0_compat; [|now apply Rinv_0_lt_compat].
  destruct l as [|x l]; [contradiction|].
  change (Spec.list_sum (x :: l)) with (x + Spec.list_sum l).
  assert (0 < x) by (apply H; now left).
  assert (0 <= Spec.list_sum l); [|lra].
  clear Hne Hpos; induction l as [|y l IH]; [simpl; lra|].
  change (Spec.list_sum (y :: l)) with (y + Spec.list_sum l).
  assert (0 < y) by (apply H; right; now left).
  assert (0 <= Spec.list_sum l); [|lra].
  apply IH; intros z [->|Hz]; apply H; [now left|right; now right].
Qed.

(** X20: for positive intensities the zero policy of the ratio is never
    used: when every value of the two profiles of a measured cell is
    positive, both means are positive and the stored ratio is the nuclear
    mean divided by the cytoplasm mean, a positive number. *)
Theorem cell_ratio_positive (self : EnhancedNuclearAnalyzer)
    (nuclear_roi cytoplasm_roi : option Roi) (cell : cell_data) :
  analyze_single_cell self nuclear_roi cytoplasm_roi = Ok (Some cell) ->
  (forall x, In x (full_profile (cell_nuclear_data cell)) -> 0 < x) ->
  (forall x, In x (raw_profile (cell_cytoplasm_data cell)) -> 0 < x) ->
  0 < nuclear_mean cell
  /\ 0 < cytoplasm_mean cell
  /\ cell_ratio cell = nuclear_mean cell / cytoplasm_mean cell
  /\ 0 < cell_ratio cell.
Proof.
  intros H Hn Hc.
  apply analyze_single_cell_inv in H
    as (_ & Hmn & Hmc & Hnm & Hcm & Hratio).
  assert (Hcpos : 0 < cytoplasm_mean cell).
  { apply measure_cytoplasm_inv in Hmc as (Htop & Hne & Hmean).
    rewrite Hcm, Hmean; apply mean_of_pos; [assumption|].
    intros x Hx; apply Hc.
    rewrite Htop in Hx; now apply top_values_incl in Hx. }
  assert (Hnpos : 0 < nuclear_mean cell).
  { destruct (measure_nuclear_inv _ _ _ Hmn)
      as (r & vals & _ & _ & _ & _ & Hv & Hm & _ & Hne & Hmean).
    rewrite Hnm, Hmean; apply mean_of_pos; [assumption|].
    intros a Ha.
    destruct (Forall2_In_r _ _ _ a Hm Ha) as (v & Hin & Htpm).
    apply top_percent_mean_inv in Htpm as [Htop ->].
    apply mean_of_pos; [assumption|].
    intros x Hx; apply Hn.
    apply top_values_incl in Hx.
    apply filter_In in Hin as [Hin _].
    destruct (Forall2_In_r _ _ _ v Hv Hin) as (seg & _ & Hseg).
    now apply (segment_values_incl _ _ _ _ _ Hseg). }
  destruct (Rgt_dec (cytoplasm_mean cell) 0) as [_|Hn0]; [|lra].
  repeat split; try assumption.
  rewrite Hratio; apply Rmult_lt_0_compat; [assumption|].
  now apply Rinv_0_lt_compat.
Qed.

Lemma cell_ratio_positive_witness :
  cell_ratio example_cell = nuclear_mean example_cell
                            / cytoplasm_mean example_cell
  /\ 0 < cell_ratio example_cell.
Proof.
  assert (Hrun : analyze_single_cell
                   {| threshold_percentage := 50; cell_count := 1 |}
                   (Some (polyline_roi uneven_anchors sample_1_to_10))
                   (Some (polyline_roi colinear_anchors [3; 1; 2]))
                 = Ok (Some example_cell))
    by (now apply analyze_single_cell_example).
  assert (Hn : forall x,
             In x (full_profile (cell_nuclear_data example_cell)) -> 0 < x)
    by (intros x Hx; cbn in Hx;
        repeat (destruct Hx as [<-|Hx]; [lra|]); contradiction).
  assert (Hc : forall x,
             In x (raw_profile (cell_cytoplasm_data example_cell)) -> 0 < x)
    by (intros x Hx; cbn in Hx;
        repeat (destruct Hx as [<-|Hx]; [lra|]); contradiction).
  destruct (cell_ratio_positive _ _ _ _ Hrun Hn Hc) as (_ & _ & Hr & Hpos).
  split; assumption.
Defined.

End RangeFacts.


Lemma comparison_summary_guard_witness :
  Workbook.comparison_summary [] 10 = Raise ZeroDivisionError
  /\ exists res, Workbook.comparison_summary [example_cell] 10 = Ok res.
Proof.
  split.
  - exact (proj1 (comparison_summary_guard [] 10) eq_refl).
  - apply (proj2 (comparison_summary_guard [example_cell] 10)).
    discriminate.
Defined.

(* ================================================================= *)
(** ** Rounding to double precision *)

Section Rounding.

Lemma Rabs_le_both (x a : R) : Rabs x <= a -> - a <= x <= a.
Proof. unfold Rabs; destruct (Rcase_abs x); lra. Qed.

(** *** Powers of two *)

Lemma pow2_pos (e : Z) : 0 < pow2 e.
Proof. apply powerRZ_lt; lra. Qed.

Lemma pow2_add (a b : Z) : pow2 (a + b) = pow2 a * pow2 b.
Proof. apply powerRZ_add; lra. Qed.

Lemma pow2_0 : pow2 0 = 1.
Proof. reflexivity. Qed.

Lemma pow2_opp (e : Z) : pow2 (- e) = / pow2 e.
Proof. apply powerRZ_neg'. Qed.

Lemma pow2_cancel (e : Z) : pow2 (- e) * pow2 e = 1.
Proof. rewrite pow2_opp; field; apply Rgt_not_eq, pow2_pos. Qed.

Lemma pow2_IZR (e : Z) : (0 <= e)%Z -> pow2 e = IZR (2 ^ e).
Proof.
  intros He; unfold pow2.
  rewrite <- (Z2Nat.id e He), <- pow_powerRZ, pow_IZR; reflexivity.
Qed.

Lemma pow2_ge_1 (e : Z) : (0 <= e)%Z -> 1 <= pow2 e.
Proof.
  intros He; rewrite pow2_IZR by assumption.
  apply IZR_le; assert (0 < 2 ^ e)%Z by (apply Z.pow_pos_nonneg; lia); lia.
Qed.

Lemma pow2_le (a b : Z) : (a <= b)%Z -> pow2 a <= pow2 b.
Proof.
  intros H; replace b with (a + (b - a))%Z by lia.
  rewrite pow2_add.
  assert (1 <= pow2 (b - a)) by (apply pow2_ge_1; lia).
  assert (0 < pow2 a) by apply pow2_pos; nra.
Qed.

Lemma pow2_exp (e : Z) : pow2 e = exp (IZR e * ln 2).
Proof. unfold pow2; rewrite powerRZ_Rpower by lra; reflexivity. Qed.

(** *** The magnitude *)

Lemma ln2_pos : 0 < ln 2.
Proof. rewrite <- ln_1; apply ln_increasing; lra. Qed.

Lemma mag_spec (x : R) :
  x <> 0 -> pow2 (mag x - 1) <= Rabs x < pow2 (mag x).
Proof.
  intros Hx; unfold mag.
  assert (Ha : 0 < Rabs x) by now apply Rabs_pos_lt.
  set (r := ln (Rabs x) / ln 2).
  destruct (Int_part_bounds r) as [H1 H2].
  pose proof ln2_pos as Hl.
  assert (Hr : ln (Rabs x) = r * ln 2) by (unfold r; field; lra).
  rewrite !pow2_exp, <- (exp_ln (Rabs x)) at 1 by assumption.
  rewrite <- (exp_ln (Rabs x)) at 2 by assumption.
  rewrite Hr.
  replace (Int_part r + 1 - 1)%Z with (Int_part r) by lia.
  rewrite plus_IZR.
  split.
  - destruct (Req_dec (IZR (Int_part r)) r) as [->|Hne]; [lra|].
    left; apply exp_increasing; nra.
  - apply exp_increasing; simpl; nra.
Qed.

Lemma mag_unique (x : R) (k : Z) :
  pow2 (k - 1) <= Rabs x < pow2 k -> mag x = k.
Proof.
  intros [H1 H2].
  assert (Hx : x <> 0).
  { intros ->; rewrite Rabs_R0 in H1; pose proof (pow2_pos (k - 1)); lra. }
  destruct (mag_spec x Hx) as [H3 H4].
  destruct (Z.lt_trichotomy (mag x) k) as [Hlt|[Heq|Hgt]]; [|assumption|].
  - assert (pow2 (mag x) <= pow2 (k - 1)) by (apply pow2_le; lia); lra.
  - assert (pow2 k <= pow2 (mag x - 1)) by (apply pow2_le; lia); lra.
Qed.

(** *** Rounding to the nearest integer, ties to even *)

Lemma nearest_even_half (x : R) : Rabs (IZR (nearest_even x) - x) <= / 2.
Proof.
  unfold nearest_even; destruct (Int_part_bounds x) as [H1 H2].
  destruct (Rlt_dec _ _); [|destruct (Rlt_dec _ _); [|destruct (Z.even _)]];
    try rewrite plus_IZR; apply Rabs_le; lra.
Qed.

Lemma nearest_even_eval (x : R) (m : Z) :
  Rabs (x - IZR m) < / 2 -> nearest_even x = m.
Proof.
  intros H; pose proof (nearest_even_half x) as Hn.
  apply Rabs_def2 in H; apply Rabs_le_both in Hn.
  assert (IZR (nearest_even x) - IZR m < 1) by lra.
  assert (-1 < IZR (nearest_even x) - IZR m) by lra.
  rewrite <- minus_IZR in *.
  assert (nearest_even x - m < 1)%Z by now apply lt_IZR.
  assert (-1 < nearest_even x - m)%Z by now apply lt_IZR.
  lia.
Qed.

Lemma nearest_even_IZR (m : Z) : nearest_even (IZR m) = m.
Proof.
  apply nearest_even_eval; rewrite Rminus_diag, Rabs_R0; lra.
Qed.

Lemma nearest_even_tie (m : Z) :
  nearest_even (IZR m + / 2) = if Z.even m then m else (m + 1)%Z.
Proof.
  unfold nearest_even.
  assert (Int_part (IZR m + / 2) = m) as -> by (apply Int_part_unique; lra).
  destruct (Rlt_dec _ _); [lra|]; destruct (Rlt_dec _ _); [lra|reflexivity].
Qed.

(** No integer is nearer to [x] than [nearest_even x]. *)
Lemma nearest_even_nearest (x : R) (k : Z) :
  Rabs (IZR (nearest_even x) - x) <= Rabs (IZR k - x).
Proof.
  destruct (Rle_lt_dec (Rabs (IZR (nearest_even x) - x)) (Rabs (IZR k - x)))
    as [H|H]; [assumption|].
  pose proof (nearest_even_half x) as Hn.
  assert (Hk : Rabs (x - IZR k) < / 2) by (rewrite Rabs_minus_sym; lra).
  apply nearest_even_eval in Hk; rewrite Hk in H; lra.
Qed.

Lemma nearest_even_bound (x : R) (b : Z) :
  Rabs x <= IZR b -> (Z.abs (nearest_even x) <= b)%Z.
Proof.
  intros H.
  pose proof (nearest_even_nearest x b) as H1.
  pose proof (nearest_even_nearest x (- b)) as H2.
  rewrite opp_IZR in H2.
  apply Rabs_le_both in H.
  assert (IZR (nearest_even x) <= IZR b).
  { revert H1; unfold Rabs; repeat destruct (Rcase_abs _); lra. }
  assert (- IZR b <= IZR (nearest_even x)).
  { revert H2; unfold Rabs; repeat destruct (Rcase_abs _); lra. }
  rewrite <- opp_IZR in *.
  assert (nearest_even x <= b)%Z by now apply le_IZR.
  assert (- b <= nearest_even x)%Z by now apply le_IZR.
  lia.
Qed.

(** *** Rounding to double precision *)

Lemma rnd_0 : rnd 0 = 0.
Proof.
  unfold rnd; rewrite Rmult_0_l.
  change 0 with (IZR 0) at 1; rewrite nearest_even_IZR; lra.
Qed.

Lemma cexp_ge (x : R) : (-1074 <= cexp x)%Z.
Proof. unfold cexp; lia. Qed.

Lemma scaled_bound (x : R) :
  x <> 0 -> Rabs (x * pow2 (- cexp x)) < IZR (2 ^ 53).
Proof.
  intros Hx; destruct (mag_spec x Hx) as [_ H].
  rewrite Rabs_mult, (Rabs_pos_eq (pow2 _)) by (left; apply pow2_pos).
  assert (pow2 (mag x) <= pow2 (53 + cexp x)) by (apply pow2_le; unfold cexp; lia).
  rewrite pow2_add, <- pow2_IZR in * by lia.
  pose proof (pow2_pos (cexp x)); pose proof (pow2_pos (- cexp x)).
  pose proof (pow2_cancel (cexp x)).
  pose proof (pow2_pos 53).
  assert (Rabs x * pow2 (- cexp x) < pow2 53 * pow2 (cexp x) * pow2 (- cexp x)).
  { apply Rmult_lt_compat_r; lra. }
  nra.
Qed.

Lemma rnd_representable (x : R) : representable (rnd x).
Proof.
  exists (nearest_even (x * pow2 (- cexp x))), (cexp x).
  split; [reflexivity|]; split; [|apply cexp_ge].
  destruct (Req_dec x 0) as [->|Hx].
  - rewrite Rmult_0_l; change 0 with (IZR 0); rewrite nearest_even_IZR; simpl; lia.
  - apply nearest_even_bound; left; now apply scaled_bound.
Qed.

(** Multiples of the unit in the last place of [x] are no nearer to [x]
    than [rnd x]. *)
Lemma rnd_nearest_multiple (x : R) (k : Z) :
  Rabs (rnd x - x) <= Rabs (IZR k * pow2 (cexp x) - x).
Proof.
  unfold rnd; set (u := pow2 (cexp x)).
  assert (Hu : 0 < u) by apply pow2_pos.
  assert (Hc : pow2 (- cexp x) = / u) by apply pow2_opp.
  rewrite Hc.
  pose proof (nearest_even_nearest (x * / u) k) as H.
  replace (IZR (nearest_even (x * / u)) * u - x)
    with ((IZR (nearest_even (x * / u)) - x * / u) * u) by (field; lra).
  replace (IZR k * u - x) with ((IZR k - x * / u) * u) by (field; lra).
  rewrite !Rabs_mult, (Rabs_pos_eq u) by lra.
  apply Rmult_le_compat_r; lra.
Qed.

(** [rnd x] is a representable number nearest to [x]. *)
Lemma rnd_nearest (x f : R) :
  representable f -> Rabs (rnd x - x) <= Rabs (f - x).
Proof.
  intros (m & e & -> & Hm & He).
  destruct (Req_dec x 0) as [->|Hx].
  { rewrite rnd_0, Rminus_diag, Rabs_R0; apply Rabs_pos. }
  destruct (Z_le_gt_dec (cexp x) e) as [Hle|Hgt].
  - (* f is a multiple of the unit in the last place of x *)
    replace (IZR m * pow2 e) with (IZR (m * 2 ^ (e - cexp x)) * pow2 (cexp x)).
    + apply rnd_nearest_multiple.
    + rewrite mult_IZR, <- pow2_IZR by lia.
      replace e with ((e - cexp x) + cexp x)%Z at 2 by lia.
      rewrite pow2_add; ring.
  - (* f is below the binade of x *)
    assert (Hc : cexp x = (mag x - 53)%Z) by (unfold cexp in *; lia).
    destruct (mag_spec x Hx) as [Hlo Hhi].
    assert (Hp : pow2 (mag x - 1) = IZR (2 ^ 52) * pow2 (cexp x)).
    { rewrite <- pow2_IZR, <- pow2_add by lia; f_equal; lia. }
    assert (Hf : Rabs (IZR m * pow2 e) <= pow2 (mag x - 1)).
    { rewrite Rabs_mult, (Rabs_pos_eq (pow2 e)) by (left; apply pow2_pos).
      rewrite <- abs_IZR.
      assert (IZR (Z.abs m) <= IZR (2 ^ 53)) by now apply IZR_le.
      assert (pow2 e <= pow2 (cexp x - 1)) by (apply pow2_le; lia).
      pose proof (pow2_pos e).
      assert (0 <= IZR (Z.abs m)) by (apply IZR_le; lia).
      replace (mag x - 1)%Z with (53 + (cexp x - 1))%Z by lia.
      rewrite pow2_add, (pow2_IZR 53) by lia.
      apply Rmult_le_compat; lra. }
    destruct (Rle_lt_dec 0 x) as [Hpos|Hneg].
    + pose proof (rnd_nearest_multiple x (2 ^ 52)) as Hn.
      rewrite <- Hp in Hn.
      rewrite (Rabs_pos_eq x) in Hlo by assumption.
      apply Rabs_le_both in Hf.
      eapply Rle_trans; [exact Hn|].
      rewrite (Rabs_left1 (pow2 _ - x)) by lra.
      rewrite (Rabs_left1 (_ - x)) by lra. lra.
    + pose proof (rnd_nearest_multiple x (- 2 ^ 52)) as Hn.
      rewrite opp_IZR, Ropp_mult_distr_l_reverse, <- Hp in Hn.
      rewrite (Rabs_left x) in Hlo by assumption.
      apply Rabs_le_both in Hf.
      eapply Rle_trans; [exact Hn|].
      rewrite (Rabs_pos_eq (- pow2 _ - x)) by lra.
      rewrite (Rabs_pos_eq (_ - x)) by lra. lra.
Qed.

Lemma rnd_id (x : R) : representable x -> rnd x = x.
Proof.
  intros H; pose proof (rnd_nearest x x H) as Hn.
  rewrite Rminus_diag, Rabs_R0 in Hn.
  pose proof (Rabs_pos (rnd x - x)).
  assert (Rabs (rnd x - x) = 0) by lra.
  destruct (Req_dec (rnd x - x) 0) as [?|Hne]; [lra|].
  apply Rabs_pos_lt in Hne; lra.
Qed.

Lemma rnd_le (x y : R) : x <= y -> rnd x <= rnd y.
Proof.
  intros Hxy.
  destruct (Rle_lt_dec (rnd x) (rnd y)) as [H|H]; [assumption|exfalso].
  pose proof (rnd_nearest x (rnd y) (rnd_representable y)) as H1.
  pose proof (rnd_nearest y (rnd x) (rnd_representable x)) as H2.
  assert (x = y).
  { revert H1 H2; unfold Rabs; repeat destruct (Rcase_abs _); lra. }
  subst; lra.
Qed.

Lemma representable_IZR (z : Z) :
  (Z.abs z <= 2 ^ 53)%Z -> representable (IZR z).
Proof.
  intros H; exists z, 0%Z; rewrite pow2_0; repeat split; [ring|assumption|lia].
Qed.

Lemma rnd_IZR (z : Z) : (Z.abs z <= 2 ^ 53)%Z -> rnd (IZR z) = IZR z.
Proof. intros H; now apply rnd_id, representable_IZR. Qed.

Lemma rnd_nonneg (x : R) : 0 <= x -> 0 <= rnd x.
Proof. intros H; rewrite <- rnd_0; now apply rnd_le. Qed.

(** Evaluation of [rnd] at a point that is not halfway between two
    neighbouring representable numbers. *)
Lemma rnd_eval (x : R) (k m : Z) :
  pow2 (k - 1) <= Rabs x < pow2 k ->
  Rabs (x * pow2 (- Z.max (k - 53) (-1074)) - IZR m) < / 2 ->
  rnd x = IZR m * pow2 (Z.max (k - 53) (-1074)).
Proof.
  intros Hk Hm; unfold rnd, cexp; rewrite (mag_unique x k Hk).
  now rewrite (nearest_even_eval _ m Hm).
Qed.

(** The same at a point halfway between two neighbours. *)
Lemma rnd_eval_tie (x : R) (k m : Z) :
  pow2 (k - 1) <= Rabs x < pow2 k ->
  x * pow2 (- Z.max (k - 53) (-1074)) = IZR m + / 2 ->
  rnd x = IZR (if Z.even m then m else m + 1) * pow2 (Z.max (k - 53) (-1074)).
Proof.
  intros Hk Hm; unfold rnd, cexp; rewrite (mag_unique x k Hk), Hm.
  now rewrite nearest_even_tie.
Qed.

Lemma pow2_neg_IZR (e : Z) : (0 <= e)%Z -> pow2 (- e) = / IZR (2 ^ e).
Proof. intros He; now rewrite pow2_opp, pow2_IZR. Qed.

(** A fraction [m / 2^p] with a significand of at most 53 bits is a
    double. *)
Lemma representable_frac (x : R) (m p : Z) :
  (Z.abs m <= 2 ^ 53)%Z -> (0 <= p <= 1074)%Z -> x * IZR (2 ^ p) = IZR m ->
  representable x.
Proof.
  intros Hm Hp Hx; exists m, (- p)%Z; split; [|split; [assumption|lia]].
  rewrite pow2_neg_IZR by lia.
  assert (0 < IZR (2 ^ p)) by (apply IZR_lt, Z.pow_pos_nonneg; lia).
  rewrite <- Hx; field; lra.
Qed.

Lemma rnd_exact (x : R) (m p : Z) :
  (Z.abs m <= 2 ^ 53)%Z -> (0 <= p <= 1074)%Z -> x * IZR (2 ^ p) = IZR m ->
  rnd x = x.
Proof. intros Hm Hp Hx; eapply rnd_id, representable_frac; eassumption. Qed.

End Rounding.

(** Concrete powers of two as numerals. *)
Ltac pow2_num :=
  repeat match goal with
  | |- context [pow2 ?z] =>
      let z' := eval vm_compute in z in
      match z' with
      | Z0 => change (pow2 z) with 1
      | Zpos ?p =>
          let v := eval vm_compute in (2 ^ z')%Z in
          replace (pow2 z) with (IZR v)
            by (symmetry; exact (pow2_IZR z' ltac:(easy)))
      | Zneg ?p =>
          let v := eval vm_compute in (2 ^ Zpos p)%Z in
          replace (pow2 z) with (/ IZR v)
            by (symmetry; exact (pow2_neg_IZR (Zpos p) ltac:(easy)))
      end
  end.

(** [rnd x] for a positive [x] of magnitude [k] whose scaled value is
    nearest to the integer [m]. *)
Ltac rnd_eval_at x k m :=
  rewrite (rnd_eval x k m);
  [ pow2_num
  | pow2_num; rewrite Rabs_pos_eq by lra; lra
  | pow2_num; apply Rabs_def1; lra ].

Ltac rnd_tie_at x k m :=
  rewrite (rnd_eval_tie x k m);
  [ pow2_num
  | pow2_num; rewrite Rabs_pos_eq by lra; lra
  | pow2_num; lra ].

(** [rnd x] for an [x] that is [m / 2^p]. *)
Ltac rnd_exact_at x m p :=
  rewrite (rnd_exact x m p);
  [ | vm_compute; discriminate | lia
    | let v := eval vm_compute in (2 ^ p)%Z in change (2 ^ p)%Z with v; lra ].

(* ================================================================= *)
(** ** The top-percent selection in double precision *)

Section DoubleSelection.

Lemma double_float_exact (n : Z) :
  (Z.abs n <= 2 ^ 53)%Z -> Double.float n = IZR n.
Proof. apply rnd_IZR. Qed.

Lemma double_float_nonneg (n : Z) : (0 <= n)%Z -> 0 <= Double.float n.
Proof. intros H; apply rnd_nonneg; now apply IZR_le. Qed.

Lemma double_truediv_nonzero (a b : R) :
  b <> 0 -> Double.truediv a b = Ok (Double.div a b).
Proof. intros H; unfold Double.truediv; destruct (Req_dec_T b 0); easy. Qed.

Lemma double_truediv_zero (a : R) :
  Double.truediv a 0 = Raise ZeroDivisionError.
Proof. unfold Double.truediv; destruct (Req_dec_T 0 0); easy. Qed.

Lemma double_div_le (x y d : R) :
  0 < d -> x <= y -> Double.div x d <= Double.div y d.
Proof.
  intros Hd Hxy; apply rnd_le.
  apply Rmult_le_compat_r; [left; now apply Rinv_0_lt_compat|assumption].
Qed.

Lemma rnd_1 : rnd 1 = 1.
Proof. apply (rnd_IZR 1); vm_compute; discriminate. Qed.

(** The factor [1.0 - threshold / 100.0]. *)
Lemma double_factor_range (t : R) :
  0 <= t <= 100 -> 0 <= Double.sub 1 (Double.div t 100) <= 1.
Proof.
  intros Ht.
  assert (Hq : 0 <= Double.div t 100 <= 1).
  { split.
    - apply rnd_nonneg; lra.
    - apply Rle_trans with (rnd 1); [apply rnd_le; lra|rewrite rnd_1; lra]. }
  split.
  - apply rnd_nonneg; lra.
  - apply Rle_trans with (rnd 1); [apply rnd_le; lra|rewrite rnd_1; lra].
Qed.

Lemma double_factor_antitone (t1 t2 : R) :
  t1 <= t2 ->
  Double.sub 1 (Double.div t2 100) <= Double.sub 1 (Double.div t1 100).
Proof.
  intros H; apply rnd_le.
  pose proof (double_div_le t1 t2 100 ltac:(lra) H); lra.
Qed.

(** From a threshold of 1 percent on, the factor is at most [127/128]. *)
Lemma double_factor_below (t : R) :
  1 <= t -> Double.sub 1 (Double.div t 100) <= 127 / 128.
Proof.
  intros Ht.
  assert (Hq : 1 / 128 <= Double.div t 100).
  { rewrite <- (rnd_exact (1 / 128) 1 7);
      [|vm_compute; discriminate|lia|change (2 ^ 7)%Z with 128%Z; lra].
    apply rnd_le; lra. }
  rewrite <- (rnd_exact (127 / 128) 127 7);
    [|vm_compute; discriminate|lia|change (2 ^ 7)%Z with 128%Z; lra].
  apply rnd_le; lra.
Qed.

Lemma double_threshold_idx_nonneg (l : list R) (t : R) :
  0 <= t <= 100 -> (0 <= Double.threshold_idx l t)%Z.
Proof.
  intros Ht; unfold Double.threshold_idx.
  pose proof (double_factor_range t Ht) as Hf.
  pose proof (double_float_nonneg (len l) (len_nonneg l)) as Hn.
  assert (0 <= Double.mul (Double.float (len l))
                 (Double.sub 1 (Double.div t 100)))
    by (apply rnd_nonneg; nra).
  rewrite int_nonneg by assumption; now apply Int_part_nonneg.
Qed.

(** A smaller threshold never gives a smaller cut. *)
Lemma double_threshold_idx_antitone (l : list R) (t1 t2 : R) :
  0 <= t1 -> t1 <= t2 -> t2 <= 100 ->
  (Double.threshold_idx l t2 <= Double.threshold_idx l t1)%Z.
Proof.
  intros H1 H12 H2; unfold Double.threshold_idx.
  pose proof (double_factor_range t1 ltac:(lra)) as Hf1.
  pose proof (double_factor_range t2 ltac:(lra)) as Hf2.
  pose proof (double_factor_antitone t1 t2 H12) as Hf.
  pose proof (double_float_nonneg (len l) (len_nonneg l)) as Hn.
  assert (Hm : Double.mul (Double.float (len l))
                 (Double.sub 1 (Double.div t2 100))
               <= Double.mul (Double.float (len l))
                    (Double.sub 1 (Double.div t1 100)))
    by (apply rnd_le; nra).
  assert (0 <= Double.mul (Double.float (len l))
                 (Double.sub 1 (Double.div t2 100)))
    by (apply rnd_nonneg; nra).
  rewrite !int_nonneg by lra; now apply Int_part_mono.
Qed.

(** For the thresholds the settings dialog lets through, the cut stays
    below the number of values. *)
Lemma double_threshold_idx_lt (l : list R) (t : R) :
  l <> [] -> (len l < 2 ^ 31)%Z -> 1 <= t <= 100 ->
  (Double.threshold_idx l t < len l)%Z.
Proof.
  intros Hne Hlen Ht; unfold Double.threshold_idx.
  pose proof (len_nonneg l) as H0.
  assert (Hpos : (0 < len l)%Z)
    by (destruct l; [easy|unfold len; simpl; lia]).
  rewrite double_float_exact by lia.
  pose proof (double_factor_range t ltac:(lra)) as Hf.
  pose proof (double_factor_below t ltac:(lra)) as Hb.
  assert (Hn : 0 < IZR (len l)) by now apply IZR_lt.
  set (p := Double.mul (IZR (len l)) (Double.sub 1 (Double.div t 100))).
  assert (Hp0 : 0 <= p) by (apply rnd_nonneg; nra).
  assert (Hp : p <= IZR (len l) * (127 / 128)).
  { rewrite <- (rnd_exact (IZR (len l) * (127 / 128)) (127 * len l) 7);
      [apply rnd_le; nra|lia|lia|].
    change (2 ^ 7)%Z with 128%Z; rewrite mult_IZR; lra. }
  rewrite int_nonneg by assumption.
  apply lt_IZR.
  destruct (Int_part_bounds p) as [Hi _]; unfold Spec.floor; lra.
Qed.

Lemma double_top_values_skipn (sample : list R) (t : R) :
  0 <= t <= 100 ->
  Double.top_values sample t
  = skipn (Z.to_nat (Double.threshold_idx (sorted sample) t)) (sorted sample).
Proof.
  intros Ht; unfold Double.top_values.
  now apply slice_from_nonneg, double_threshold_idx_nonneg.
Qed.

Lemma double_top_values_nonempty (sample : list R) (t : R) :
  sample <> [] -> (len sample < 2 ^ 31)%Z -> 1 <= t <= 100 ->
  Double.top_values sample t <> [].
Proof.
  intros Hne Hlen Ht Hnil.
  assert (Hs : sorted sample <> [])
    by (intros E; apply Hne, length_zero_iff_nil;
        rewrite <- sorted_length, E; reflexivity).
  assert (Hl : len (sorted sample) = len sample)
    by (unfold len; now rewrite sorted_length).
  pose proof (double_threshold_idx_lt (sorted sample) t Hs
                ltac:(now rewrite Hl) Ht) as Hlt.
  pose proof (double_threshold_idx_nonneg (sorted sample) t ltac:(lra)) as H0.
  rewrite double_top_values_skipn in Hnil by lra.
  apply (f_equal (@length R)) in Hnil.
  rewrite length_skipn in Hnil; simpl in Hnil.
  unfold len in Hlt; lia.
Qed.

(** The mean of a non-empty selection is returned: the rounded sum divided
    by the number of values. *)
Lemma double_mean_returned (top : list R) :
  top <> [] -> (len top < 2 ^ 31)%Z ->
  Double.truediv (Double.sum top) (Double.float (len top))
  = Ok (Double.div (Double.sum top) (IZR (len top))).
Proof.
  intros Hne Hlen.
  pose proof (len_nonneg top).
  rewrite double_float_exact by lia.
  apply double_truediv_nonzero.
  apply Rgt_not_eq, IZR_lt; destruct top; [easy|unfold len; simpl; lia].
Qed.

Lemma double_top_values_length_le (sample : list R) (t : R) :
  (len (Double.top_values sample t) <= len sample)%Z.
Proof.
  unfold Double.top_values, slice_from, len.
  rewrite length_skipn, sorted_length; lia.
Qed.

(** The selection at a smaller threshold is the upper end of the selection
    at a larger one. *)
Lemma double_top_values_nested (sample : list R) (t1 t2 : R) :
  0 <= t1 -> t1 <= t2 -> t2 <= 100 ->
  exists lower,
    Double.top_values sample t2 = lower ++ Double.top_values sample t1
    /\ forall a b, In a lower -> In b (Double.top_values sample t1) -> a <= b.
Proof.
  intros H1 H12 H2.
  rewrite !double_top_values_skipn by lra.
  pose proof (double_threshold_idx_antitone (sorted sample) t1 t2 H1 H12 H2)
    as Hc.
  pose proof (double_threshold_idx_nonneg (sorted sample) t2 ltac:(lra)) as H0.
  set (c1 := Z.to_nat (Double.threshold_idx (sorted sample) t1)).
  set (c2 := Z.to_nat (Double.threshold_idx (sorted sample) t2)).
  assert (Hle : (c2 <= c1)%nat) by (unfold c1, c2; lia).
  exists (firstn (c1 - c2) (skipn c2 (sorted sample))).
  split; [now apply skipn_split|].
  apply ascending_app_le.
  rewrite <- skipn_split by assumption.
  apply ascending_skipn, sorted_ascending.
Qed.

End DoubleSelection.

(* ================================================================= *)
(** ** The boundary computation in double precision *)

Section DoublePolyline.

Lemma double_math_sqrt_squares (dx dy : Z) :
  Double.math_sqrt (Double.float (dx * dx + dy * dy))
  = Ok (rnd (sqrt (Double.float (dx * dx + dy * dy)))).
Proof.
  unfold Double.math_sqrt.
  assert (0 <= Double.float (dx * dx + dy * dy))
    by (apply double_float_nonneg; nia).
  destruct (Rlt_dec _ 0); [lra|reflexivity].
Qed.

Lemma double_dist_nonneg (p q : Spec.Anchor) : 0 <= Double.dist p q.
Proof. apply rnd_nonneg, sqrt_pos. Qed.

Lemma double_D_representable (anchors : list Spec.Anchor) (i : nat) :
  representable (Double.D anchors i).
Proof.
  destruct i as [|i]; simpl.
  - apply (representable_IZR 0); vm_compute; discriminate.
  - apply rnd_representable.
Qed.

Lemma double_D_step_le (anchors : list Spec.Anchor) (i : nat) :
  Double.D anchors i <= Double.D anchors (S i).
Proof.
  apply Rle_trans with (rnd (Double.D anchors i));
    [rewrite rnd_id by apply double_D_representable; lra|].
  cbn [Double.D]; unfold Double.add; apply rnd_le.
  pose proof (double_dist_nonneg (nth i anchors (0, 0)%Z)
                (nth (S i) anchors (0, 0)%Z)); lra.
Qed.

Lemma double_D_mono (anchors : list Spec.Anchor) (i j : nat) :
  (i <= j)%nat -> Double.D anchors i <= Double.D anchors j.
Proof.
  induction 1 as [|j Hij IH]; [lra|].
  pose proof (double_D_step_le anchors j); lra.
Qed.

Lemma double_D_nonneg (anchors : list Spec.Anchor) (i : nat) :
  0 <= Double.D anchors i.
Proof. apply (double_D_mono anchors 0 i); lia. Qed.

(** A segment between two different grid points has a computed length of
    at least 1. *)
Lemma double_dist_ge_1 (p q : Spec.Anchor) :
  0 < Spec.dist p q -> 1 <= Double.dist p q.
Proof.
  unfold Spec.dist, Double.dist.
  set (k := ((fst q - fst p) * (fst q - fst p)
             + (snd q - snd p) * (snd q - snd p))%Z).
  intros Hd.
  assert (Hk : (1 <= k)%Z).
  { destruct (Z_lt_le_dec k 1) as [Hlt|]; [|assumption].
    pose proof (Z.square_nonneg (fst q - fst p)).
    pose proof (Z.square_nonneg (snd q - snd p)).
    assert (Hk0 : k = 0%Z) by (unfold k in *; lia).
    rewrite Hk0, sqrt_0 in Hd; lra. }
  assert (H1 : 1 <= Double.float k).
  { rewrite <- rnd_1; apply rnd_le, IZR_le; assumption. }
  rewrite <- rnd_1; apply rnd_le.
  rewrite <- sqrt_1; apply sqrt_le_1_alt; assumption.
Qed.

(** A polyline of positive length has a positive computed length. *)
Lemma double_D_pos (anchors : list Spec.Anchor) (i : nat) :
  0 < Spec.D anchors i -> 0 < Double.D anchors i.
Proof.
  induction i as [|i IH]; simpl; [lra|].
  intros H.
  pose proof (double_D_nonneg anchors i) as H0.
  pose proof (double_D_step_le anchors i) as Hs; simpl in Hs.
  destruct (Rlt_le_dec 0 (Spec.D anchors i)) as [Hp|Hz].
  - specialize (IH Hp); lra.
  - assert (Hd : 0 < Spec.dist (nth i anchors (0, 0)%Z)
                         (nth (S i) anchors (0, 0)%Z)) by lra.
    apply double_dist_ge_1 in Hd.
    apply Rlt_le_trans with 1; [lra|].
    rewrite <- rnd_1; apply rnd_le; lra.
Qed.

(** The first loop computes the running sums [Double.D]. *)
Lemma double_distances_loop_D (anchors : list Spec.Anchor) (m j : nat)
    (acc : list R) :
  (S j + m <= length anchors)%nat ->
  Double.distances_loop (Spec.x_of anchors) (Spec.y_of anchors) (seq (S j) m)
    (Double.D anchors j) acc
  = Ok (Double.D anchors (j + m),
        acc ++ map (Double.D anchors) (seq (S j) m)).
Proof.
  revert j acc; induction m as [|m IH]; intros j acc Hlen.
  - simpl; now rewrite Nat.add_0_r, app_nil_r.
  - assert (Hx : length (Spec.x_of anchors) = length anchors)
      by apply length_map.
    assert (Hy : length (Spec.y_of anchors) = length anchors)
      by apply length_map.
    cbn [seq Double.distances_loop].
    rewrite (getitem_nth _ (S j) 0%Z), (getitem_pred _ j 0%Z) by lia.
    rewrite (getitem_nth _ (S j) 0%Z), (getitem_pred _ j 0%Z) by lia.
    cbn [bind].
    rewrite double_math_sqrt_squares; cbn [bind].
    rewrite !x_of_nth, !y_of_nth.
    change (Double.add (Double.D anchors j) _) with (Double.D anchors (S j)).
    rewrite IH by lia.
    rewrite <- app_assoc; cbn [app map].
    do 3 f_equal; lia.
Qed.

Lemma double_boundaries_loop_map (ds : list R) (total : R) (L : Z)
    (m k : nat) (acc : list Z) :
  total <> 0 -> (k + m <= length ds)%nat ->
  Double.boundaries_loop ds total L (seq k m) acc
  = Ok (acc ++ map (fun i => Double.index_of total L (nth i ds 0)) (seq k m)).
Proof.
  intros Ht; revert k acc; induction m as [|m IH]; intros k acc Hlen.
  - simpl; now rewrite app_nil_r.
  - cbn [seq Double.boundaries_loop].
    rewrite (getitem_nth _ k 0) by lia; cbn [bind].
    rewrite double_truediv_nonzero by assumption; cbn [bind].
    rewrite IH by lia.
    rewrite <- app_assoc; reflexivity.
Qed.

Lemma double_distances_run (anchors : list Spec.Anchor) :
  anchors <> [] ->
  Double.distances_loop (Spec.x_of anchors) (Spec.y_of anchors)
    (range 1 (length (Spec.x_of anchors))) 0 [0]
  = Ok (Double.D anchors (length anchors - 1),
        map (Double.D anchors) (seq 0 (length anchors))).
Proof.
  intros Hne; unfold range, Spec.x_of at 2; rewrite length_map.
  destruct anchors as [|p rest]; [easy|].
  set (a := p :: rest).
  change (length a) with (S (length rest)).
  change 0 with (Double.D a 0) at 1.
  rewrite (double_distances_loop_D a (S (length rest) - 1) 0)
    by (subst a; simpl; lia).
  change ([0] ++ map (Double.D a) (seq 1 (S (length rest) - 1)))
    with (map (Double.D a) (seq 0 (S (S (length rest) - 1)))).
  repeat f_equal; lia.
Qed.

Lemma double_calculate_segment_boundaries_ok (anchors : list Spec.Anchor)
    (L : Z) :
  anchors <> [] -> Double.D anchors (length anchors - 1) <> 0 ->
  Double.calculate_segment_boundaries (Spec.x_of anchors) (Spec.y_of anchors)
    L
  = Ok (map (fun i => Double.index_of (Double.D anchors (length anchors - 1))
                        L (Double.D anchors i))
          (seq 0 (length anchors))).
Proof.
  intros Hne Ht; unfold Double.calculate_segment_boundaries.
  rewrite double_distances_run by assumption; cbn [bind].
  unfold range, Spec.x_of; rewrite length_map, Nat.sub_0_r.
  rewrite double_boundaries_loop_map
    by (rewrite ?length_map, ?length_seq; auto).
  cbn [app]; f_equal.
  apply map_ext_in; intros i Hi; apply in_seq in Hi.
  f_equal.
  rewrite (nth_indep _ 0 (Double.D anchors 0))
    by (rewrite length_map, length_seq; lia).
  rewrite map_nth, seq_nth by lia; reflexivity.
Qed.

(** The rounded quotient of a part by the whole lies in [0, 1], and the
    rounded product with [profile_length - 1] in [0, profile_length - 1]. *)
Lemma double_scaled_range (total : R) (L : Z) (d : R) :
  0 < total -> (0 < L <= 2 ^ 31)%Z -> 0 <= d <= total ->
  0 <= Double.mul (Double.div d total) (Double.float (L - 1)) <= IZR (L - 1).
Proof.
  intros Ht HL Hd.
  assert (Hinv : 0 < / total) by now apply Rinv_0_lt_compat.
  assert (Hq : 0 <= Double.div d total <= 1).
  { split.
    - apply rnd_nonneg; unfold Rdiv; nra.
    - apply Rle_trans with (rnd 1); [|rewrite rnd_1; lra].
      apply rnd_le.
      apply (Rmult_le_reg_r total); [lra|].
      replace (d / total * total) with d by (field; lra); lra. }
  rewrite double_float_exact by lia.
  assert (HL1 : 0 <= IZR (L - 1)) by (apply IZR_le; lia).
  split.
  - apply rnd_nonneg; nra.
  - apply Rle_trans with (rnd (IZR (L - 1))); [apply rnd_le; nra|].
    rewrite rnd_IZR by lia; lra.
Qed.

Lemma int_round_range (y : R) (L : Z) :
  0 <= y <= IZR (L - 1) -> (0 <= int (round y) <= L - 1)%Z.
Proof.
  intros Hy.
  rewrite int_round_nonneg by lra.
  split; [apply Int_part_nonneg; lra|].
  apply Z.le_trans with (Int_part (IZR (L - 1) + / 2)).
  - apply Int_part_mono; lra.
  - apply Z.eq_le_incl, Int_part_unique; lra.
Qed.

(** Under the input constraints the index needs no clamping. *)
Lemma double_index_of_boundary (anchors : list Spec.Anchor) (L : Z)
    (i : nat) :
  0 < Double.D anchors (length anchors - 1) -> (0 < L <= 2 ^ 31)%Z ->
  (i < length anchors)%nat ->
  Double.index_of (Double.D anchors (length anchors - 1)) L
    (Double.D anchors i)
  = Double.boundary anchors L i
  /\ (0 <= Double.boundary anchors L i <= L - 1)%Z.
Proof.
  intros Ht HL Hi.
  assert (Hd : 0 <= Double.D anchors i
               <= Double.D anchors (length anchors - 1))
    by (split; [apply double_D_nonneg|apply double_D_mono; lia]).
  pose proof (int_round_range _ L (double_scaled_range _ L _ Ht HL Hd)) as Hr.
  unfold Double.index_of, Double.boundary in *.
  destruct (Z.geb_spec
              (int (round (Double.mul
                             (Double.div (Double.D anchors i)
                                (Double.D anchors (length anchors - 1)))
                             (Double.float (L - 1))))) L); [lia|].
  split; [reflexivity|lia].
Qed.

Lemma double_boundary_mono (anchors : list Spec.Anchor) (L : Z) (i j : nat) :
  0 < Double.D anchors (length anchors - 1) -> (0 < L <= 2 ^ 31)%Z ->
  (i <= j)%nat ->
  (Double.boundary anchors L i <= Double.boundary anchors L j)%Z.
Proof.
  intros Ht HL Hij; unfold Double.boundary.
  pose proof (double_D_nonneg anchors i) as Hi.
  pose proof (double_D_mono anchors i j Hij) as Hm.
  assert (Hinv : 0 < / Double.D anchors (length anchors - 1))
    by now apply Rinv_0_lt_compat.
  assert (Hq0 : 0 <= Double.div (Double.D anchors i)
                       (Double.D anchors (length anchors - 1)))
    by (apply rnd_nonneg; unfold Rdiv; nra).
  assert (Hq : Double.div (Double.D anchors i)
                 (Double.D anchors (length anchors - 1))
               <= Double.div (Double.D anchors j)
                    (Double.D anchors (length anchors - 1)))
    by (apply double_div_le; assumption).
  assert (HL1 : 0 <= Double.float (L - 1))
    by (apply double_float_nonneg; lia).
  apply int_round_mono.
  - apply rnd_nonneg; nra.
  - apply rnd_le; nra.
Qed.

Lemma double_boundary_first (anchors : list Spec.Anchor) (L : Z) :
  Double.boundary anchors L 0 = 0%Z.
Proof.
  unfold Double.boundary, Double.div, Double.mul; simpl Double.D.
  replace (0 / _) with 0 by (unfold Rdiv; ring).
  rewrite rnd_0, Rmult_0_l, rnd_0.
  change 0 with (IZR 0); rewrite round_IZR; apply int_IZR.
Qed.

Lemma double_boundary_last (anchors : list Spec.Anchor) (L : Z) :
  0 < Double.D anchors (length anchors - 1) -> (0 < L <= 2 ^ 31)%Z ->
  Double.boundary anchors L (length anchors - 1) = (L - 1)%Z.
Proof.
  intros Ht HL; unfold Double.boundary, Double.div, Double.mul.
  replace (Double.D anchors (length anchors - 1)
           / Double.D anchors (length anchors - 1)) with 1 by (field; lra).
  rewrite rnd_1, Rmult_1_l, double_float_exact by lia.
  rewrite rnd_IZR by lia.
  rewrite round_IZR; apply int_IZR.
Qed.

End DoublePolyline.

(* ================================================================= *)
(** ** Evaluation in double precision *)

Section DoubleExamples.

Lemma double_threshold_idx_eval (l : list R) (t : R) (n c : Z) (q f p : R) :
  len l = n -> (Z.abs n <= 2 ^ 53)%Z ->
  rnd (t / 100) = q -> rnd (1 - q) = f -> rnd (IZR n * f) = p ->
  IZR c <= p < IZR c + 1 -> (0 <= c)%Z ->
  Double.threshold_idx l t = c.
Proof.
  intros Hn Hb Hq Hf Hp Hc H0; unfold Double.threshold_idx.
  rewrite Hn, double_float_exact by assumption.
  unfold Double.div, Double.sub, Double.mul; rewrite Hq, Hf, Hp.
  assert (0 <= IZR c) by now apply IZR_le.
  rewrite int_nonneg by lra.
  now apply Int_part_unique.
Qed.

Lemma double_top_percent_mean_eval (sample top : list R) (t s m : R)
    (c n : Z) :
  Double.threshold_idx (sorted sample) t = c -> (0 <= c)%Z ->
  skipn (Z.to_nat c) (sorted sample) = top ->
  Double.sum top = s -> len top = n -> (0 < n <= 2 ^ 53)%Z ->
  rnd (s / IZR n) = m ->
  Double.top_values sample t = top /\ Double.top_percent_mean sample t = Ok m.
Proof.
  intros Hc H0 Htop Hs Hn Hb Hm.
  assert (Hv : Double.top_values sample t = top).
  { unfold Double.top_values; rewrite Hc, slice_from_nonneg by assumption.
    exact Htop. }
  split; [assumption|].
  unfold Double.top_percent_mean; rewrite Hv, Hs, Hn.
  rewrite double_float_exact by lia.
  rewrite double_truediv_nonzero by (apply Rgt_not_eq, IZR_lt; lia).
  unfold Double.div; now rewrite Hm.
Qed.

(** Sums of small integers are exact. *)
Lemma double_add_int (x y : R) (z : Z) :
  x + y = IZR z -> (Z.abs z <= 2 ^ 53)%Z -> Double.add x y = IZR z.
Proof. intros H Hz; unfold Double.add; rewrite H; now apply rnd_IZR. Qed.

Lemma double_sum_1_to_10 : Double.sum sample_1_to_10 = 55.
Proof.
  unfold Double.sum, sample_1_to_10; cbn [fold_left].
  rewrite (double_add_int 0 1 1) by (lra || (vm_compute; discriminate)).
  rewrite (double_add_int _ 2 3) by (lra || (vm_compute; discriminate)).
  rewrite (double_add_int _ 3 6) by (lra || (vm_compute; discriminate)).
  rewrite (double_add_int _ 4 10) by (lra || (vm_compute; discriminate)).
  rewrite (double_add_int _ 5 15) by (lra || (vm_compute; discriminate)).
  rewrite (double_add_int _ 6 21) by (lra || (vm_compute; discriminate)).
  rewrite (double_add_int _ 7 28) by (lra || (vm_compute; discriminate)).
  rewrite (double_add_int _ 8 36) by (lra || (vm_compute; discriminate)).
  rewrite (double_add_int _ 9 45) by (lra || (vm_compute; discriminate)).
  rewrite (double_add_int _ 10 55) by (lra || (vm_compute; discriminate)).
  reflexivity.
Qed.

Lemma double_sum_6_to_10 : Double.sum [6; 7; 8; 9; 10] = 40.
Proof.
  unfold Double.sum; cbn [fold_left].
  rewrite (double_add_int 0 6 6) by (lra || (vm_compute; discriminate)).
  rewrite (double_add_int _ 7 13) by (lra || (vm_compute; discriminate)).
  rewrite (double_add_int _ 8 21) by (lra || (vm_compute; discriminate)).
  rewrite (double_add_int _ 9 30) by (lra || (vm_compute; discriminate)).
  rewrite (double_add_int _ 10 40) by (lra || (vm_compute; discriminate)).
  reflexivity.
Qed.

Lemma double_sum_singleton (x : R) : representable x -> Double.sum [x] = x.
Proof.
  intros H; unfold Double.sum, Double.add; cbn [fold_left].
  rewrite Rplus_0_l; now apply rnd_id.
Qed.

(** [90 / 100.0], [1.0 - 0.9] and [10 * 0.09999999999999998]. *)
Lemma double_threshold_idx_10_90 :
  Double.threshold_idx sample_1_to_10 90 = 0%Z.
Proof.
  apply (double_threshold_idx_eval _ _ 10 0
           (8106479329266893 / 9007199254740992)
           (900719925474099 / 9007199254740992)
           (9007199254740990 / 9007199254740992));
    [reflexivity|vm_compute; discriminate| | | |lra|lia].
  - rnd_eval_at (90 / 100) 0%Z 8106479329266893%Z; lra.
  - rnd_exact_at (1 - 8106479329266893 / 9007199254740992)
      900719925474099%Z 53%Z; lra.
  - rnd_exact_at (10 * (900719925474099 / 9007199254740992))
      9007199254740990%Z 53%Z; lra.
Qed.

(** Ten values at a threshold of 90 percent: the cut is 0, all ten values
    are kept and the mean is 5.5. *)
Lemma double_top_percent_mean_10_90 :
  Double.top_values sample_1_to_10 90 = sample_1_to_10
  /\ Double.top_percent_mean sample_1_to_10 90 = Ok (11 / 2).
Proof.
  apply (double_top_percent_mean_eval _ _ _ 55 _ 0 10);
    [rewrite sorted_sample_1_to_10; apply double_threshold_idx_10_90|lia
    |now rewrite sorted_sample_1_to_10|apply double_sum_1_to_10
    |reflexivity|lia|].
  rnd_exact_at (55 / 10) 11%Z 1%Z; lra.
Qed.

Lemma double_top_percent_mean_10_100 :
  Double.top_values sample_1_to_10 100 = sample_1_to_10
  /\ Double.top_percent_mean sample_1_to_10 100 = Ok (11 / 2).
Proof.
  apply (double_top_percent_mean_eval _ _ _ 55 _ 0 10);
    [|lia|now rewrite sorted_sample_1_to_10|apply double_sum_1_to_10
     |reflexivity|lia|].
  - rewrite sorted_sample_1_to_10.
    apply (double_threshold_idx_eval _ _ 10 0 1 0 0);
      [reflexivity|vm_compute; discriminate| | | |lra|lia].
    + replace (100 / 100) with 1 by lra; apply rnd_1.
    + replace (1 - 1) with 0 by lra; apply rnd_0.
    + replace (10 * 0) with 0 by lra; apply rnd_0.
  - rnd_exact_at (55 / 10) 11%Z 1%Z; lra.
Qed.

Lemma double_top_percent_mean_10_50 :
  Double.top_values sample_1_to_10 50 = [6; 7; 8; 9; 10]
  /\ Double.top_percent_mean sample_1_to_10 50 = Ok 8.
Proof.
  apply (double_top_percent_mean_eval _ _ _ 40 _ 5 5);
    [|lia|now rewrite sorted_sample_1_to_10|apply double_sum_6_to_10
     |reflexivity|lia|].
  - rewrite sorted_sample_1_to_10.
    apply (double_threshold_idx_eval _ _ 10 5 (1 / 2) (1 / 2) 5);
      [reflexivity|vm_compute; discriminate| | | |lra|lia].
    + rnd_exact_at (50 / 100) 1%Z 1%Z; lra.
    + rnd_exact_at (1 - 1 / 2) 1%Z 1%Z; lra.
    + rnd_exact_at (10 * (1 / 2)) 5%Z 0%Z; lra.
  - rnd_exact_at (40 / 5) 8%Z 0%Z; lra.
Qed.

Lemma rnd_tenth : rnd (10 / 100) = tenth.
Proof.
  unfold tenth.
  rnd_eval_at (10 / 100) (-3)%Z 7205759403792794%Z; lra.
Qed.

Lemma rnd_nine_tenths :
  rnd (1 - tenth) = 8106479329266893 / 9007199254740992.
Proof.
  unfold tenth.
  rnd_eval_at (1 - 3602879701896397 / 36028797018963968) 0%Z
    8106479329266893%Z; lra.
Qed.

Lemma double_top_percent_mean_10_10 :
  Double.top_values sample_1_to_10 10 = [10]
  /\ Double.top_percent_mean sample_1_to_10 10 = Ok 10.
Proof.
  apply (double_top_percent_mean_eval _ _ _ 10 _ 9 1);
    [|lia|now rewrite sorted_sample_1_to_10| |reflexivity|lia|].
  - rewrite sorted_sample_1_to_10.
    apply (double_threshold_idx_eval _ _ 10 9 tenth
             (8106479329266893 / 9007199254740992) 9);
      [reflexivity|vm_compute; discriminate|apply rnd_tenth
      |apply rnd_nine_tenths| |lra|lia].
    rnd_eval_at (10 * (8106479329266893 / 9007199254740992)) 4%Z
      5066549580791808%Z; lra.
  - apply double_sum_singleton, (representable_IZR 10); vm_compute; discriminate.
  - rnd_exact_at (10 / 1) 10%Z 0%Z; lra.
Qed.

Lemma intensity_IZR (z : Z) :
  (Z.abs z <= 2 ^ 53)%Z -> Double.intensity (IZR z).
Proof.
  intros Hz; split; [now apply representable_IZR|].
  rewrite <- abs_IZR, (pow2_IZR 128) by lia.
  apply IZR_le; lia.
Qed.

Lemma intensity_1_to_10 : Forall Double.intensity sample_1_to_10.
Proof.
  unfold sample_1_to_10;
    repeat (constructor; [apply intensity_IZR; vm_compute; discriminate|]).
  constructor.
Qed.

Lemma representable_tenth : representable tenth.
Proof.
  apply (representable_frac tenth 3602879701896397 55);
    [vm_compute; discriminate|lia|].
  unfold tenth; change (2 ^ 55)%Z with 36028797018963968%Z; lra.
Qed.

Lemma intensity_tenths : Forall Double.intensity sample_tenths.
Proof.
  assert (H : Double.intensity tenth).
  { split; [apply representable_tenth|].
    rewrite (pow2_IZR 128) by lia.
    change (2 ^ 128)%Z with 340282366920938463463374607431768211456%Z.
    unfold tenth; rewrite Rabs_pos_eq by lra; lra. }
  unfold sample_tenths; repeat (constructor; [exact H|]); constructor.
Qed.

Lemma sorted_sample_tenths : sorted sample_tenths = sample_tenths.
Proof.
  apply sorted_unique; [|reflexivity].
  unfold sample_tenths, tenth; ascending_by_lra.
Qed.

(** Three values of 0.1 at 10 percent: the cut is 2 and the mean is the
    value itself. *)
Lemma double_top_percent_mean_tenths_10 :
  Double.top_percent_mean sample_tenths 10 = Ok tenth.
Proof.
  apply (double_top_percent_mean_eval sample_tenths [tenth] 10 tenth _ 2 1);
    [|lia|now rewrite sorted_sample_tenths
     |apply double_sum_singleton, representable_tenth|reflexivity|lia|].
  - rewrite sorted_sample_tenths.
    apply (double_threshold_idx_eval _ _ 3 2 tenth
             (8106479329266893 / 9007199254740992)
             (6079859496950170 / 2251799813685248));
      [reflexivity|vm_compute; discriminate|apply rnd_tenth
      |apply rnd_nine_tenths| |lra|lia].
    rnd_eval_at (3 * (8106479329266893 / 9007199254740992)) 2%Z
      6079859496950170%Z; lra.
  - replace (tenth / 1) with tenth by lra.
    apply rnd_id, representable_tenth.
Qed.

(** The same three values at 100 percent: the sum rounds up to
    0.30000000000000004 and the mean to 0.10000000000000002. *)
Lemma double_sum_tenths :
  Double.sum sample_tenths = 5404319552844596 / 18014398509481984.
Proof.
  unfold Double.sum, sample_tenths, Double.add; cbn [fold_left].
  rewrite Rplus_0_l, (rnd_id tenth representable_tenth).
  unfold tenth.
  rnd_exact_at (3602879701896397 / 36028797018963968
                + 3602879701896397 / 36028797018963968)
    3602879701896397%Z 54%Z.
  rnd_tie_at (3602879701896397 / 36028797018963968
              + 3602879701896397 / 36028797018963968
              + 3602879701896397 / 36028797018963968) (-1)%Z
    5404319552844595%Z.
  cbn [Z.even]; simpl (5404319552844595 + 1)%Z; lra.
Qed.

Lemma double_top_percent_mean_tenths_100 :
  Double.top_percent_mean sample_tenths 100
  = Ok (7205759403792795 / 72057594037927936).
Proof.
  apply (double_top_percent_mean_eval sample_tenths sample_tenths 100
           (5404319552844596 / 18014398509481984) _ 0 3);
    [|lia|now rewrite sorted_sample_tenths|apply double_sum_tenths
     |reflexivity|lia|].
  - rewrite sorted_sample_tenths.
    apply (double_threshold_idx_eval _ _ 3 0 1 0 0);
      [reflexivity|vm_compute; discriminate| | | |lra|lia].
    + replace (100 / 100) with 1 by lra; apply rnd_1.
    + replace (1 - 1) with 0 by lra; apply rnd_0.
    + replace (3 * 0) with 0 by lra; apply rnd_0.
  - rnd_eval_at (5404319552844596 / 18014398509481984 / 3) (-3)%Z
      7205759403792795%Z; lra.
Qed.

(** With a threshold of [2^-60] percent the factor rounds to 1, the cut
    is the whole length and nothing is selected. *)
Lemma double_factor_tiny :
  Double.sub 1 (Double.div tiny_threshold 100) = 1.
Proof.
  assert (Hq : 0 <= Double.div tiny_threshold 100 <= tiny_threshold).
  { unfold tiny_threshold; split.
    - apply rnd_nonneg; lra.
    - rewrite <- (rnd_exact (/ 1152921504606846976) 1 60) at 2;
        [|vm_compute; discriminate|lia
         |change (2 ^ 60)%Z with 1152921504606846976%Z; lra].
      apply rnd_le; lra. }
  apply Rle_antisym.
  - apply Rle_trans with (rnd 1); [apply rnd_le; lra|rewrite rnd_1; lra].
  - apply Rle_trans with (rnd (1 - / 1152921504606846976));
      [|apply rnd_le;
        assert (tiny_threshold = / 1152921504606846976) by reflexivity; lra].
    rnd_eval_at (1 - / 1152921504606846976) 0%Z 9007199254740992%Z; lra.
Qed.

Lemma double_top_percent_mean_tiny :
  Double.top_values [1; 2; 3] tiny_threshold = []
  /\ Double.top_percent_mean [1; 2; 3] tiny_threshold
     = Raise ZeroDivisionError.
Proof.
  assert (Hs : sorted [1; 2; 3] = [1; 2; 3])
    by (apply sorted_unique; [ascending_by_lra|reflexivity]).
  assert (Hc : Double.threshold_idx [1; 2; 3] tiny_threshold = 3%Z).
  { unfold Double.threshold_idx; rewrite double_factor_tiny.
    rewrite double_float_exact by (vm_compute; discriminate).
    unfold Double.mul, len; cbn [length Z.of_nat Pos.of_succ_nat Pos.succ].
    replace (3 * 1) with 3 by lra.
    rewrite (rnd_IZR 3) by (vm_compute; discriminate).
    apply int_IZR. }
  assert (Hv : Double.top_values [1; 2; 3] tiny_threshold = []).
  { unfold Double.top_values; rewrite Hs, Hc; reflexivity. }
  split; [assumption|].
  unfold Double.top_percent_mean; rewrite Hv.
  unfold Double.float, len; cbn [length Z.of_nat]; rewrite rnd_0.
  apply double_truediv_zero.
Qed.

(** The polyline (0,0), (7,0), (10,0) over a profile of 46 samples:
    [7.0 / 10.0] is 0.7 rounded down, the product with 45 is
    31.499999999999996, and the middle boundary is 31. *)
Lemma double_dist_horizontal (x1 x2 y : Z) :
  (0 <= x2 - x1 <= 2 ^ 26)%Z ->
  Double.dist (x1, y) (x2, y) = IZR (x2 - x1).
Proof.
  intros H; unfold Double.dist; cbn [fst snd].
  replace ((x2 - x1) * (x2 - x1) + (y - y) * (y - y))%Z
    with ((x2 - x1) * (x2 - x1))%Z by ring.
  rewrite double_float_exact by nia.
  rewrite sqrt_IZR_square by lia.
  apply rnd_IZR; lia.
Qed.

Lemma double_D_tie :
  Double.D tie_anchors 1 = 7 /\ Double.D tie_anchors 2 = 10.
Proof.
  unfold tie_anchors; cbn [Double.D nth].
  rewrite !double_dist_horizontal by lia.
  simpl (7 - 0)%Z; simpl (10 - 7)%Z.
  rewrite (double_add_int 0 7 7) by (lra || (vm_compute; discriminate)).
  rewrite (double_add_int 7 3 10) by (lra || (vm_compute; discriminate)).
  split; reflexivity.
Qed.

Lemma double_index_of_eval (total d q y : R) (L z : Z) :
  (Z.abs (L - 1) <= 2 ^ 53)%Z ->
  rnd (d / total) = q -> rnd (q * IZR (L - 1)) = y -> 0 <= y ->
  IZR z <= y + / 2 < IZR z + 1 -> (z < L)%Z ->
  Double.index_of total L d = z.
Proof.
  intros HL Hq Hy H0 Hz Hlt.
  unfold Double.index_of, Double.div, Double.mul.
  rewrite double_float_exact, Hq, Hy by assumption.
  rewrite int_round_nonneg by assumption.
  rewrite (Int_part_unique _ z Hz).
  destruct (Z.geb_spec z L); [lia|reflexivity].
Qed.

Lemma double_segment_boundaries_tie :
  Double.calculate_segment_boundaries [0; 7; 10]%Z [0; 0; 0]%Z 46
  = Ok [0; 31; 45]%Z.
Proof.
  destruct double_D_tie as [H1 H2].
  change [0; 7; 10]%Z with (Spec.x_of tie_anchors) at 1.
  change [0; 0; 0]%Z with (Spec.y_of tie_anchors).
  rewrite double_calculate_segment_boundaries_ok;
    [|discriminate|cbn [length Nat.sub tie_anchors];
      change (Double.D _ 2) with (Double.D tie_anchors 2); lra].
  cbn [length tie_anchors Nat.sub seq map].
  change (Double.D [(0, 0); (7, 0); (10, 0)]%Z) with (Double.D tie_anchors).
  rewrite H1, H2; change (Double.D tie_anchors 0) with 0.
  rewrite (double_index_of_eval 10 0 0 0 46 0);
    [|vm_compute; discriminate
     |replace (0 / 10) with 0 by lra; apply rnd_0
     |rewrite Rmult_0_l; apply rnd_0|lra|lra|lia].
  rewrite (double_index_of_eval 10 7
             (6305039478318694 / 9007199254740992)
             (8866461766385663 / 281474976710656) 46 31);
    [|vm_compute; discriminate| | |lra|lra|lia].
  - rewrite (double_index_of_eval 10 10 1 45 46 45);
      [reflexivity|vm_compute; discriminate
      |replace (10 / 10) with 1 by lra; apply rnd_1
      |rewrite Rmult_1_l; apply (rnd_IZR 45); vm_compute; discriminate
      |lra|simpl; lra|lia].
  - rnd_eval_at (7 / 10) 0%Z 6305039478318694%Z; lra.
  - simpl (46 - 1)%Z.
    rnd_eval_at (6305039478318694 / 9007199254740992 * 45) 5%Z
      8866461766385663%Z; lra.
Qed.

(** The specification's example: three colinear, evenly spaced anchors
    over a profile of 11 samples. *)
Lemma double_segment_boundaries_colinear :
  Double.calculate_segment_boundaries [0; 5; 10]%Z [0; 0; 0]%Z 11
  = Ok [0; 5; 10]%Z.
Proof.
  assert (H1 : Double.D colinear_anchors 1 = 5
               /\ Double.D colinear_anchors 2 = 10).
  { unfold colinear_anchors; cbn [Double.D nth].
    rewrite !double_dist_horizontal by lia.
    simpl (5 - 0)%Z; simpl (10 - 5)%Z.
    rewrite (double_add_int 0 5 5) by (lra || (vm_compute; discriminate)).
    rewrite (double_add_int 5 5 10) by (lra || (vm_compute; discriminate)).
    split; reflexivity. }
  destruct H1 as [H1 H2].
  change [0; 5; 10]%Z with (Spec.x_of colinear_anchors) at 1.
  change [0; 0; 0]%Z with (Spec.y_of colinear_anchors).
  rewrite double_calculate_segment_boundaries_ok;
    [|discriminate|cbn [length Nat.sub colinear_anchors];
      change (Double.D _ 2) with (Double.D colinear_anchors 2); lra].
  cbn [length colinear_anchors Nat.sub seq map].
  change (Double.D [(0, 0); (5, 0); (10, 0)]%Z)
    with (Double.D colinear_anchors).
  rewrite H1, H2; change (Double.D colinear_anchors 0) with 0.
  rewrite (double_index_of_eval 10 0 0 0 11 0);
    [|vm_compute; discriminate
     |replace (0 / 10) with 0 by lra; apply rnd_0
     |rewrite Rmult_0_l; apply rnd_0|lra|lra|lia].
  rewrite (double_index_of_eval 10 5 (1 / 2) 5 11 5);
    [|vm_compute; discriminate| | |lra|lra|lia].
  - rewrite (double_index_of_eval 10 10 1 10 11 10);
      [reflexivity|vm_compute; discriminate
      |replace (10 / 10) with 1 by lra; apply rnd_1
      |rewrite Rmult_1_l; apply (rnd_IZR 10); vm_compute; discriminate
      |lra|simpl; lra|lia].
  - rnd_exact_at (5 / 10) 1%Z 1%Z; lra.
  - simpl (11 - 1)%Z.
    rnd_exact_at (1 / 2 * 10) 5%Z 0%Z; lra.
Qed.

(** In exact arithmetic the middle boundary of the same polyline is 32. *)
Lemma boundary_tie_exact : Spec.boundary tie_anchors 46 1 = 32%Z.
Proof.
  unfold Spec.boundary, tie_anchors; cbn [length Nat.sub Spec.D nth].
  rewrite !dist_horizontal by lia.
  simpl (7 - 0)%Z; simpl (10 - 7)%Z; simpl (46 - 1)%Z.
  replace ((0 + 7) / (0 + 7 + 3) * 45) with (63 / 2) by lra.
  rewrite int_round_nonneg by lra.
  rewrite (Int_part_unique _ 32) by lra.
  reflexivity.
Qed.

End DoubleExamples.

(* ================================================================= *)
(** ** The claims that depend on the rounding *)

Section DoubleSettings.

Lemma double_settings_accept (self : Double.EnhancedNuclearAnalyzer)
    (gd : Double.GenericDialog) :
  Double.wasCanceled gd = false ->
  fst (Double.get_analysis_settings self gd)
  = negb (Double.lt (Double.getNextNumber gd) 1
          || Double.gt (Double.getNextNumber gd) 100).
Proof.
  intros Hc; unfold Double.get_analysis_settings; rewrite Hc.
  cbn [Double.threshold_percentage].
  destruct (Double.lt _ 1 || Double.gt _ 100); reflexivity.
Qed.

Lemma double_settings_stored (self : Double.EnhancedNuclearAnalyzer)
    (gd : Double.GenericDialog) :
  Double.wasCanceled gd = false ->
  Double.threshold_percentage (snd (Double.get_analysis_settings self gd))
  = Double.getNextNumber gd
  /\ Double.cell_count (snd (Double.get_analysis_settings self gd))
     = Double.cell_count self.
Proof.
  intros Hc; unfold Double.get_analysis_settings; rewrite Hc.
  cbn [Double.threshold_percentage].
  destruct (Double.lt _ 1 || Double.gt _ 100); split; reflexivity.
Qed.

(** What the two comparisons let through. *)
Lemma double_in_range (d : Double.double) :
  negb (Double.lt d 1 || Double.gt d 100) = true
  <-> d = Double.NaN \/ exists x, d = Double.Finite x /\ 1 <= x <= 100.
Proof.
  destruct d as [|[|]|x]; cbn.
  - split; [now left|reflexivity].
  - split; [discriminate|intros [H|(x & H & _)]; discriminate].
  - split; [discriminate|intros [H|(x & H & _)]; discriminate].
  - destruct (Rlt_dec x 1), (Rgt_dec x 100); cbn;
      try (split;
           [discriminate
           |intros [H|(y & H & Hy)]; [discriminate|injection H as <-; lra]]).
    split; [intros _; right; exists x; split; [reflexivity|lra]|reflexivity].
Qed.

End DoubleSettings.

(** C1 (code defect): ten values at a threshold of 90 percent, which the
    settings dialog accepts.  The claim's cut is
    [floor(10 * (1 - 90/100)) = 1], so that the nine highest values are
    selected and their mean is 6.  The code evaluates
    [int(10 * (1.0 - 90 / 100.0))] in double precision:
    [1.0 - 0.9] is 0.09999999999999998, the product is 0.9999999999999998
    and the cut is 0, so that all ten values are selected and the mean is
    5.5. *)
Theorem C1_top_percent_cut_rounds_down :
  Forall Double.intensity sample_1_to_10
  /\ fst (Double.get_analysis_settings Double.init
            {| Double.wasCanceled := false;
               Double.getNextNumber := Double.Finite 90 |}) = true
  /\ Spec.cut sample_1_to_10 90 = 1%Z
  /\ Spec.mean_of (skipn 1 (sorted sample_1_to_10)) = 6
  /\ Double.threshold_idx (sorted sample_1_to_10) 90 = 0%Z
  /\ Double.top_values sample_1_to_10 90 = sample_1_to_10
  /\ Double.top_percent_mean sample_1_to_10 90 = Ok (11 / 2).
Proof.
  split; [apply intensity_1_to_10|].
  split.
  { rewrite double_settings_accept by reflexivity.
    apply double_in_range; right; exists 90; split; [reflexivity|lra]. }
  split; [apply cut_eval; simpl; lra|].
  split; [rewrite sorted_sample_1_to_10; unfold Spec.mean_of; simpl; field|].
  split; [rewrite sorted_sample_1_to_10; apply double_threshold_idx_10_90|].
  apply double_top_percent_mean_10_90.
Qed.

(** C2 (corrected): for every anchor sequence of at least two points with
    positive total arc length and every positive [profile_length] (below
    [2^31], the limit of a Java array), [calculate_segment_boundaries]
    returns one entry per anchor; entry [i] is
    [int(round((D(i) / D(n-1)) * (profile_length - 1)))] evaluated in double
    precision, [D] being the running double-precision sum of the rounded
    segment lengths; it lies in [0, profile_length - 1], so the clamp never
    changes it; the sequence is non-decreasing, starts with 0 and ends with
    [profile_length - 1]. *)
Theorem C2_segment_boundaries (anchors : list Spec.Anchor)
    (profile_length : Z) :
  Forall Double.pixel anchors ->
  (2 <= length anchors)%nat ->
  0 < Spec.D anchors (length anchors - 1) ->
  (0 < profile_length <= 2 ^ 31)%Z ->
  exists boundaries,
    Double.calculate_segment_boundaries (Spec.x_of anchors)
      (Spec.y_of anchors) profile_length = Ok boundaries
    /\ length boundaries = length anchors
    /\ (forall i, (i < length anchors)%nat ->
          nth i boundaries 0%Z = Double.boundary anchors profile_length i
          /\ (0 <= nth i boundaries 0 <= profile_length - 1)%Z)
    /\ (forall i j, (i <= j < length anchors)%nat ->
          (nth i boundaries 0 <= nth j boundaries 0)%Z)
    /\ hd 0%Z boundaries = 0%Z
    /\ last boundaries 0%Z = (profile_length - 1)%Z.
Proof.
  intros _ Hn HD HL.
  assert (Hne : anchors <> []) by (intros ->; simpl in Hn; lia).
  apply double_D_pos in HD.
  rewrite double_calculate_segment_boundaries_ok by (try assumption; lra).
  eexists; split; [reflexivity|].
  set (f := fun i => Double.index_of (Double.D anchors (length anchors - 1))
                       profile_length (Double.D anchors i)).
  assert (Hnth : forall i, (i < length anchors)%nat ->
            nth i (map f (seq 0 (length anchors))) 0%Z
            = Double.boundary anchors profile_length i).
  { intros i Hi.
    rewrite (nth_indep _ 0%Z (f O)) by (rewrite length_map, length_seq; lia).
    rewrite map_nth, seq_nth by lia.
    now apply double_index_of_boundary. }
  split; [now rewrite length_map, length_seq|].
  split; [intros i Hi; rewrite Hnth by assumption;
          split; [reflexivity|now apply double_index_of_boundary]|].
  split; [intros i j Hij; rewrite !Hnth by lia;
          apply double_boundary_mono; try assumption; lia|].
  split.
  - rewrite <- (double_boundary_first anchors profile_length).
    rewrite <- Hnth by lia.
    destruct anchors; [easy|reflexivity].
  - rewrite <- (double_boundary_last anchors profile_length HD HL).
    rewrite <- Hnth by lia.
    set (l := map f (seq 0 (length anchors))).
    assert (Hl : length l = length anchors)
      by (unfold l; now rewrite length_map, length_seq).
    rewrite <- Hl.
    destruct l as [|z l'] using rev_ind; [simpl in Hl; lia|].
    rewrite last_last, length_app, Nat.add_sub, app_nth2, Nat.sub_diag
      by lia; reflexivity.
Qed.

Lemma C2_segment_boundaries_witness :
  Forall Double.pixel colinear_anchors
  /\ (2 <= length colinear_anchors)%nat
  /\ 0 < Spec.D colinear_anchors (length colinear_anchors - 1)
  /\ (0 < 11 <= 2 ^ 31)%Z
  /\ exists boundaries,
       Double.calculate_segment_boundaries [0; 5; 10]%Z [0; 0; 0]%Z 11
       = Ok boundaries
       /\ boundaries = [0; 5; 10]%Z
       /\ length boundaries = 3%nat
       /\ hd 0%Z boundaries = 0%Z
       /\ last boundaries 0%Z = 10%Z.
Proof.
  assert (Hpx : Forall Double.pixel colinear_anchors)
    by (unfold colinear_anchors;
        repeat (constructor; [unfold Double.pixel; simpl; lia|]);
        constructor).
  assert (Hn : (2 <= length colinear_anchors)%nat) by (simpl; lia).
  assert (HD : 0 < Spec.D colinear_anchors (length colinear_anchors - 1))
    by (destruct D_colinear as [_ H2];
        change (Spec.D colinear_anchors (length colinear_anchors - 1))
          with (Spec.D colinear_anchors 2); lra).
  assert (HL : (0 < 11 <= 2 ^ 31)%Z) by lia.
  repeat (split; [assumption|]).
  destruct (C2_segment_boundaries colinear_anchors 11 Hpx Hn HD HL)
    as (b & Hrun & Hlen & _ & _ & Hhd & Hlast).
  exists b; repeat split; try assumption.
  change (Spec.x_of colinear_anchors) with [0; 5; 10]%Z in Hrun.
  change (Spec.y_of colinear_anchors) with [0; 0; 0]%Z in Hrun.
  rewrite double_segment_boundaries_colinear in Hrun.
  now injection Hrun.
Defined.

(** The claim's exact formula fails on the polyline (0,0), (7,0), (10,0)
    with 46 samples: [round(7/10 * 45) = round(31.5) = 32], while the code
    computes [7.0 / 10.0 * 45 = 31.499999999999996] and returns 31. *)
Lemma C2_segment_boundaries_counterexample :
  Forall Double.pixel tie_anchors
  /\ (2 <= length tie_anchors)%nat
  /\ 0 < Spec.D tie_anchors (length tie_anchors - 1)
  /\ Spec.boundary tie_anchors 46 1 = 32%Z
  /\ Double.calculate_segment_boundaries (Spec.x_of tie_anchors)
       (Spec.y_of tie_anchors) 46 = Ok [0; 31; 45]%Z.
Proof.
  split.
  { unfold tie_anchors;
      repeat (constructor; [unfold Double.pixel; simpl; lia|]);
      constructor. }
  split; [simpl; lia|].
  split.
  { unfold tie_anchors; cbn [length Nat.sub Spec.D nth].
    rewrite !dist_horizontal by lia; simpl; lra. }
  split; [apply boundary_tie_exact|apply double_segment_boundaries_tie].
Qed.

(** C4 (corrected): for every non-empty sample (of fewer than [2^31]
    values) and every threshold in [1, 100] -- the numbers the settings
    dialog accepts -- the cut computed in double precision is below the
    number of values, so the selection is non-empty, the divisor is not
    zero and the mean is returned. *)
Theorem C4_selection_nonempty (sample : list R) (t : R) :
  Forall Double.intensity sample ->
  sample <> [] -> (len sample < 2 ^ 31)%Z -> 1 <= t <= 100 ->
  (0 <= Double.threshold_idx (sorted sample) t < len sample)%Z
  /\ Double.top_values sample t <> []
  /\ Double.float (len (Double.top_values sample t)) <> 0
  /\ exists m, Double.top_percent_mean sample t = Ok m.
Proof.
  intros _ Hne Hlen Ht.
  assert (Hs : sorted sample <> [])
    by (intros E; apply Hne, length_zero_iff_nil;
        rewrite <- sorted_length, E; reflexivity).
  assert (Hl : len (sorted sample) = len sample)
    by (unfold len; now rewrite sorted_length).
  pose proof (double_top_values_nonempty sample t Hne Hlen Ht) as Htop.
  pose proof (double_top_values_length_le sample t) as Hle.
  split.
  { split; [apply double_threshold_idx_nonneg; lra|].
    rewrite <- Hl; apply double_threshold_idx_lt; [assumption| |assumption].
    now rewrite Hl. }
  split; [assumption|].
  assert (Hpos : (0 < len (Double.top_values sample t))%Z).
  { destruct (Double.top_values sample t); [easy|unfold len; simpl; lia]. }
  split.
  - rewrite double_float_exact by lia.
    apply Rgt_not_eq, IZR_lt; assumption.
  - unfold Double.top_percent_mean; cbv zeta.
    rewrite double_mean_returned by (try assumption; lia).
    eexists; reflexivity.
Qed.

Lemma C4_selection_nonempty_witness :
  Forall Double.intensity [3; 1; 2]
  /\ [3; 1; 2] <> [] /\ (len [3; 1; 2] < 2 ^ 31)%Z /\ 1 <= 50 <= 100
  /\ Double.top_values [3; 1; 2] 50 <> []
  /\ exists m, Double.top_percent_mean [3; 1; 2] 50 = Ok m.
Proof.
  assert (Hin : Forall Double.intensity [3; 1; 2])
    by (repeat (constructor;
                [apply intensity_IZR; vm_compute; discriminate|]);
        constructor).
  assert (Hne : [3; 1; 2] <> []) by discriminate.
  assert (Hlen : (len [3; 1; 2] < 2 ^ 31)%Z) by (unfold len; simpl; lia).
  assert (Ht : 1 <= 50 <= 100) by lra.
  destruct (C4_selection_nonempty [3; 1; 2] 50 Hin Hne Hlen Ht)
    as (_ & Htop & _ & Hm).
  repeat split; assumption || lra.
Defined.

(** The claim fails below 1 percent: at a threshold of [2^-60] percent,
    which lies in (0, 100], [1.0 - threshold / 100.0] rounds to 1.0, the
    cut is the whole length, nothing is selected and the division raises
    [ZeroDivisionError]. *)
Lemma C4_selection_nonempty_counterexample :
  Forall Double.intensity [1; 2; 3]
  /\ [1; 2; 3] <> [] /\ 0 < tiny_threshold <= 100
  /\ Double.top_values [1; 2; 3] tiny_threshold = []
  /\ Double.top_percent_mean [1; 2; 3] tiny_threshold
     = Raise ZeroDivisionError.
Proof.
  split.
  { repeat (constructor; [apply intensity_IZR; vm_compute; discriminate|]).
    constructor. }
  split; [discriminate|].
  split; [unfold tiny_threshold; lra|].
  apply double_top_percent_mean_tiny.
Qed.

(** C6 (corrected): for every non-empty sample and all thresholds
    [t1 <= t2] in (0, 100], the values selected at [t1] are the upper end of
    the values selected at [t2] -- every other value selected at [t2] is at
    most each of them -- so that, when [t1] selects anything, the exact mean
    of the values selected at [t1] is at least that of the values selected
    at [t2].  The means the code returns are these sums and quotients
    rounded to double precision.  For 1..10 the returned means are 5.5 at
    100 percent, 8 (of 6..10) at 50 percent and 10 at 10 percent. *)
Theorem C6_mean_monotone (S : list R) (t1 t2 : R) :
  Forall Double.intensity S -> (len S < 2 ^ 31)%Z ->
  S <> [] -> 0 < t1 -> t1 <= t2 -> t2 <= 100 ->
  (exists lower,
      Double.top_values S t2 = lower ++ Double.top_values S t1
      /\ forall a b,
           In a lower -> In b (Double.top_values S t1) -> a <= b)
  /\ (Double.top_values S t1 <> [] ->
      Spec.mean_of (Double.top_values S t1)
      >= Spec.mean_of (Double.top_values S t2))
  /\ (forall t, Double.top_values S t <> [] ->
        Double.top_percent_mean S t
        = Ok (Double.div (Double.sum (Double.top_values S t))
                (IZR (len (Double.top_values S t)))))
  /\ Double.top_percent_mean sample_1_to_10 100 = Ok (11 / 2)
  /\ Double.top_values sample_1_to_10 50 = [6; 7; 8; 9; 10]
  /\ Double.top_percent_mean sample_1_to_10 50 = Ok 8
  /\ Double.top_values sample_1_to_10 10 = [10]
  /\ Double.top_percent_mean sample_1_to_10 10 = Ok 10.
Proof.
  intros _ Hlen Hne H1 H12 H2.
  destruct (double_top_values_nested S t1 t2 ltac:(lra) H12 H2)
    as (lower & Hsplit & Hlow).
  split; [exists lower; split; assumption|].
  split.
  { intros Htop; rewrite Hsplit; apply Rle_ge.
    now apply mean_app_le. }
  split.
  { intros t Htop; unfold Double.top_percent_mean; cbv zeta.
    apply double_mean_returned; [assumption|].
    pose proof (double_top_values_length_le S t); lia. }
  split; [apply double_top_percent_mean_10_100|].
  split; [apply double_top_percent_mean_10_50|].
  split; [apply double_top_percent_mean_10_50|].
  split; apply double_top_percent_mean_10_10.
Qed.

Lemma C6_mean_monotone_witness :
  Forall Double.intensity sample_1_to_10
  /\ (len sample_1_to_10 < 2 ^ 31)%Z
  /\ sample_1_to_10 <> [] /\ 0 < 10 /\ 10 <= 50 /\ 50 <= 100
  /\ (exists lower,
        Double.top_values sample_1_to_10 50
        = lower ++ Double.top_values sample_1_to_10 10)
  /\ Spec.mean_of (Double.top_values sample_1_to_10 10)
     >= Spec.mean_of (Double.top_values sample_1_to_10 50).
Proof.
  pose proof intensity_1_to_10 as Hin.
  assert (Hlen : (len sample_1_to_10 < 2 ^ 31)%Z)
    by (unfold len; simpl; lia).
  assert (Hne : sample_1_to_10 <> []) by discriminate.
  assert (H1 : 0 < 10) by lra.
  assert (H12 : 10 <= 50) by lra.
  assert (H2 : 50 <= 100) by lra.
  destruct (C6_mean_monotone sample_1_to_10 10 50 Hin Hlen Hne H1 H12 H2)
    as ((lower & Hsplit & _) & Hmean & _ & _ & _ & _ & Htop & _).
  repeat (split; [assumption|]).
  split; [exists lower; assumption|].
  apply Hmean; rewrite Htop; discriminate.
Defined.

(** The returned means themselves can come out in the other order: for
    three values of 0.1 the mean at 10 percent is 0.1 and the mean at 100
    percent is 0.10000000000000002. *)
Lemma C6_mean_monotone_counterexample :
  Forall Double.intensity sample_tenths
  /\ sample_tenths <> [] /\ 0 < 10 /\ 10 <= 100
  /\ exists m1 m2,
       Double.top_percent_mean sample_tenths 10 = Ok m1
       /\ Double.top_percent_mean sample_tenths 100 = Ok m2
       /\ m1 < m2.
Proof.
  split; [apply intensity_tenths|].
  split; [discriminate|]; split; [lra|]; split; [lra|].
  exists tenth, (7205759403792795 / 72057594037927936).
  split; [apply double_top_percent_mean_tenths_10|].
  split; [apply double_top_percent_mean_tenths_100|].
  unfold tenth; lra.
Qed.






(** X23: at the default threshold of 50 percent, and likewise at 25, 75 and
    100 percent, no operation of the cut computation rounds: for a sample
    of fewer than [2^31] values, the cut the code computes in double
    precision is [floor(len(sample) * (1 - t/100))], and the selection is
    the one of the exact formula. *)
Theorem double_selection_quarters (sample : list R) (t : R) :
  (len sample < 2 ^ 31)%Z -> In t [25; 50; 75; 100] ->
  Double.threshold_idx (sorted sample) t = Spec.cut sample t
  /\ Double.top_values sample t = top_values sample t.
Proof.
  intros Hlen Hin.
  pose proof (len_nonneg sample) as H0.
  assert (Hl : len (sorted sample) = len sample)
    by (unfold len; now rewrite sorted_length).
  assert (Hq : exists k : Z, (0 <= k <= 3)%Z /\ t / 100 = 1 - IZR k / 4).
  { destruct Hin as [<-|[<-|[<-|[<-|[]]]]];
      [exists 3%Z|exists 2%Z|exists 1%Z|exists 0%Z]; split; lia || lra. }
  destruct Hq as (k & Hk & Hq).
  assert (Hk0 : 0 <= IZR k) by (apply IZR_le; lia).
  assert (Hk3 : IZR k <= 3) by (apply IZR_le; lia).
  assert (Hidx : Double.threshold_idx (sorted sample) t
                 = threshold_idx (sorted sample) t).
  { unfold Double.threshold_idx, threshold_idx.
    rewrite Hl, double_float_exact by lia.
    unfold Double.div, Double.sub, Double.mul.
    rewrite Hq.
    rewrite (rnd_exact (1 - IZR k / 4) (4 - k) 2);
      [|lia|lia|change (2 ^ 2)%Z with 4%Z; rewrite minus_IZR; lra].
    replace (1 - (1 - IZR k / 4)) with (IZR k / 4) by lra.
    rewrite (rnd_exact (IZR k / 4) k 2);
      [|lia|lia|change (2 ^ 2)%Z with 4%Z; lra].
    rewrite (rnd_exact (IZR (len sample) * (IZR k / 4)) (len sample * k) 2);
      [|nia|lia|change (2 ^ 2)%Z with 4%Z; rewrite mult_IZR; lra].
    reflexivity. }
  split.
  - rewrite Hidx; unfold threshold_idx, Spec.cut.
    rewrite Hl, IZR_len; apply int_nonneg.
    pose proof (pos_INR (length sample)).
    replace (1 - t / 100) with (IZR k / 4) by lra; nra.
  - unfold Double.top_values, top_values; now rewrite Hidx.
Qed.

Lemma double_selection_quarters_witness :
  (len [3; 1; 2] < 2 ^ 31)%Z /\ In 50 [25; 50; 75; 100]
  /\ Double.threshold_idx (sorted [3; 1; 2]) 50 = 1%Z
  /\ Double.top_values [3; 1; 2] 50 = [2; 3].
Proof.
  assert (Hlen : (len [3; 1; 2] < 2 ^ 31)%Z) by (unfold len; simpl; lia).
  assert (Hin : In 50 [25; 50; 75; 100]) by (right; now left).
  destruct (double_selection_quarters [3; 1; 2] 50 Hlen Hin) as [Hc Hv].
  assert (Hcut : Spec.cut [3; 1; 2] 50 = 1%Z)
    by (apply cut_eval; simpl; lra).
  repeat (split; [assumption|]).
  split; [now rewrite Hc|].
  rewrite Hv, top_values_skipn, Hcut, sorted_3_1_2
    by (discriminate || lra).
  reflexivity.
Defined.

(* ================================================================= *)
(** ** Accepted settings and the measurement *)

Section SettingsFacts.

(** X21: settings and measurement compose.  When the settings dialog
    accepts an entry that is a number, the stored threshold lies in
    [1, 100], and a cell traced with a nuclear polyline of at least two
    anchors and positive length and a cytoplasm polyline, both over
    non-empty profiles, is then always measured at that threshold: the
    analysis neither skips the cell nor raises, and the record carries the
    current cell number.  (An entry that is not a number is accepted as
    well, as a NaN; the statement does not cover it.) *)
Theorem accepted_settings_cell_measured
    (self self' : Double.EnhancedNuclearAnalyzer)
    (gd : Double.GenericDialog) (x : R)
    (anchors : list Spec.Anchor) (profile : list R) (cytoplasm_roi : Roi)
    (cytoplasm_profile : list R) :
  Double.get_analysis_settings self gd = (true, self') ->
  Double.getNextNumber gd = Double.Finite x ->
  (2 <= length anchors)%nat ->
  0 < Spec.D anchors (length anchors - 1) ->
  profile <> [] ->
  getType cytoplasm_roi = POLYLINE ->
  getProfile cytoplasm_roi = Some cytoplasm_profile ->
  cytoplasm_profile <> [] ->
  Double.threshold_percentage self' = Double.Finite x
  /\ 1 <= x <= 100
  /\ exists cell,
       analyze_single_cell
         {| threshold_percentage := x;
            cell_count := Double.cell_count self' |}
         (Some (polyline_roi anchors profile)) (Some cytoplasm_roi)
       = Ok (Some cell)
       /\ cell_number cell = Double.cell_count self
       /\ full_profile (cell_nuclear_data cell) = profile
       /\ raw_profile (cell_cytoplasm_data cell) = cytoplasm_profile.
Proof.
  intros Hset Hx Hn HD Hp Hty Hcp Hcne.
  assert (Hc : Double.wasCanceled gd = false).
  { unfold Double.get_analysis_settings in Hset.
    destruct (Double.wasCanceled gd); [discriminate|reflexivity]. }
  destruct (double_settings_stored self gd Hc) as [Hst Hcount].
  pose proof (double_settings_accept self gd Hc) as Hacc.
  rewrite Hset in Hst, Hcount, Hacc; cbn [fst snd] in Hst, Hcount, Hacc.
  symmetry in Hacc; apply double_in_range in Hacc.
  assert (Ht : 1 <= x <= 100).
  { destruct Hacc as [Hnan|(y & Hy & Hr)]; [congruence|].
    rewrite Hx in Hy; injection Hy as <-; exact Hr. }
  split; [congruence|]; split; [exact Ht|].
  set (a := {| threshold_percentage := x;
               cell_count := Double.cell_count self' |}).
  assert (Ht' : 0 < threshold_percentage a <= 100) by (cbn; lra).
  pose proof (measure_nuclear_valid anchors profile _ Hn HD Hp Ht' a
                eq_refl) as Hnuc.
  pose proof (measure_cytoplasm_full a cytoplasm_roi cytoplasm_profile
                Hty Hcp Hcne Ht') as Hcyt.
  destruct (analyze_single_cell_ratio a _ _ _ _ Hnuc Hcyt)
    as (cell & Hcell & _).
  exists cell; split; [assumption|].
  unfold analyze_single_cell in Hcell.
  rewrite Hnuc in Hcell; cbn [bind] in Hcell.
  rewrite Hcyt in Hcell; cbn [bind] in Hcell.
  rewrite ratio_value in Hcell; cbn [bind] in Hcell.
  injection Hcell as <-; cbn; repeat split; assumption.
Qed.

Lemma accepted_settings_cell_measured_witness :
  exists cell,
    analyze_single_cell {| threshold_percentage := 25; cell_count := 0 |}
      (Some (polyline_roi uneven_anchors sample_1_to_10))
      (Some (polyline_roi colinear_anchors [3; 1; 2])) = Ok (Some cell)
    /\ cell_number cell = 0%Z.
Proof.
  assert (Hset : Double.get_analysis_settings Double.init
                   {| Double.wasCanceled := false;
                      Double.getNextNumber := Double.Finite 25 |}
                 = (true, {| Double.threshold_percentage := Double.Finite 25;
                             Double.cell_count := 0 |})).
  { unfold Double.get_analysis_settings;
      cbn [Double.wasCanceled Double.getNextNumber
           Double.threshold_percentage Double.cell_count Double.init
           Double.lt Double.gt].
    destruct (Rlt_dec 25 1); [lra|].
    destruct (Rgt_dec 25 100); [lra|reflexivity]. }
  assert (Hn : (2 <= length uneven_anchors)%nat) by (simpl; lia).
  assert (HD : 0 < Spec.D uneven_anchors (length uneven_anchors - 1))
    by (destruct D_uneven as [_ H2];
        change (Spec.D uneven_anchors (length uneven_anchors - 1))
          with (Spec.D uneven_anchors 2); lra).
  assert (Hp : sample_1_to_10 <> []) by discriminate.
  assert (Hc : [3; 1; 2] <> []) by discriminate.
  destruct (accepted_settings_cell_measured Double.init _ _ 25
              uneven_anchors sample_1_to_10
              (polyline_roi colinear_anchors [3; 1; 2])
              [3; 1; 2] Hset eq_refl Hn HD Hp eq_refl eq_refl Hc)
    as (_ & _ & cell & Hcell & Hnum & _).
  exists cell; split; assumption.
Defined.

End SettingsFacts.
